(** * AdStack: escrow ledger and dispute registry

    A shallow embedding of the two Clarity contracts that hold the
    fund-custody and arbitration logic of AdStack:

    - [contracts/escrow-manager.clar]  (module [Escrow]),
    - the [dispute-resolution] contract stored in
      [contracts/targeting-engine.clar] (module [Dispute]).

    Clarity values of type [uint] are unsigned 128-bit integers whose
    arithmetic aborts the transaction on overflow, underflow and division
    by zero.  A public function returns [(ok v)] and commits its writes, or
    returns [(err c)] and every write of the transaction is rolled back. *)

From Stdlib Require Import NArith Lia.
From stdpp Require Import gmap strings fin_maps.

Local Open Scope N_scope.

(** ** Clarity prelude *)

Module Clarity.

(** Principals are Stacks addresses. *)
Definition principal : Type := string.

(** Largest [uint]: 2^128 - 1. *)
Definition uint_max : N := 340282366920938463463374607431768211455.

(** Outcome of a contract call: [(ok a)], [(err code)], or a runtime
    abort (arithmetic overflow/underflow, division by zero). *)
Inductive response (A : Type) : Type :=
| Ok (a : A)
| Err (code : N)
| Abort.
Arguments Ok {A} a.
Arguments Err {A} code.
Arguments Abort {A}.

(** A transaction body over a contract store [S]: it either yields a
    value with the updated store or fails without a store. *)
Definition tx (S A : Type) : Type := S → response (A * S).

Definition tx_ret {S A} (a : A) : tx S A := λ s, Ok (a, s).

Definition tx_bind {S A B} (k : A → tx S B) (m : tx S A) : tx S B :=
  λ s, match m s with
       | Ok (a, s') => k a s'
       | Err c => Err c
       | Abort => Abort
       end.

#[global] Instance tx_mret {S} : MRet (tx S) := @tx_ret S.
#[global] Instance tx_mbind {S} : MBind (tx S) := @tx_bind S.

(** [(err c)] reached through [asserts!] / [unwrap!]. *)
Definition throw {S A} (c : N) : tx S A := λ _, Err c.
Definition abort {S A} : tx S A := λ _, Abort.

(** [(var-get v)] / [(map-get? m k)]: read the store. *)
Definition var_get {S A} (f : S → A) : tx S A := λ s, Ok (f s, s).
(** [(var-set v x)] / [(map-set m k x)]: write the store, yields [true]. *)
Definition store {S} (f : S → S) : tx S bool := λ s, Ok (true, f s).

Definition asserts {S} (b : bool) (c : N) : tx S bool :=
  if b then mret true else throw c.

Definition unwrap {S A} (o : option A) (c : N) : tx S A :=
  match o with
  | Some a => mret a
  | None => throw c
  end.

(** Checked [uint] arithmetic. *)
Definition add {S} (a b : N) : tx S N :=
  if a + b <=? uint_max then mret (a + b) else abort.
Definition sub {S} (a b : N) : tx S N :=
  if b <=? a then mret (a - b) else abort.
Definition mul {S} (a b : N) : tx S N :=
  if a * b <=? uint_max then mret (a * b) else abort.
Definition div {S} (a b : N) : tx S N :=
  if b =? 0 then abort else mret (a / b).

(** The context of one contract call. *)
Record env : Type := Env {
  tx_sender : principal;
  stacks_block_time : N
}.

(** The store after a call: committed on [(ok _)], untouched otherwise. *)
Definition commit {S A} (r : response (A * S)) (s : S) : S :=
  match r with
  | Ok (_, s') => s'
  | _ => s
  end.

End Clarity.

Import Clarity.

(** ** escrow-manager.clar *)

Module Escrow.

Definition err_owner_only : N := 100.
Definition err_not_found : N := 101.
Definition err_unauthorized : N := 102.
Definition err_insufficient_funds : N := 103.
Definition err_invalid_status : N := 104.
Definition err_milestone_incomplete : N := 105.
Definition err_escrow_expired : N := 106.
Definition err_escrow_active : N := 107.
Definition err_invalid_amount : N := 108.

Definition STATUS_ACTIVE : N := 1.
Definition STATUS_RELEASED : N := 2.
Definition STATUS_REFUNDED : N := 3.
Definition STATUS_PARTIALLY_RELEASED : N := 4.
Definition STATUS_EXPIRED : N := 5.

Definition MILESTONE_PENDING : N := 1.
Definition MILESTONE_COMPLETED : N := 2.
Definition MILESTONE_FAILED : N := 3.

(** Value of the [escrow-accounts] map. *)
Record escrow : Type := {
  campaign_id : N;
  depositor : principal;
  beneficiary : principal;
  amount : N;
  released_amount : N;
  status : N;
  created_at : N;
  expiry : N;
  requires_milestones : bool
}.

(** Value of the [escrow-milestones] map. *)
Record milestone : Type := {
  ms_description : string;
  ms_amount : N;
  ms_status : N;
  ms_condition_hash : option string;
  ms_deadline : N;
  ms_completed_at : N
}.

(** Value of the [milestone-count] map. *)
Record count_data : Type := {
  total : N;
  completed : N
}.

(** Value of the [escrow-releases] map. *)
Record release : Type := {
  rel_amount : N;
  rel_recipient : principal;
  rel_reason : string;
  rel_released_at : N
}.

(** Value of the [pending-escrows] map. *)
Record pending : Type := {
  total_locked : N;
  total_escrowed_out : N
}.

(** Value of the [escrow-history] map. *)
Record history : Type := {
  total_deposited : N;
  total_received : N;
  total_refunded : N;
  escrows_completed : N
}.

(** Data variables and data maps of the contract. *)
Record state : Type := {
  escrow_nonce : N;
  milestone_nonce : N;
  min_escrow_amount : N;
  max_escrow_duration : N;
  emergency_withdrawal_fee : N;
  total_escrowed : N;
  escrow_accounts : gmap N escrow;
  escrow_milestones : gmap (N * N) milestone;
  milestone_count : gmap N count_data;
  escrow_releases : gmap (N * N) release;
  pending_escrows : gmap principal pending;
  escrow_history : gmap principal history
}.

(** The store at deployment. *)
Definition init : state := {|
  escrow_nonce := 0;
  milestone_nonce := 0;
  min_escrow_amount := 100000;
  max_escrow_duration := 52560;
  emergency_withdrawal_fee := 10;
  total_escrowed := 0;
  escrow_accounts := ∅;
  escrow_milestones := ∅;
  milestone_count := ∅;
  escrow_releases := ∅;
  pending_escrows := ∅;
  escrow_history := ∅
|}.

(** *** Writes *)

Definition set_escrow_nonce (v : N) (s : state) : state :=
  {| escrow_nonce := v;
     milestone_nonce := milestone_nonce s;
     min_escrow_amount := min_escrow_amount s;
     max_escrow_duration := max_escrow_duration s;
     emergency_withdrawal_fee := emergency_withdrawal_fee s;
     total_escrowed := total_escrowed s;
     escrow_accounts := escrow_accounts s;
     escrow_milestones := escrow_milestones s;
     milestone_count := milestone_count s;
     escrow_releases := escrow_releases s;
     pending_escrows := pending_escrows s;
     escrow_history := escrow_history s |}.

Definition set_milestone_nonce (v : N) (s : state) : state :=
  {| escrow_nonce := escrow_nonce s;
     milestone_nonce := v;
     min_escrow_amount := min_escrow_amount s;
     max_escrow_duration := max_escrow_duration s;
     emergency_withdrawal_fee := emergency_withdrawal_fee s;
     total_escrowed := total_escrowed s;
     escrow_accounts := escrow_accounts s;
     escrow_milestones := escrow_milestones s;
     milestone_count := milestone_count s;
     escrow_releases := escrow_releases s;
     pending_escrows := pending_escrows s;
     escrow_history := escrow_history s |}.

Definition set_min_escrow_amount_var (v : N) (s : state) : state :=
  {| escrow_nonce := escrow_nonce s;
     milestone_nonce := milestone_nonce s;
     min_escrow_amount := v;
     max_escrow_duration := max_escrow_duration s;
     emergency_withdrawal_fee := emergency_withdrawal_fee s;
     total_escrowed := total_escrowed s;
     escrow_accounts := escrow_accounts s;
     escrow_milestones := escrow_milestones s;
     milestone_count := milestone_count s;
     escrow_releases := escrow_releases s;
     pending_escrows := pending_escrows s;
     escrow_history := escrow_history s |}.

Definition set_emergency_withdrawal_fee (v : N) (s : state) : state :=
  {| escrow_nonce := escrow_nonce s;
     milestone_nonce := milestone_nonce s;
     min_escrow_amount := min_escrow_amount s;
     max_escrow_duration := max_escrow_duration s;
     emergency_withdrawal_fee := v;
     total_escrowed := total_escrowed s;
     escrow_accounts := escrow_accounts s;
     escrow_milestones := escrow_milestones s;
     milestone_count := milestone_count s;
     escrow_releases := escrow_releases s;
     pending_escrows := pending_escrows s;
     escrow_history := escrow_history s |}.

Definition set_total_escrowed (v : N) (s : state) : state :=
  {| escrow_nonce := escrow_nonce s;
     milestone_nonce := milestone_nonce s;
     min_escrow_amount := min_escrow_amount s;
     max_escrow_duration := max_escrow_duration s;
     emergency_withdrawal_fee := emergency_withdrawal_fee s;
     total_escrowed := v;
     escrow_accounts := escrow_accounts s;
     escrow_milestones := escrow_milestones s;
     milestone_count := milestone_count s;
     escrow_releases := escrow_releases s;
     pending_escrows := pending_escrows s;
     escrow_history := escrow_history s |}.

Definition set_escrow_account (k : N) (v : escrow) (s : state) : state :=
  {| escrow_nonce := escrow_nonce s;
     milestone_nonce := milestone_nonce s;
     min_escrow_amount := min_escrow_amount s;
     max_escrow_duration := max_escrow_duration s;
     emergency_withdrawal_fee := emergency_withdrawal_fee s;
     total_escrowed := total_escrowed s;
     escrow_accounts := <[k := v]> (escrow_accounts s);
     escrow_milestones := escrow_milestones s;
     milestone_count := milestone_count s;
     escrow_releases := escrow_releases s;
     pending_escrows := pending_escrows s;
     escrow_history := escrow_history s |}.

Definition set_escrow_milestone (k : N * N) (v : milestone) (s : state) : state :=
  {| escrow_nonce := escrow_nonce s;
     milestone_nonce := milestone_nonce s;
     min_escrow_amount := min_escrow_amount s;
     max_escrow_duration := max_escrow_duration s;
     emergency_withdrawal_fee := emergency_withdrawal_fee s;
     total_escrowed := total_escrowed s;
     escrow_accounts := escrow_accounts s;
     escrow_milestones := <[k := v]> (escrow_milestones s);
     milestone_count := milestone_count s;
     escrow_releases := escrow_releases s;
     pending_escrows := pending_escrows s;
     escrow_history := escrow_history s |}.

Definition set_milestone_count (k : N) (v : count_data) (s : state) : state :=
  {| escrow_nonce := escrow_nonce s;
     milestone_nonce := milestone_nonce s;
     min_escrow_amount := min_escrow_amount s;
     max_escrow_duration := max_escrow_duration s;
     emergency_withdrawal_fee := emergency_withdrawal_fee s;
     total_escrowed := total_escrowed s;
     escrow_accounts := escrow_accounts s;
     escrow_milestones := escrow_milestones s;
     milestone_count := <[k := v]> (milestone_count s);
     escrow_releases := escrow_releases s;
     pending_escrows := pending_escrows s;
     escrow_history := escrow_history s |}.

Definition set_escrow_release (k : N * N) (v : release) (s : state) : state :=
  {| escrow_nonce := escrow_nonce s;
     milestone_nonce := milestone_nonce s;
     min_escrow_amount := min_escrow_amount s;
     max_escrow_duration := max_escrow_duration s;
     emergency_withdrawal_fee := emergency_withdrawal_fee s;
     total_escrowed := total_escrowed s;
     escrow_accounts := escrow_accounts s;
     escrow_milestones := escrow_milestones s;
     milestone_count := milestone_count s;
     escrow_releases := <[k := v]> (escrow_releases s);
     pending_escrows := pending_escrows s;
     escrow_history := escrow_history s |}.

Definition set_pending_escrows (k : principal) (v : pending) (s : state) : state :=
  {| escrow_nonce := escrow_nonce s;
     milestone_nonce := milestone_nonce s;
     min_escrow_amount := min_escrow_amount s;
     max_escrow_duration := max_escrow_duration s;
     emergency_withdrawal_fee := emergency_withdrawal_fee s;
     total_escrowed := total_escrowed s;
     escrow_accounts := escrow_accounts s;
     escrow_milestones := escrow_milestones s;
     milestone_count := milestone_count s;
     escrow_releases := escrow_releases s;
     pending_escrows := <[k := v]> (pending_escrows s);
     escrow_history := escrow_history s |}.

Definition set_escrow_history (k : principal) (v : history) (s : state) : state :=
  {| escrow_nonce := escrow_nonce s;
     milestone_nonce := milestone_nonce s;
     min_escrow_amount := min_escrow_amount s;
     max_escrow_duration := max_escrow_duration s;
     emergency_withdrawal_fee := emergency_withdrawal_fee s;
     total_escrowed := total_escrowed s;
     escrow_accounts := escrow_accounts s;
     escrow_milestones := escrow_milestones s;
     milestone_count := milestone_count s;
     escrow_releases := escrow_releases s;
     pending_escrows := pending_escrows s;
     escrow_history := <[k := v]> (escrow_history s) |}.

(** [(merge escrow { released-amount: r, status: st })] *)
Definition merge_released_status (esc : escrow) (r st : N) : escrow :=
  {| campaign_id := campaign_id esc;
     depositor := depositor esc;
     beneficiary := beneficiary esc;
     amount := amount esc;
     released_amount := r;
     status := st;
     created_at := created_at esc;
     expiry := expiry esc;
     requires_milestones := requires_milestones esc |}.

(** [(merge escrow { status: st })] *)
Definition merge_status (esc : escrow) (st : N) : escrow :=
  merge_released_status esc (released_amount esc) st.

(** [(merge escrow { expiry: x })] *)
Definition merge_expiry (esc : escrow) (x : N) : escrow :=
  {| campaign_id := campaign_id esc;
     depositor := depositor esc;
     beneficiary := beneficiary esc;
     amount := amount esc;
     released_amount := released_amount esc;
     status := status esc;
     created_at := created_at esc;
     expiry := x;
     requires_milestones := requires_milestones esc |}.

Section Contract.

(** [(define-constant contract-owner tx-sender)]: the deployer. *)
Variable contract_owner : principal.

(** *** Private functions *)

Definition calculate_emergency_fee (amt : N) : tx state N :=
  fee ← var_get emergency_withdrawal_fee;
  p ← mul amt fee;
  div p 100.

Definition update_user_pending (user : principal) (amt : N) (is_deposit : bool)
  : tx state bool :=
  pend ← var_get (λ s, default {| total_locked := 0; total_escrowed_out := 0 |}
                               (pending_escrows s !! user));
  if is_deposit then
    l ← add (total_locked pend) amt;
    store (set_pending_escrows user
             {| total_locked := l; total_escrowed_out := total_escrowed_out pend |})
  else
    o ← add (total_escrowed_out pend) amt;
    store (set_pending_escrows user
             {| total_locked := total_locked pend; total_escrowed_out := o |}).

(** *** Read-only functions *)

Definition get_escrow (escrow_id : N) (s : state) : option escrow :=
  escrow_accounts s !! escrow_id.

Definition get_milestone (escrow_id milestone_id : N) (s : state) : option milestone :=
  escrow_milestones s !! (escrow_id, milestone_id).

Definition get_milestone_count (escrow_id : N) (s : state) : count_data :=
  default {| total := 0; completed := 0 |} (milestone_count s !! escrow_id).

Definition get_release (escrow_id release_id : N) (s : state) : option release :=
  escrow_releases s !! (escrow_id, release_id).

Definition is_escrow_expired (e : env) (escrow_id : N) (s : state) : bool :=
  match escrow_accounts s !! escrow_id with
  | Some esc => expiry esc <=? stacks_block_time e
  | None => false
  end.

(** *** Public functions *)

Definition create_escrow (e : env) (campaign : N) (benef : principal)
    (amt duration : N) (req_milestones : bool) : tx state N :=
  nonce ← var_get escrow_nonce;
  escrow_id ← add nonce 1;
  exp ← add (stacks_block_time e) duration;
  min_amt ← var_get min_escrow_amount;
  asserts (min_amt <=? amt) err_invalid_amount;;
  max_dur ← var_get max_escrow_duration;
  asserts (duration <=? max_dur) err_invalid_status;;
  asserts (negb (bool_decide (tx_sender e = benef))) err_unauthorized;;
  store (set_escrow_account escrow_id
           {| campaign_id := campaign;
              depositor := tx_sender e;
              beneficiary := benef;
              amount := amt;
              released_amount := 0;
              status := STATUS_ACTIVE;
              created_at := stacks_block_time e;
              expiry := exp;
              requires_milestones := req_milestones |});;
  (if req_milestones
   then store (set_milestone_count escrow_id {| total := 0; completed := 0 |})
   else mret true);;
  update_user_pending (tx_sender e) amt true;;
  tot ← var_get total_escrowed;
  tot' ← add tot amt;
  store (set_total_escrowed tot');;
  store (set_escrow_nonce escrow_id);;
  mret escrow_id.

Definition add_milestone (e : env) (escrow_id : N) (description : string)
    (amt deadline : N) (condition_hash : option string) : tx state N :=
  o ← var_get (get_escrow escrow_id);
  esc ← unwrap o err_not_found;
  cnt ← var_get (get_milestone_count escrow_id);
  milestone_id ← add (total cnt) 1;
  asserts (bool_decide (tx_sender e = depositor esc)) err_unauthorized;;
  asserts (requires_milestones esc) err_invalid_status;;
  asserts (status esc =? STATUS_ACTIVE) err_invalid_status;;
  store (set_escrow_milestone (escrow_id, milestone_id)
           {| ms_description := description;
              ms_amount := amt;
              ms_status := MILESTONE_PENDING;
              ms_condition_hash := condition_hash;
              ms_deadline := deadline;
              ms_completed_at := 0 |});;
  store (set_milestone_count escrow_id
           {| total := milestone_id; completed := completed cnt |});;
  mret milestone_id.

Definition complete_milestone (e : env) (escrow_id milestone_id : N) : tx state bool :=
  o ← var_get (get_escrow escrow_id);
  esc ← unwrap o err_not_found;
  om ← var_get (get_milestone escrow_id milestone_id);
  ms ← unwrap om err_not_found;
  cnt ← var_get (get_milestone_count escrow_id);
  asserts (bool_decide (tx_sender e = beneficiary esc)) err_unauthorized;;
  asserts (ms_status ms =? MILESTONE_PENDING) err_invalid_status;;
  store (set_escrow_milestone (escrow_id, milestone_id)
           {| ms_description := ms_description ms;
              ms_amount := ms_amount ms;
              ms_status := MILESTONE_COMPLETED;
              ms_condition_hash := ms_condition_hash ms;
              ms_deadline := ms_deadline ms;
              ms_completed_at := stacks_block_time e |});;
  c ← add (completed cnt) 1;
  store (set_milestone_count escrow_id {| total := total cnt; completed := c |});;
  mret true.

Definition release_funds (e : env) (escrow_id amt : N) (reason : string)
  : tx state bool :=
  o ← var_get (get_escrow escrow_id);
  esc ← unwrap o err_not_found;
  available ← sub (amount esc) (released_amount esc);
  mn ← var_get milestone_nonce;
  release_id ← add mn 1;
  asserts (bool_decide (tx_sender e = depositor esc)) err_unauthorized;;
  asserts (status esc =? STATUS_ACTIVE) err_invalid_status;;
  asserts (amt <=? available) err_insufficient_funds;;
  store (set_escrow_release (escrow_id, release_id)
           {| rel_amount := amt;
              rel_recipient := beneficiary esc;
              rel_reason := reason;
              rel_released_at := stacks_block_time e |});;
  new_released ← add (released_amount esc) amt;
  store (set_escrow_account escrow_id
           (merge_released_status esc new_released
              (if new_released =? amount esc
               then STATUS_RELEASED else STATUS_PARTIALLY_RELEASED)));;
  store (set_milestone_nonce release_id);;
  mret true.

Definition release_milestone_funds (e : env) (escrow_id milestone_id : N)
  : tx state bool :=
  o ← var_get (get_escrow escrow_id);
  esc ← unwrap o err_not_found;
  om ← var_get (get_milestone escrow_id milestone_id);
  ms ← unwrap om err_not_found;
  available ← sub (amount esc) (released_amount esc);
  mn ← var_get milestone_nonce;
  release_id ← add mn 1;
  asserts (bool_decide (tx_sender e = depositor esc)) err_unauthorized;;
  asserts (ms_status ms =? MILESTONE_COMPLETED) err_milestone_incomplete;;
  asserts (ms_amount ms <=? available) err_insufficient_funds;;
  store (set_escrow_release (escrow_id, release_id)
           {| rel_amount := ms_amount ms;
              rel_recipient := beneficiary esc;
              rel_reason := ms_description ms;
              rel_released_at := stacks_block_time e |});;
  new_released ← add (released_amount esc) (ms_amount ms);
  store (set_escrow_account escrow_id
           (merge_released_status esc new_released
              (if new_released =? amount esc
               then STATUS_RELEASED else STATUS_PARTIALLY_RELEASED)));;
  store (set_milestone_nonce release_id);;
  mret true.

Definition refund_escrow (e : env) (escrow_id : N) : tx state N :=
  o ← var_get (get_escrow escrow_id);
  esc ← unwrap o err_not_found;
  refund_amount ← sub (amount esc) (released_amount esc);
  asserts (bool_decide (tx_sender e = depositor esc)) err_unauthorized;;
  asserts (expiry esc <=? stacks_block_time e) err_escrow_active;;
  asserts ((status esc =? STATUS_ACTIVE) || (status esc =? STATUS_PARTIALLY_RELEASED))
          err_invalid_status;;
  store (set_escrow_account escrow_id (merge_status esc STATUS_REFUNDED));;
  hist ← var_get (λ s, default {| total_deposited := 0; total_received := 0;
                                  total_refunded := 0; escrows_completed := 0 |}
                               (escrow_history s !! depositor esc));
  r ← add (total_refunded hist) refund_amount;
  store (set_escrow_history (depositor esc)
           {| total_deposited := total_deposited hist;
              total_received := total_received hist;
              total_refunded := r;
              escrows_completed := escrows_completed hist |});;
  mret refund_amount.

Definition emergency_withdrawal (e : env) (escrow_id : N) : tx state N :=
  o ← var_get (get_escrow escrow_id);
  esc ← unwrap o err_not_found;
  available ← sub (amount esc) (released_amount esc);
  fee ← calculate_emergency_fee available;
  withdrawal_amount ← sub available fee;
  asserts (bool_decide (tx_sender e = depositor esc)) err_unauthorized;;
  asserts (status esc =? STATUS_ACTIVE) err_invalid_status;;
  store (set_escrow_account escrow_id
           (merge_released_status esc (amount esc) STATUS_REFUNDED));;
  mret withdrawal_amount.

Definition extend_escrow_period (e : env) (escrow_id additional_time : N)
  : tx state bool :=
  o ← var_get (get_escrow escrow_id);
  esc ← unwrap o err_not_found;
  asserts (bool_decide (tx_sender e = depositor esc)) err_unauthorized;;
  asserts (status esc =? STATUS_ACTIVE) err_invalid_status;;
  x ← add (expiry esc) additional_time;
  store (set_escrow_account escrow_id (merge_expiry esc x));;
  mret true.

(** *** Admin functions *)

Definition set_min_escrow_amount (e : env) (new_min : N) : tx state bool :=
  asserts (bool_decide (tx_sender e = contract_owner)) err_owner_only;;
  store (set_min_escrow_amount_var new_min);;
  mret true.

Definition set_emergency_fee (e : env) (new_fee : N) : tx state bool :=
  asserts (bool_decide (tx_sender e = contract_owner)) err_owner_only;;
  asserts (new_fee <=? 50) err_invalid_amount;;
  store (set_emergency_withdrawal_fee new_fee);;
  mret true.

(** *** Transactions *)

(** One call of a public function. *)
Inductive call : Type :=
| CreateEscrow (campaign : N) (benef : principal) (amt duration : N) (req : bool)
| AddMilestone (escrow_id : N) (description : string) (amt deadline : N)
               (condition_hash : option string)
| CompleteMilestone (escrow_id milestone_id : N)
| ReleaseFunds (escrow_id amt : N) (reason : string)
| ReleaseMilestoneFunds (escrow_id milestone_id : N)
| RefundEscrow (escrow_id : N)
| EmergencyWithdrawal (escrow_id : N)
| ExtendEscrowPeriod (escrow_id additional_time : N)
| SetMinEscrowAmount (new_min : N)
| SetEmergencyFee (new_fee : N).

(** The store after a call issued in context [e]. *)
Definition step (s : state) (ec : env * call) : state :=
  let e := ec.1 in
  match ec.2 with
  | CreateEscrow c b a d r => commit (create_escrow e c b a d r s) s
  | AddMilestone i d a dl h => commit (add_milestone e i d a dl h s) s
  | CompleteMilestone i m => commit (complete_milestone e i m s) s
  | ReleaseFunds i a r => commit (release_funds e i a r s) s
  | ReleaseMilestoneFunds i m => commit (release_milestone_funds e i m s) s
  | RefundEscrow i => commit (refund_escrow e i s) s
  | EmergencyWithdrawal i => commit (emergency_withdrawal e i s) s
  | ExtendEscrowPeriod i t => commit (extend_escrow_period e i t s) s
  | SetMinEscrowAmount n => commit (set_min_escrow_amount e n s) s
  | SetEmergencyFee n => commit (set_emergency_fee e n s) s
  end.

(** The store after a sequence of calls, starting from deployment. *)
Definition run (l : list (env * call)) : state := fold_left step l init.

End Contract.

(** *** Ledger views used by the specification *)

(** Sum of the amounts of the [escrow-releases] records of one escrow. *)
Definition released_total (escrow_id : N) (m : gmap (N * N) release) : N :=
  map_fold (λ k r acc, if bool_decide (k.1 = escrow_id) then rel_amount r + acc else acc)
           0 m.

(** The audit trail accounts for the released amount of every escrow. *)
Definition ledger_matches (s : state) : Prop :=
  ∀ id esc, escrow_accounts s !! id = Some esc →
            released_total id (escrow_releases s) = released_amount esc.

(** An escrow is marked released exactly when it is fully drained. *)
Definition released_iff_drained (s : state) : Prop :=
  ∀ id esc, escrow_accounts s !! id = Some esc →
            (status esc = STATUS_RELEASED ↔ released_amount esc = amount esc).

(** The relation between status and released amount that every call keeps. *)
Definition escrow_ok (esc : escrow) : Prop :=
  (status esc = STATUS_ACTIVE ∧ released_amount esc = 0)
  ∨ (status esc = STATUS_PARTIALLY_RELEASED ∧ released_amount esc < amount esc)
  ∨ (status esc = STATUS_RELEASED ∧ released_amount esc = amount esc)
  ∨ (status esc = STATUS_REFUNDED ∧ released_amount esc ≤ amount esc).

(** The error kinds the specification tells apart: those of its error
    taxonomy, and the invalid duration it names for [create-escrow]. *)
Inductive error_kind : Type :=
| Unauthorized | NotFound | InvalidState | InvalidAmount | InvalidDuration
| InsufficientFunds | LimitExceeded | Expired.

(** A reading of the error kinds as result codes: different kinds are
    reported by different codes. *)
Definition reports_kinds (code_of : error_kind → N) : Prop :=
  ∀ k k', code_of k = code_of k' → k = k'.

(** A call that did not commit. *)
Definition failed {A} (r : response A) : Prop :=
  match r with
  | Ok _ => False
  | _ => True
  end.

(** Every escrow account satisfies [escrow_ok]. *)
Definition wf (s : state) : Prop :=
  map_Forall (λ _ esc, escrow_ok esc) (escrow_accounts s).

(** [P id] holds when an emergency withdrawal may have been issued on [id]. *)
Record ledger (P : N → Prop) (s : state) : Prop := {
  led_fresh_escrow : ∀ id, escrow_nonce s < id → escrow_accounts s !! id = None;
  led_fresh_release :
    ∀ id rid, milestone_nonce s < rid → escrow_releases s !! (id, rid) = None;
  led_none :
    ∀ id, escrow_accounts s !! id = None →
          released_total id (escrow_releases s) = 0;
  led_sum :
    ∀ id esc, escrow_accounts s !! id = Some esc →
              released_total id (escrow_releases s) ≤ released_amount esc
              ∧ (¬ P id → released_total id (escrow_releases s) = released_amount esc)
}.

(** A call that committed. *)
Definition committed {A} (r : response A) : bool :=
  match r with
  | Ok _ => true
  | _ => false
  end.

(** One call, together with the escrows emergency-withdrawn so far: an
    [emergency-withdrawal] that commits adds its escrow. *)
Definition withdrawn_step (own : principal) (acc : state * list N) (ec : env * call)
  : state * list N :=
  (step own acc.1 ec,
   match ec.2 with
   | EmergencyWithdrawal id =>
       if committed (emergency_withdrawal ec.1 id acc.1) then id :: acc.2 else acc.2
   | _ => acc.2
   end).

(** The escrows on which an [emergency-withdrawal] has committed along [l]. *)
Definition withdrawn_ids (own : principal) (l : list (env * call)) : list N :=
  (fold_left (withdrawn_step own) l (init, [])).2.

Definition emergency_withdrawn (own : principal) (l : list (env * call)) (id : N) : bool :=
  bool_decide (id ∈ withdrawn_ids own l).

(** The escrows of [P] are drained, with no release record to show for it. *)
Definition drained (P : N → Prop) (s : state) : Prop :=
  ∀ id, P id →
        ∃ esc, escrow_accounts s !! id = Some esc
               ∧ released_total id (escrow_releases s) = 0
               ∧ released_amount esc = amount esc
               ∧ status esc ≠ STATUS_ACTIVE.


(** *** Scenarios *)

Definition owner : principal := "SP3BXJENEWVNCFYGJF75DFS478H1BZJXNZPT84EAD".
Definition alice : principal := "SP2J6ZY48GV1EZ5V2V5RB9MP66SW86PYKKNRV9EJ7".
Definition bob : principal := "SP1P72Z3704VMT3DMHPP2CB8TGQWGDBHD3RPR9GZS".

(** Alice opens an escrow of 1,000,000 for Bob and withdraws it at once. *)
Definition withdrawn_trace : list (env * call) :=
  [ (Env alice 10, CreateEscrow 1 bob 1000000 1000 false);
    (Env alice 11, EmergencyWithdrawal 1) ].

(** Alice opens a milestone escrow of 1,000,000 for Bob, attaches a
    milestone of 600,000, Bob completes it and Alice releases it. *)
Definition milestone_trace : list (env * call) :=
  [ (Env alice 10, CreateEscrow 1 bob 1000000 1000 true);
    (Env alice 11, AddMilestone 1 "first delivery" 600000 500 None);
    (Env bob 12, CompleteMilestone 1 1);
    (Env alice 13, ReleaseMilestoneFunds 1 1) ].

(** The escrow account after [milestone_trace]. *)
Definition milestone_escrow : escrow :=
  {| campaign_id := 1; depositor := alice; beneficiary := bob;
     amount := 1000000; released_amount := 600000;
     status := STATUS_PARTIALLY_RELEASED; created_at := 10; expiry := 1010;
     requires_milestones := true |}.

(** A milestone of 400,000 is completed but not released; after expiry
    Alice takes the whole escrow back. *)
Definition refunded_trace : list (env * call) :=
  [ (Env alice 10, CreateEscrow 1 bob 1000000 1000 true);
    (Env alice 11, AddMilestone 1 "first delivery" 400000 500 None);
    (Env bob 12, CompleteMilestone 1 1);
    (Env alice 1010, RefundEscrow 1) ].

(** Bob, who is not the depositor, tries an emergency withdrawal on the
    escrow of [milestone_trace]; the call is rejected. *)
Definition rejected_withdrawal_trace : list (env * call) :=
  milestone_trace ++ [ (Env bob 14, EmergencyWithdrawal 1) ].

(** Alice opens an escrow of 1,000,000 for Bob and releases all of it. *)
Definition released_trace : list (env * call) :=
  [ (Env alice 10, CreateEscrow 1 bob 1000000 1000 false);
    (Env alice 11, ReleaseFunds 1 1000000 "delivered") ].

(** The escrow account after [released_trace]. *)
Definition released_escrow : escrow :=
  {| campaign_id := 1; depositor := alice; beneficiary := bob;
     amount := 1000000; released_amount := 1000000;
     status := STATUS_RELEASED; created_at := 10; expiry := 1010;
     requires_milestones := false |}.



End Escrow.

(** ** dispute-resolution (second contract of targeting-engine.clar) *)

Module Dispute.

Definition err_owner_only : N := 100.
Definition err_not_found : N := 101.
Definition err_unauthorized : N := 102.
Definition err_invalid_status : N := 103.
Definition err_already_resolved : N := 104.
Definition err_insufficient_amount : N := 105.
Definition err_invalid_party : N := 106.
Definition err_evidence_limit : N := 107.
Definition err_appeal_expired : N := 108.

Definition STATUS_OPEN : N := 1.
Definition STATUS_UNDER_REVIEW : N := 2.
Definition STATUS_RESOLVED : N := 3.
Definition STATUS_APPEALED : N := 4.
Definition STATUS_CLOSED : N := 5.

Definition TYPE_PAYMENT : N := 1.
Definition TYPE_FRAUD : N := 2.
Definition TYPE_QUALITY : N := 3.
Definition TYPE_CONTRACT_BREACH : N := 4.

Definition OUTCOME_ADVERTISER_WINS : N := 1.
Definition OUTCOME_PUBLISHER_WINS : N := 2.
Definition OUTCOME_SPLIT : N := 3.
Definition OUTCOME_DISMISSED : N := 4.

(** Value of the [disputes] map. *)
Record dispute : Type := {
  campaign_id : N;
  advertiser : principal;
  publisher : principal;
  dispute_type : N;
  amount : N;
  status : N;
  description : string;
  created_at : N;
  updated_at : N;
  resolution_deadline : N
}.

(** Value of the [evidence-submissions] map. *)
Record evidence : Type := {
  submitter : principal;
  evidence_type : string;
  evidence_hash : string;
  ev_description : string;
  submitted_at : N
}.

(** Value of the [arbitrator-assignments] map. *)
Record assignment : Type := {
  arbitrator : principal;
  assigned_at : N;
  decision_deadline : N
}.

(** Value of the [arbitrator-votes] map. *)
Record vote : Type := {
  vote_outcome : N;
  vote_reasoning : string;
  voted_at : N
}.

(** Value of the [dispute-outcomes] map. *)
Record resolution : Type := {
  outcome : N;
  winner : principal;
  amount_transferred : N;
  reasoning : string;
  resolved_at : N;
  can_appeal : bool
}.

(** Value of the [evidence-count] map. *)
Record evidence_total : Type := {
  total_evidence : N
}.

(** Value of the [dispute-history] map. *)
Record party_history : Type := {
  total_disputes : N;
  disputes_won : N;
  disputes_lost : N;
  reputation_score : N
}.

(** Value of the [arbitrator-stats] map. *)
Record arb_stats : Type := {
  total_cases : N;
  cases_resolved : N;
  reputation : N;
  active : bool
}.

(** Data variables and data maps of the contract. *)
Record state : Type := {
  dispute_nonce : N;
  min_dispute_amount : N;
  max_evidence_per_dispute : N;
  arbitration_fee_percentage : N;
  appeal_window : N;
  auto_resolve_threshold : N;
  total_disputes_resolved : N;
  disputes : gmap N dispute;
  evidence_submissions : gmap (N * N) evidence;
  arbitrator_assignments : gmap N assignment;
  arbitrator_votes : gmap (N * principal) vote;
  dispute_outcomes : gmap N resolution;
  evidence_count : gmap N evidence_total;
  dispute_history : gmap principal party_history;
  arbitrator_stats : gmap principal arb_stats
}.

(** The store at deployment. *)
Definition init : state := {|
  dispute_nonce := 0;
  min_dispute_amount := 1000000;
  max_evidence_per_dispute := 10;
  arbitration_fee_percentage := 5;
  appeal_window := 1440;
  auto_resolve_threshold := 100000;
  total_disputes_resolved := 0;
  disputes := ∅;
  evidence_submissions := ∅;
  arbitrator_assignments := ∅;
  arbitrator_votes := ∅;
  dispute_outcomes := ∅;
  evidence_count := ∅;
  dispute_history := ∅;
  arbitrator_stats := ∅
|}.

(** *** Writes *)

Definition set_dispute_nonce (v : N) (s : state) : state :=
  {| dispute_nonce := v;
     min_dispute_amount := min_dispute_amount s;
     max_evidence_per_dispute := max_evidence_per_dispute s;
     arbitration_fee_percentage := arbitration_fee_percentage s;
     appeal_window := appeal_window s;
     auto_resolve_threshold := auto_resolve_threshold s;
     total_disputes_resolved := total_disputes_resolved s;
     disputes := disputes s;
     evidence_submissions := evidence_submissions s;
     arbitrator_assignments := arbitrator_assignments s;
     arbitrator_votes := arbitrator_votes s;
     dispute_outcomes := dispute_outcomes s;
     evidence_count := evidence_count s;
     dispute_history := dispute_history s;
     arbitrator_stats := arbitrator_stats s |}.

Definition set_appeal_window_var (v : N) (s : state) : state :=
  {| dispute_nonce := dispute_nonce s;
     min_dispute_amount := min_dispute_amount s;
     max_evidence_per_dispute := max_evidence_per_dispute s;
     arbitration_fee_percentage := arbitration_fee_percentage s;
     appeal_window := v;
     auto_resolve_threshold := auto_resolve_threshold s;
     total_disputes_resolved := total_disputes_resolved s;
     disputes := disputes s;
     evidence_submissions := evidence_submissions s;
     arbitrator_assignments := arbitrator_assignments s;
     arbitrator_votes := arbitrator_votes s;
     dispute_outcomes := dispute_outcomes s;
     evidence_count := evidence_count s;
     dispute_history := dispute_history s;
     arbitrator_stats := arbitrator_stats s |}.

Definition set_auto_resolve_threshold_var (v : N) (s : state) : state :=
  {| dispute_nonce := dispute_nonce s;
     min_dispute_amount := min_dispute_amount s;
     max_evidence_per_dispute := max_evidence_per_dispute s;
     arbitration_fee_percentage := arbitration_fee_percentage s;
     appeal_window := appeal_window s;
     auto_resolve_threshold := v;
     total_disputes_resolved := total_disputes_resolved s;
     disputes := disputes s;
     evidence_submissions := evidence_submissions s;
     arbitrator_assignments := arbitrator_assignments s;
     arbitrator_votes := arbitrator_votes s;
     dispute_outcomes := dispute_outcomes s;
     evidence_count := evidence_count s;
     dispute_history := dispute_history s;
     arbitrator_stats := arbitrator_stats s |}.

Definition set_total_disputes_resolved (v : N) (s : state) : state :=
  {| dispute_nonce := dispute_nonce s;
     min_dispute_amount := min_dispute_amount s;
     max_evidence_per_dispute := max_evidence_per_dispute s;
     arbitration_fee_percentage := arbitration_fee_percentage s;
     appeal_window := appeal_window s;
     auto_resolve_threshold := auto_resolve_threshold s;
     total_disputes_resolved := v;
     disputes := disputes s;
     evidence_submissions := evidence_submissions s;
     arbitrator_assignments := arbitrator_assignments s;
     arbitrator_votes := arbitrator_votes s;
     dispute_outcomes := dispute_outcomes s;
     evidence_count := evidence_count s;
     dispute_history := dispute_history s;
     arbitrator_stats := arbitrator_stats s |}.

Definition set_dispute (k : N) (v : dispute) (s : state) : state :=
  {| dispute_nonce := dispute_nonce s;
     min_dispute_amount := min_dispute_amount s;
     max_evidence_per_dispute := max_evidence_per_dispute s;
     arbitration_fee_percentage := arbitration_fee_percentage s;
     appeal_window := appeal_window s;
     auto_resolve_threshold := auto_resolve_threshold s;
     total_disputes_resolved := total_disputes_resolved s;
     disputes := <[k := v]> (disputes s);
     evidence_submissions := evidence_submissions s;
     arbitrator_assignments := arbitrator_assignments s;
     arbitrator_votes := arbitrator_votes s;
     dispute_outcomes := dispute_outcomes s;
     evidence_count := evidence_count s;
     dispute_history := dispute_history s;
     arbitrator_stats := arbitrator_stats s |}.

Definition set_evidence_submission (k : N * N) (v : evidence) (s : state) : state :=
  {| dispute_nonce := dispute_nonce s;
     min_dispute_amount := min_dispute_amount s;
     max_evidence_per_dispute := max_evidence_per_dispute s;
     arbitration_fee_percentage := arbitration_fee_percentage s;
     appeal_window := appeal_window s;
     auto_resolve_threshold := auto_resolve_threshold s;
     total_disputes_resolved := total_disputes_resolved s;
     disputes := disputes s;
     evidence_submissions := <[k := v]> (evidence_submissions s);
     arbitrator_assignments := arbitrator_assignments s;
     arbitrator_votes := arbitrator_votes s;
     dispute_outcomes := dispute_outcomes s;
     evidence_count := evidence_count s;
     dispute_history := dispute_history s;
     arbitrator_stats := arbitrator_stats s |}.

Definition set_arbitrator_assignment (k : N) (v : assignment) (s : state) : state :=
  {| dispute_nonce := dispute_nonce s;
     min_dispute_amount := min_dispute_amount s;
     max_evidence_per_dispute := max_evidence_per_dispute s;
     arbitration_fee_percentage := arbitration_fee_percentage s;
     appeal_window := appeal_window s;
     auto_resolve_threshold := auto_resolve_threshold s;
     total_disputes_resolved := total_disputes_resolved s;
     disputes := disputes s;
     evidence_submissions := evidence_submissions s;
     arbitrator_assignments := <[k := v]> (arbitrator_assignments s);
     arbitrator_votes := arbitrator_votes s;
     dispute_outcomes := dispute_outcomes s;
     evidence_count := evidence_count s;
     dispute_history := dispute_history s;
     arbitrator_stats := arbitrator_stats s |}.

Definition set_arbitrator_vote (k : N * principal) (v : vote) (s : state) : state :=
  {| dispute_nonce := dispute_nonce s;
     min_dispute_amount := min_dispute_amount s;
     max_evidence_per_dispute := max_evidence_per_dispute s;
     arbitration_fee_percentage := arbitration_fee_percentage s;
     appeal_window := appeal_window s;
     auto_resolve_threshold := auto_resolve_threshold s;
     total_disputes_resolved := total_disputes_resolved s;
     disputes := disputes s;
     evidence_submissions := evidence_submissions s;
     arbitrator_assignments := arbitrator_assignments s;
     arbitrator_votes := <[k := v]> (arbitrator_votes s);
     dispute_outcomes := dispute_outcomes s;
     evidence_count := evidence_count s;
     dispute_history := dispute_history s;
     arbitrator_stats := arbitrator_stats s |}.

Definition set_dispute_outcome (k : N) (v : resolution) (s : state) : state :=
  {| dispute_nonce := dispute_nonce s;
     min_dispute_amount := min_dispute_amount s;
     max_evidence_per_dispute := max_evidence_per_dispute s;
     arbitration_fee_percentage := arbitration_fee_percentage s;
     appeal_window := appeal_window s;
     auto_resolve_threshold := auto_resolve_threshold s;
     total_disputes_resolved := total_disputes_resolved s;
     disputes := disputes s;
     evidence_submissions := evidence_submissions s;
     arbitrator_assignments := arbitrator_assignments s;
     arbitrator_votes := arbitrator_votes s;
     dispute_outcomes := <[k := v]> (dispute_outcomes s);
     evidence_count := evidence_count s;
     dispute_history := dispute_history s;
     arbitrator_stats := arbitrator_stats s |}.

Definition set_evidence_count (k : N) (v : evidence_total) (s : state) : state :=
  {| dispute_nonce := dispute_nonce s;
     min_dispute_amount := min_dispute_amount s;
     max_evidence_per_dispute := max_evidence_per_dispute s;
     arbitration_fee_percentage := arbitration_fee_percentage s;
     appeal_window := appeal_window s;
     auto_resolve_threshold := auto_resolve_threshold s;
     total_disputes_resolved := total_disputes_resolved s;
     disputes := disputes s;
     evidence_submissions := evidence_submissions s;
     arbitrator_assignments := arbitrator_assignments s;
     arbitrator_votes := arbitrator_votes s;
     dispute_outcomes := dispute_outcomes s;
     evidence_count := <[k := v]> (evidence_count s);
     dispute_history := dispute_history s;
     arbitrator_stats := arbitrator_stats s |}.

Definition set_dispute_history (k : principal) (v : party_history) (s : state) : state :=
  {| dispute_nonce := dispute_nonce s;
     min_dispute_amount := min_dispute_amount s;
     max_evidence_per_dispute := max_evidence_per_dispute s;
     arbitration_fee_percentage := arbitration_fee_percentage s;
     appeal_window := appeal_window s;
     auto_resolve_threshold := auto_resolve_threshold s;
     total_disputes_resolved := total_disputes_resolved s;
     disputes := disputes s;
     evidence_submissions := evidence_submissions s;
     arbitrator_assignments := arbitrator_assignments s;
     arbitrator_votes := arbitrator_votes s;
     dispute_outcomes := dispute_outcomes s;
     evidence_count := evidence_count s;
     dispute_history := <[k := v]> (dispute_history s);
     arbitrator_stats := arbitrator_stats s |}.

Definition set_arbitrator_stats (k : principal) (v : arb_stats) (s : state) : state :=
  {| dispute_nonce := dispute_nonce s;
     min_dispute_amount := min_dispute_amount s;
     max_evidence_per_dispute := max_evidence_per_dispute s;
     arbitration_fee_percentage := arbitration_fee_percentage s;
     appeal_window := appeal_window s;
     auto_resolve_threshold := auto_resolve_threshold s;
     total_disputes_resolved := total_disputes_resolved s;
     disputes := disputes s;
     evidence_submissions := evidence_submissions s;
     arbitrator_assignments := arbitrator_assignments s;
     arbitrator_votes := arbitrator_votes s;
     dispute_outcomes := dispute_outcomes s;
     evidence_count := evidence_count s;
     dispute_history := dispute_history s;
     arbitrator_stats := <[k := v]> (arbitrator_stats s) |}.
(** [(merge dispute { status: st, updated-at: t })] *)
Definition merge_status (d : dispute) (st t : N) : dispute :=
  {| campaign_id := campaign_id d;
     advertiser := advertiser d;
     publisher := publisher d;
     dispute_type := dispute_type d;
     amount := amount d;
     status := st;
     description := description d;
     created_at := created_at d;
     updated_at := t;
     resolution_deadline := resolution_deadline d |}.

Section Contract.

(** [(define-constant contract-owner tx-sender)]: the deployer. *)
Variable contract_owner : principal.

(** *** Private functions *)

Definition is_valid_dispute_type (t : N) : bool :=
  (t =? TYPE_PAYMENT) || (t =? TYPE_FRAUD) || (t =? TYPE_QUALITY)
  || (t =? TYPE_CONTRACT_BREACH).

Definition is_valid_outcome (o : N) : bool :=
  (o =? OUTCOME_ADVERTISER_WINS) || (o =? OUTCOME_PUBLISHER_WINS)
  || (o =? OUTCOME_SPLIT) || (o =? OUTCOME_DISMISSED).

Definition calculate_arbitration_fee (amt : N) : tx state N :=
  pct ← var_get arbitration_fee_percentage;
  p ← mul amt pct;
  div p 100.

Definition update_party_reputation (party : principal) (won : bool) : tx state bool :=
  hist ← var_get (λ s, default {| total_disputes := 0; disputes_won := 0;
                                  disputes_lost := 0; reputation_score := 100 |}
                               (dispute_history s !! party));
  td ← add (total_disputes hist) 1;
  dw ← (if won then add (disputes_won hist) 1 else mret (disputes_won hist));
  dl ← (if won then mret (disputes_lost hist) else add (disputes_lost hist) 1);
  rs ← (if won then
          new_score ← add (reputation_score hist) 5;
          mret (if 100 <? new_score then 100 else new_score)
        else
          if 5 <? reputation_score hist
          then sub (reputation_score hist) 5
          else mret 0);
  store (set_dispute_history party
           {| total_disputes := td; disputes_won := dw;
              disputes_lost := dl; reputation_score := rs |}).

(** *** Read-only functions *)

Definition get_dispute (dispute_id : N) (s : state) : option dispute :=
  disputes s !! dispute_id.

Definition get_arbitrator_assignment (dispute_id : N) (s : state) : option assignment :=
  arbitrator_assignments s !! dispute_id.

Definition get_arbitrator_vote (dispute_id : N) (arb : principal) (s : state)
  : option vote :=
  arbitrator_votes s !! (dispute_id, arb).

Definition get_dispute_outcome (dispute_id : N) (s : state) : option resolution :=
  dispute_outcomes s !! dispute_id.

Definition get_evidence_count (dispute_id : N) (s : state) : evidence_total :=
  default {| total_evidence := 0 |} (evidence_count s !! dispute_id).

Definition get_party_history (party : principal) (s : state) : option party_history :=
  dispute_history s !! party.

Definition get_arbitrator_stats (arb : principal) (s : state) : option arb_stats :=
  arbitrator_stats s !! arb.

(** *** Public functions *)

Definition open_dispute (e : env) (campaign : N) (other_party : principal)
    (dtype amt : N) (descr : string) (is_advertiser : bool) : tx state N :=
  nonce ← var_get dispute_nonce;
  dispute_id ← add nonce 1;
  let adv := if is_advertiser then tx_sender e else other_party in
  let pub := if is_advertiser then other_party else tx_sender e in
  deadline ← add (stacks_block_time e) 1440;
  asserts (is_valid_dispute_type dtype) err_invalid_status;;
  min_amt ← var_get min_dispute_amount;
  asserts (min_amt <=? amt) err_insufficient_amount;;
  asserts (negb (bool_decide (tx_sender e = other_party))) err_invalid_party;;
  store (set_dispute dispute_id
           {| campaign_id := campaign;
              advertiser := adv;
              publisher := pub;
              dispute_type := dtype;
              amount := amt;
              status := STATUS_OPEN;
              description := descr;
              created_at := stacks_block_time e;
              updated_at := stacks_block_time e;
              resolution_deadline := deadline |});;
  store (set_evidence_count dispute_id {| total_evidence := 0 |});;
  store (set_dispute_nonce dispute_id);;
  mret dispute_id.

Definition submit_evidence (e : env) (dispute_id : N)
    (etype ehash descr : string) : tx state N :=
  o ← var_get (get_dispute dispute_id);
  d ← unwrap o err_not_found;
  cnt ← var_get (get_evidence_count dispute_id);
  evidence_id ← add (total_evidence cnt) 1;
  asserts (bool_decide (tx_sender e = advertiser d)
           || bool_decide (tx_sender e = publisher d)) err_unauthorized;;
  max_ev ← var_get max_evidence_per_dispute;
  asserts (total_evidence cnt <? max_ev) err_evidence_limit;;
  asserts ((status d =? STATUS_OPEN) || (status d =? STATUS_UNDER_REVIEW))
          err_invalid_status;;
  store (set_evidence_submission (dispute_id, evidence_id)
           {| submitter := tx_sender e;
              evidence_type := etype;
              evidence_hash := ehash;
              ev_description := descr;
              submitted_at := stacks_block_time e |});;
  store (set_evidence_count dispute_id {| total_evidence := evidence_id |});;
  mret evidence_id.

Definition assign_arbitrator (e : env) (dispute_id : N) (arb : principal)
  : tx state bool :=
  o ← var_get (get_dispute dispute_id);
  d ← unwrap o err_not_found;
  deadline ← add (stacks_block_time e) 720;
  asserts (bool_decide (tx_sender e = contract_owner)) err_owner_only;;
  asserts (status d =? STATUS_OPEN) err_invalid_status;;
  store (set_arbitrator_assignment dispute_id
           {| arbitrator := arb;
              assigned_at := stacks_block_time e;
              decision_deadline := deadline |});;
  store (set_dispute dispute_id
           (merge_status d STATUS_UNDER_REVIEW (stacks_block_time e)));;
  st ← var_get (λ s, default {| total_cases := 0; cases_resolved := 0;
                                reputation := 100; active := true |}
                             (arbitrator_stats s !! arb));
  tc ← add (total_cases st) 1;
  store (set_arbitrator_stats arb
           {| total_cases := tc;
              cases_resolved := cases_resolved st;
              reputation := reputation st;
              active := active st |});;
  mret true.

Definition vote_on_dispute (e : env) (dispute_id out : N) (reason : string)
  : tx state bool :=
  o ← var_get (get_dispute dispute_id);
  d ← unwrap o err_not_found;
  oa ← var_get (get_arbitrator_assignment dispute_id);
  a ← unwrap oa err_not_found;
  asserts (bool_decide (tx_sender e = arbitrator a)) err_unauthorized;;
  asserts (status d =? STATUS_UNDER_REVIEW) err_invalid_status;;
  asserts (is_valid_outcome out) err_invalid_status;;
  store (set_arbitrator_vote (dispute_id, tx_sender e)
           {| vote_outcome := out;
              vote_reasoning := reason;
              voted_at := stacks_block_time e |});;
  mret true.

Definition execute_ruling (e : env) (dispute_id : N) : tx state bool :=
  o ← var_get (get_dispute dispute_id);
  d ← unwrap o err_not_found;
  oa ← var_get (get_arbitrator_assignment dispute_id);
  a ← unwrap oa err_not_found;
  ov ← var_get (get_arbitrator_vote dispute_id (arbitrator a));
  v ← unwrap ov err_not_found;
  let out := vote_outcome v in
  let win := if out =? OUTCOME_ADVERTISER_WINS then advertiser d
             else if out =? OUTCOME_PUBLISHER_WINS then publisher d
             else contract_owner in
  transfer_amount ← (if out =? OUTCOME_SPLIT then div (amount d) 2
                     else mret (amount d));
  asserts (bool_decide (tx_sender e = contract_owner)) err_owner_only;;
  asserts (status d =? STATUS_UNDER_REVIEW) err_invalid_status;;
  store (set_dispute dispute_id
           (merge_status d STATUS_RESOLVED (stacks_block_time e)));;
  thr ← var_get auto_resolve_threshold;
  lim ← mul thr 5;
  store (set_dispute_outcome dispute_id
           {| outcome := out;
              winner := win;
              amount_transferred := transfer_amount;
              reasoning := vote_reasoning v;
              resolved_at := stacks_block_time e;
              can_appeal := lim <=? amount d |});;
  update_party_reputation (advertiser d) (out =? OUTCOME_ADVERTISER_WINS);;
  update_party_reputation (publisher d) (out =? OUTCOME_PUBLISHER_WINS);;
  oa' ← var_get (get_arbitrator_assignment dispute_id);
  a' ← unwrap oa' err_not_found;
  ost ← var_get (get_arbitrator_stats (arbitrator a'));
  st ← unwrap ost err_not_found;
  cr ← add (cases_resolved st) 1;
  store (set_arbitrator_stats (arbitrator a')
           {| total_cases := total_cases st;
              cases_resolved := cr;
              reputation := reputation st;
              active := active st |});;
  tdr ← var_get total_disputes_resolved;
  tdr' ← add tdr 1;
  store (set_total_disputes_resolved tdr');;
  mret true.

Definition appeal_decision (e : env) (dispute_id : N) (reason : string)
  : tx state bool :=
  o ← var_get (get_dispute dispute_id);
  d ← unwrap o err_not_found;
  oo ← var_get (get_dispute_outcome dispute_id);
  res ← unwrap oo err_not_found;
  asserts (bool_decide (tx_sender e = advertiser d)
           || bool_decide (tx_sender e = publisher d)) err_unauthorized;;
  asserts (can_appeal res) err_invalid_status;;
  elapsed ← sub (stacks_block_time e) (resolved_at res);
  win ← var_get appeal_window;
  asserts (elapsed <? win) err_appeal_expired;;
  store (set_dispute dispute_id
           (merge_status d STATUS_APPEALED (stacks_block_time e)));;
  mret true.

Definition auto_resolve_dispute (e : env) (dispute_id : N) : tx state bool :=
  o ← var_get (get_dispute dispute_id);
  d ← unwrap o err_not_found;
  thr ← var_get auto_resolve_threshold;
  asserts (amount d <=? thr) err_insufficient_amount;;
  asserts (status d =? STATUS_OPEN) err_invalid_status;;
  store (set_dispute dispute_id
           (merge_status d STATUS_RESOLVED (stacks_block_time e)));;
  half ← div (amount d) 2;
  store (set_dispute_outcome dispute_id
           {| outcome := OUTCOME_SPLIT;
              winner := contract_owner;
              amount_transferred := half;
              reasoning := "Auto-resolved: small claim split 50/50";
              resolved_at := stacks_block_time e;
              can_appeal := false |});;
  tdr ← var_get total_disputes_resolved;
  tdr' ← add tdr 1;
  store (set_total_disputes_resolved tdr');;
  mret true.

Definition close_dispute (e : env) (dispute_id : N) : tx state bool :=
  o ← var_get (get_dispute dispute_id);
  d ← unwrap o err_not_found;
  asserts (status d =? STATUS_RESOLVED) err_invalid_status;;
  store (set_dispute dispute_id
           (merge_status d STATUS_CLOSED (stacks_block_time e)));;
  mret true.

(** *** Admin functions *)

Definition register_arbitrator (e : env) (arb : principal) : tx state bool :=
  asserts (bool_decide (tx_sender e = contract_owner)) err_owner_only;;
  store (set_arbitrator_stats arb
           {| total_cases := 0; cases_resolved := 0;
              reputation := 100; active := true |});;
  mret true.

Definition deactivate_arbitrator (e : env) (arb : principal) : tx state bool :=
  ost ← var_get (get_arbitrator_stats arb);
  st ← unwrap ost err_not_found;
  asserts (bool_decide (tx_sender e = contract_owner)) err_owner_only;;
  store (set_arbitrator_stats arb
           {| total_cases := total_cases st;
              cases_resolved := cases_resolved st;
              reputation := reputation st;
              active := false |});;
  mret true.

Definition set_auto_resolve_threshold (e : env) (new_threshold : N) : tx state bool :=
  asserts (bool_decide (tx_sender e = contract_owner)) err_owner_only;;
  store (set_auto_resolve_threshold_var new_threshold);;
  mret true.

Definition set_appeal_window (e : env) (new_window : N) : tx state bool :=
  asserts (bool_decide (tx_sender e = contract_owner)) err_owner_only;;
  store (set_appeal_window_var new_window);;
  mret true.

(** *** Transactions *)

(** One call of a public function. *)
Inductive call : Type :=
| OpenDispute (campaign : N) (other_party : principal) (dtype amt : N)
              (descr : string) (is_advertiser : bool)
| SubmitEvidence (dispute_id : N) (etype ehash descr : string)
| AssignArbitrator (dispute_id : N) (arb : principal)
| VoteOnDispute (dispute_id out : N) (reason : string)
| ExecuteRuling (dispute_id : N)
| AppealDecision (dispute_id : N) (reason : string)
| AutoResolveDispute (dispute_id : N)
| CloseDispute (dispute_id : N)
| RegisterArbitrator (arb : principal)
| DeactivateArbitrator (arb : principal)
| SetAutoResolveThreshold (new_threshold : N)
| SetAppealWindow (new_window : N).

(** The store after a call issued in context [e]. *)
Definition step (s : state) (ec : env * call) : state :=
  let e := ec.1 in
  match ec.2 with
  | OpenDispute c p t a d f => commit (open_dispute e c p t a d f s) s
  | SubmitEvidence i t h d => commit (submit_evidence e i t h d s) s
  | AssignArbitrator i a => commit (assign_arbitrator e i a s) s
  | VoteOnDispute i o r => commit (vote_on_dispute e i o r s) s
  | ExecuteRuling i => commit (execute_ruling e i s) s
  | AppealDecision i r => commit (appeal_decision e i r s) s
  | AutoResolveDispute i => commit (auto_resolve_dispute e i s) s
  | CloseDispute i => commit (close_dispute e i s) s
  | RegisterArbitrator a => commit (register_arbitrator e a s) s
  | DeactivateArbitrator a => commit (deactivate_arbitrator e a s) s
  | SetAutoResolveThreshold n => commit (set_auto_resolve_threshold e n s) s
  | SetAppealWindow n => commit (set_appeal_window e n s) s
  end.

(** The store after a sequence of calls, starting from deployment. *)
Definition run (l : list (env * call)) : state := fold_left step l init.

End Contract.

(** *** Views used by the specification *)

(** The history record [update-party-reputation] starts from. *)
Definition party_record (party : principal) (s : state) : party_history :=
  default {| total_disputes := 0; disputes_won := 0;
             disputes_lost := 0; reputation_score := 100 |}
          (dispute_history s !! party).

Definition reputation_of (party : principal) (s : state) : N :=
  reputation_score (party_record party s).

(** The history record of a party after one more ruling. *)
Definition ruled_record (won : bool) (h : party_history) : party_history :=
  {| total_disputes := total_disputes h + 1;
     disputes_won := if won then disputes_won h + 1 else disputes_won h;
     disputes_lost := if won then disputes_lost h else disputes_lost h + 1;
     reputation_score :=
       if won then N.min 100 (reputation_score h + 5)
       else reputation_score h - 5 |}.

(** A history record with a bounded score and consistent counters. *)
Definition record_ok (h : party_history) : Prop :=
  reputation_score h ≤ 100
  ∧ disputes_won h ≤ total_disputes h
  ∧ disputes_lost h ≤ total_disputes h.

(** Facts every sequence of calls keeps. *)
Record wf (s : state) : Prop := {
  wf_parties :
    ∀ id d, disputes s !! id = Some d → advertiser d ≠ publisher d;
  wf_assigned :
    ∀ id a, arbitrator_assignments s !! id = Some a →
            is_Some (arbitrator_stats s !! arbitrator a);
  wf_history :
    ∀ p h, dispute_history s !! p = Some h → record_ok h;
  wf_resolved :
    ∀ a st, arbitrator_stats s !! a = Some st →
            cases_resolved st ≤ total_disputes_resolved s
}.

(** A call that did not commit. *)
Definition failed {A} (r : response A) : Prop :=
  match r with
  | Ok _ => False
  | _ => True
  end.

(** The ruling the specification promises on the store [s]: called by the
    owner on a dispute under review whose arbitrator has voted,
    [execute-ruling] commits and the dispute becomes Resolved. *)
Definition ruling_recorded (own : principal) (s : state) : Prop :=
  ∀ e i d a vt,
    tx_sender e = own →
    disputes s !! i = Some d →
    status d = STATUS_UNDER_REVIEW →
    arbitrator_assignments s !! i = Some a →
    arbitrator_votes s !! (i, arbitrator a) = Some vt →
    ∃ s', execute_ruling own e i s = Ok (true, s')
          ∧ (status <$> disputes s' !! i) = Some STATUS_RESOLVED.

(** *** Scenarios *)

Definition owner : principal := "SP3BXJENEWVNCFYGJF75DFS478H1BZJXNZPT84EAD".
Definition advertiser_d : principal := "SP2J6ZY48GV1EZ5V2V5RB9MP66SW86PYKKNRV9EJ7".
Definition publisher_p : principal := "SP1P72Z3704VMT3DMHPP2CB8TGQWGDBHD3RPR9GZS".
Definition arbitrator_a : principal := "SP3K8BC0PPEVCV7NZ6QSRWPQ2JE9E5B6N3PA0KBR9".

(** The advertiser opens a payment dispute of 2,000,000 against the
    publisher, the owner assigns an arbitrator, who votes for the
    publisher. *)
Definition voted_trace : list (env * call) :=
  [ (Env advertiser_d 100,
     OpenDispute 1 publisher_p TYPE_PAYMENT 2000000 "unpaid impressions" true);
    (Env owner 110, AssignArbitrator 1 arbitrator_a);
    (Env arbitrator_a 120, VoteOnDispute 1 OUTCOME_PUBLISHER_WINS "delivered") ].

(** The dispute of [voted_trace]. *)
Definition voted_dispute : dispute :=
  {| campaign_id := 1; advertiser := advertiser_d; publisher := publisher_p;
     dispute_type := TYPE_PAYMENT; amount := 2000000;
     status := STATUS_UNDER_REVIEW; description := "unpaid impressions";
     created_at := 100; updated_at := 110; resolution_deadline := 1540 |}.

(** The arbitrator of [voted_trace] and the vote cast. *)
Definition voted_assignment : assignment :=
  {| arbitrator := arbitrator_a; assigned_at := 110; decision_deadline := 830 |}.

Definition voted_vote : vote :=
  {| vote_outcome := OUTCOME_PUBLISHER_WINS; vote_reasoning := "delivered";
     voted_at := 120 |}.

(** The owner executes the ruling. *)
Definition resolved_trace : list (env * call) :=
  voted_trace ++ [ (Env owner 130, ExecuteRuling 1) ].

(** The dispute and its outcome after [resolved_trace]. *)
Definition resolved_dispute : dispute :=
  merge_status voted_dispute STATUS_RESOLVED 130.

Definition resolved_outcome : resolution :=
  {| outcome := OUTCOME_PUBLISHER_WINS; winner := publisher_p;
     amount_transferred := 2000000; reasoning := "delivered";
     resolved_at := 130; can_appeal := true |}.

(** The publisher then closes the dispute. *)
Definition closed_trace : list (env * call) :=
  resolved_trace ++ [ (Env publisher_p 140, CloseDispute 1) ].

(** After the vote of [voted_trace] the owner raises the threshold for
    automatic resolution to the largest [uint]. *)
Definition raised_threshold_trace : list (env * call) :=
  voted_trace ++ [ (Env owner 125, SetAutoResolveThreshold uint_max) ].

End Dispute.

(** ** Further views of the escrow ledger *)

Module EscrowViews.
Import Escrow.

(** [b] is a later version of the escrow [a]: what was fixed at creation is
    the same, the released amount and the expiry have not decreased, and an
    escrow that has left the Active status has not returned to it. *)
Definition escrow_extends (a b : escrow) : Prop :=
  campaign_id b = campaign_id a
  ∧ depositor b = depositor a
  ∧ beneficiary b = beneficiary a
  ∧ amount b = amount a
  ∧ created_at b = created_at a
  ∧ requires_milestones b = requires_milestones a
  ∧ released_amount a ≤ released_amount b
  ∧ expiry a ≤ expiry b
  ∧ (status a ≠ STATUS_ACTIVE → status b ≠ STATUS_ACTIVE).

(** Sum of the amounts of the escrows selected by [f]. *)
Definition amount_sum (f : escrow → bool) (m : gmap N escrow) : N :=
  map_fold (λ _ e acc, if f e then amount e + acc else acc) 0 m.

(** The escrows deposited by [user]. *)
Definition deposited_by (user : principal) (e : escrow) : bool :=
  bool_decide (depositor e = user).

(** The pending record [update-user-pending] starts from. *)
Definition pending_record (user : principal) (s : state) : pending :=
  default {| total_locked := 0; total_escrowed_out := 0 |} (pending_escrows s !! user).

(** The aggregates kept beside the escrow accounts agree with them. *)
Record aggregates (s : state) : Prop := {
  agg_ids : ∀ id, is_Some (escrow_accounts s !! id) ↔ 1 ≤ id ∧ id ≤ escrow_nonce s;
  agg_total : total_escrowed s = amount_sum (λ _, true) (escrow_accounts s);
  agg_locked :
    ∀ user, total_locked (pending_record user s)
            = amount_sum (deposited_by user) (escrow_accounts s);
  agg_fee : emergency_withdrawal_fee s ≤ 50
}.

(** [b] is a later version of the milestone [a]: its terms are the same
    and, once completed, the whole record is. *)
Definition milestone_extends (a b : milestone) : Prop :=
  ms_description b = ms_description a
  ∧ ms_amount b = ms_amount a
  ∧ ms_condition_hash b = ms_condition_hash a
  ∧ ms_deadline b = ms_deadline a
  ∧ (ms_status a = MILESTONE_COMPLETED → b = a).

(** [(merge milestone { status: MILESTONE-COMPLETED, completed-at: t })] *)
Definition completed_milestone (ms : milestone) (t : N) : milestone :=
  {| ms_description := ms_description ms;
     ms_amount := ms_amount ms;
     ms_status := MILESTONE_COMPLETED;
     ms_condition_hash := ms_condition_hash ms;
     ms_deadline := ms_deadline ms;
     ms_completed_at := t |}.

(** The milestones of an escrow are numbered 1 to the total of its
    [milestone-count] entry, and entries exist for created escrows only. *)
Record milestones_wf (s : state) : Prop := {
  mwf_ids :
    ∀ id mid, is_Some (escrow_milestones s !! (id, mid))
              ↔ 1 ≤ mid ∧ mid ≤ total (get_milestone_count id s);
  mwf_count :
    ∀ id, is_Some (milestone_count s !! id) → id ≤ escrow_nonce s
}.

(** The milestone of [milestone_trace] once completed. *)
Definition first_milestone : milestone :=
  {| ms_description := "first delivery"; ms_amount := 600000;
     ms_status := MILESTONE_COMPLETED; ms_condition_hash := None;
     ms_deadline := 500; ms_completed_at := 12 |}.

(** A milestone of 400,000 is completed and released once. *)
Definition paid_once_trace : list (env * call) :=
  [ (Env alice 10, CreateEscrow 1 bob 1000000 1000 true);
    (Env alice 11, AddMilestone 1 "first delivery" 400000 500 None);
    (Env bob 12, CompleteMilestone 1 1);
    (Env alice 13, ReleaseMilestoneFunds 1 1) ].

(** A call that leaves the totals alone. *)
Definition keeps_aggregates (s s' : state) : Prop :=
  total_escrowed s' = total_escrowed s
  ∧ pending_escrows s' = pending_escrows s.

(** Alice opens two escrows and releases 250,000 from the first. *)
Definition two_escrows_trace : list (env * call) :=
  [ (Env alice 10, CreateEscrow 1 bob 1000000 1000 false);
    (Env alice 20, CreateEscrow 2 bob 500000 2000 false);
    (Env alice 30, ReleaseFunds 1 250000 "first instalment") ].

(** The first escrow before and after the release of [two_escrows_trace]. *)
Definition first_escrow : escrow :=
  {| campaign_id := 1; depositor := alice; beneficiary := bob;
     amount := 1000000; released_amount := 0; status := STATUS_ACTIVE;
     created_at := 10; expiry := 1010; requires_milestones := false |}.

Definition first_escrow_released : escrow :=
  merge_released_status first_escrow 250000 STATUS_PARTIALLY_RELEASED.

End EscrowViews.

(** ** Further views of the dispute registry *)

Module DisputeViews.
Import Dispute.

(** [b] is a later version of the dispute [a]: the parties and terms are
    the same, and a dispute that has been resolved stays resolved,
    appealed or closed. *)
Definition dispute_extends (a b : dispute) : Prop :=
  campaign_id b = campaign_id a
  ∧ advertiser b = advertiser a
  ∧ publisher b = publisher a
  ∧ dispute_type b = dispute_type a
  ∧ amount b = amount a
  ∧ description b = description a
  ∧ created_at b = created_at a
  ∧ resolution_deadline b = resolution_deadline a
  ∧ (STATUS_RESOLVED ≤ status a → STATUS_RESOLVED ≤ status b).

(** How the maps of the registry follow the status of each dispute. *)
Record lifecycle (s : state) : Prop := {
  lc_ids : ∀ id, is_Some (disputes s !! id) ↔ 1 ≤ id ∧ id ≤ dispute_nonce s;
  lc_status :
    ∀ id d, disputes s !! id = Some d → STATUS_OPEN ≤ status d ∧ status d ≤ STATUS_CLOSED;
  lc_outcome :
    ∀ id d, disputes s !! id = Some d →
            (is_Some (dispute_outcomes s !! id) ↔ STATUS_RESOLVED ≤ status d);
  lc_outcome_dom :
    ∀ id, is_Some (dispute_outcomes s !! id) → is_Some (disputes s !! id);
  lc_assigned :
    ∀ id d, disputes s !! id = Some d → status d = STATUS_UNDER_REVIEW →
            is_Some (arbitrator_assignments s !! id)
}.

(** Evidence of a dispute is numbered 1 to its [evidence-count], which
    stays within the cap. *)
Record evidence_wf (s : state) : Prop := {
  ev_cap : max_evidence_per_dispute s = 10;
  ev_ids :
    ∀ id k, is_Some (evidence_submissions s !! (id, k))
            ↔ 1 ≤ k ∧ k ≤ total_evidence (get_evidence_count id s);
  ev_bound : ∀ id, total_evidence (get_evidence_count id s) ≤ 10;
  ev_dom : ∀ id, is_Some (evidence_count s !! id) → id ≤ dispute_nonce s
}.

(** [(define-read-only (can-appeal (dispute-id uint)) ...)]: [and] stops at
    the first false operand, so the subtraction is evaluated for appealable
    outcomes only. *)
Definition can_appeal_read (e : env) (dispute_id : N) : tx state bool :=
  oo ← var_get (get_dispute_outcome dispute_id);
  match oo with
  | Some res =>
      if can_appeal res then
        elapsed ← sub (stacks_block_time e) (resolved_at res);
        win ← var_get appeal_window;
        mret (elapsed <? win)
      else mret false
  | None => mret false
  end.

(** The statistics [assign-arbitrator] starts from. *)
Definition stats_record (arb : principal) (s : state) : arb_stats :=
  default {| total_cases := 0; cases_resolved := 0; reputation := 100; active := true |}
          (arbitrator_stats s !! arb).

(** A dispute of 1,000,000 is opened by the publisher and the threshold for
    automatic resolution raised to that amount. *)
Definition small_claim_trace : list (env * call) :=
  [ (Env publisher_p 100,
     OpenDispute 7 advertiser_d TYPE_QUALITY 1000000 "late creative" false);
    (Env owner 105, SetAutoResolveThreshold 1000000) ].

(** The owner registers and deactivates an arbitrator before a dispute is
    opened. *)
Definition deactivated_trace : list (env * call) :=
  [ (Env owner 90, RegisterArbitrator arbitrator_a);
    (Env owner 95, DeactivateArbitrator arbitrator_a);
    (Env publisher_p 100,
     OpenDispute 7 advertiser_d TYPE_QUALITY 1000000 "late creative" false) ].

Definition small_claim : dispute :=
  {| campaign_id := 7; advertiser := advertiser_d; publisher := publisher_p;
     dispute_type := TYPE_QUALITY; amount := 1000000; status := STATUS_OPEN;
     description := "late creative"; created_at := 100; updated_at := 100;
     resolution_deadline := 1540 |}.

End DisputeViews.

(** * Inversion of transaction bodies *)

Module TxTheory.

Lemma bind_Ok {S A B} (m : tx S A) (k : A → tx S B) s b s' :
  (m ≫= k) s = Ok (b, s') → ∃ a s1, m s = Ok (a, s1) ∧ k a s1 = Ok (b, s').
Proof.
  unfold mbind, tx_mbind, tx_bind.
  destruct (m s) as [[a s1]| |]; [eauto | done | done].
Qed.

Lemma mret_Ok {S A} (a b : A) (s s' : S) :
  (mret a : tx S A) s = Ok (b, s') → b = a ∧ s' = s.
Proof. unfold mret, tx_mret, tx_ret. by intros [= -> ->]. Qed.

Lemma var_get_Ok {S A} (f : S → A) s a s' :
  var_get f s = Ok (a, s') → a = f s ∧ s' = s.
Proof. unfold var_get. by intros [= -> ->]. Qed.

Lemma store_Ok {S} (f : S → S) s v s' :
  store f s = Ok (v, s') → s' = f s.
Proof. unfold store. by intros [= _ ->]. Qed.

Lemma asserts_Ok {S} (b : bool) c (s : S) v s' :
  asserts b c s = Ok (v, s') → b = true ∧ s' = s.
Proof. unfold asserts. destruct b; [|done]. intros [_ ->]%mret_Ok. done. Qed.

Lemma unwrap_Ok {S A} (o : option A) c (s : S) a s' :
  unwrap o c s = Ok (a, s') → o = Some a ∧ s' = s.
Proof. unfold unwrap. destruct o; [|done]. intros [-> ->]%mret_Ok. done. Qed.

Lemma add_Ok {S} a b (s : S) n s' :
  add a b s = Ok (n, s') → n = a + b ∧ a + b ≤ uint_max ∧ s' = s.
Proof.
  unfold add. destruct (N.leb_spec (a + b) uint_max); [|done].
  intros [-> ->]%mret_Ok. done.
Qed.

Lemma sub_Ok {S} a b (s : S) n s' :
  sub a b s = Ok (n, s') → n = a - b ∧ b ≤ a ∧ s' = s.
Proof.
  unfold sub. destruct (N.leb_spec b a); [|done].
  intros [-> ->]%mret_Ok. done.
Qed.

Lemma mul_Ok {S} a b (s : S) n s' :
  mul a b s = Ok (n, s') → n = a * b ∧ a * b ≤ uint_max ∧ s' = s.
Proof.
  unfold mul. destruct (N.leb_spec (a * b) uint_max); [|done].
  intros [-> ->]%mret_Ok. done.
Qed.

Lemma div_Ok {S} a b (s : S) n s' :
  div a b s = Ok (n, s') → n = a / b ∧ b ≠ 0 ∧ s' = s.
Proof.
  unfold div. destruct (N.eqb_spec b 0); [done|].
  intros [-> ->]%mret_Ok. done.
Qed.

(** Invert one primitive. *)
Ltac tx_prim H :=
  lazymatch type of H with
  | var_get _ _ = Ok _ => apply var_get_Ok in H as [-> ->]
  | store _ _ = Ok _ => apply store_Ok in H as ->
  | asserts _ _ _ = Ok _ => apply asserts_Ok in H as [H ->]
  | unwrap _ _ _ = Ok _ => apply unwrap_Ok in H as [H ->]
  | add _ _ _ = Ok _ => apply add_Ok in H as (-> & H & ->)
  | sub _ _ _ = Ok _ => apply sub_Ok in H as (-> & H & ->)
  | mul _ _ _ = Ok _ => apply mul_Ok in H as (-> & H & ->)
  | div _ _ _ = Ok _ => apply div_Ok in H as (-> & H & ->)
  | mret _ _ = Ok _ => apply mret_Ok in H as [-> ->]
  end.

(** Walk down a successful sequence of binds. *)
Ltac tx_steps H :=
  repeat (cbv beta zeta in H;
          let a := fresh "a" in
          let s1 := fresh "s" in
          let H1 := fresh "H" in
          apply bind_Ok in H as (a & s1 & H1 & H);
          try tx_prim H1);
  cbv beta zeta in H; try tx_prim H.

(** Unfold a transaction body and split on every test. *)
Ltac tx_unfold :=
  unfold mbind, tx_mbind, tx_bind, var_get, store,
    asserts, unwrap, add, sub, mul, div, throw, abort,
    mret, tx_mret, tx_ret in *.

Ltac bool_hyps :=
  repeat match goal with
    | H : (_ <=? _) = true |- _ => apply N.leb_le in H
    | H : (_ <=? _) = false |- _ => apply N.leb_gt in H
    | H : (_ <? _) = true |- _ => apply N.ltb_lt in H
    | H : (_ <? _) = false |- _ => apply N.ltb_ge in H
    | H : (_ =? _) = true |- _ => apply N.eqb_eq in H
    | H : (_ =? _) = false |- _ => apply N.eqb_neq in H
    | H : bool_decide _ = true |- _ => apply bool_decide_eq_true_1 in H
    | H : bool_decide _ = false |- _ => apply bool_decide_eq_false_1 in H
    | H : negb _ = true |- _ => apply negb_true_iff in H
    | H : negb _ = false |- _ => apply negb_false_iff in H
    | H : (_ || _) = true |- _ => apply orb_true_iff in H
    | H : (_ || _) = false |- _ => apply orb_false_iff in H; destruct H
    end.

Ltac tx_inv :=
  tx_unfold; repeat (case_match; simplify_eq/=; try done); bool_hyps.

End TxTheory.

Import TxTheory.

(** * Properties of the escrow ledger *)

Module EscrowTheory.
Import Escrow.

(** ** Successful transactions *)

Section Inversion.
Variable contract_owner : principal.

Lemma create_escrow_Ok e c b a d r s v s' :
  create_escrow e c b a d r s = Ok (v, s') →
  min_escrow_amount s ≤ a ∧ d ≤ max_escrow_duration s ∧ tx_sender e ≠ b ∧
  v = escrow_nonce s + 1 ∧
  escrow_nonce s' = escrow_nonce s + 1 ∧
  milestone_nonce s' = milestone_nonce s ∧
  escrow_releases s' = escrow_releases s ∧
  escrow_accounts s' =
    <[escrow_nonce s + 1 :=
        {| campaign_id := c; depositor := tx_sender e; beneficiary := b;
           amount := a; released_amount := 0; status := STATUS_ACTIVE;
           created_at := stacks_block_time e;
           expiry := stacks_block_time e + d;
           requires_milestones := r |}]> (escrow_accounts s).
Proof.
  unfold create_escrow, update_user_pending. intros H.
  tx_inv; repeat split; auto.
Qed.

Lemma add_milestone_Ok e i d a dl h s v s' :
  add_milestone e i d a dl h s = Ok (v, s') →
  escrow_nonce s' = escrow_nonce s ∧
  milestone_nonce s' = milestone_nonce s ∧
  escrow_releases s' = escrow_releases s ∧
  escrow_accounts s' = escrow_accounts s.
Proof.
  unfold add_milestone, get_escrow, get_milestone_count. intros H.
  tx_inv; repeat split; auto.
Qed.

Lemma complete_milestone_Ok e i m s v s' :
  complete_milestone e i m s = Ok (v, s') →
  escrow_nonce s' = escrow_nonce s ∧
  milestone_nonce s' = milestone_nonce s ∧
  escrow_releases s' = escrow_releases s ∧
  escrow_accounts s' = escrow_accounts s.
Proof.
  unfold complete_milestone, get_escrow, get_milestone, get_milestone_count.
  intros H. tx_inv; repeat split; auto.
Qed.

Lemma release_funds_Ok e id amt reason s v s' :
  release_funds e id amt reason s = Ok (v, s') →
  ∃ esc,
    escrow_accounts s !! id = Some esc ∧
    tx_sender e = depositor esc ∧
    status esc = STATUS_ACTIVE ∧
    released_amount esc + amt ≤ amount esc ∧
    escrow_nonce s' = escrow_nonce s ∧
    milestone_nonce s' = milestone_nonce s + 1 ∧
    escrow_releases s' =
      <[(id, milestone_nonce s + 1) :=
          {| rel_amount := amt; rel_recipient := beneficiary esc;
             rel_reason := reason; rel_released_at := stacks_block_time e |}]>
        (escrow_releases s) ∧
    escrow_accounts s' =
      <[id := merge_released_status esc (released_amount esc + amt)
                (if released_amount esc + amt =? amount esc
                 then STATUS_RELEASED else STATUS_PARTIALLY_RELEASED)]>
        (escrow_accounts s).
Proof.
  unfold release_funds, get_escrow. intros H.
  tx_inv; eexists; repeat split; eauto; try lia;
    case_match; bool_hyps; (done || lia).
Qed.

Lemma release_milestone_funds_Ok e id mid s v s' :
  release_milestone_funds e id mid s = Ok (v, s') →
  ∃ esc ms,
    escrow_accounts s !! id = Some esc ∧
    escrow_milestones s !! (id, mid) = Some ms ∧
    tx_sender e = depositor esc ∧
    ms_status ms = MILESTONE_COMPLETED ∧
    released_amount esc + ms_amount ms ≤ amount esc ∧
    escrow_nonce s' = escrow_nonce s ∧
    milestone_nonce s' = milestone_nonce s + 1 ∧
    escrow_releases s' =
      <[(id, milestone_nonce s + 1) :=
          {| rel_amount := ms_amount ms; rel_recipient := beneficiary esc;
             rel_reason := ms_description ms;
             rel_released_at := stacks_block_time e |}]>
        (escrow_releases s) ∧
    escrow_accounts s' =
      <[id := merge_released_status esc (released_amount esc + ms_amount ms)
                (if released_amount esc + ms_amount ms =? amount esc
                 then STATUS_RELEASED else STATUS_PARTIALLY_RELEASED)]>
        (escrow_accounts s).
Proof.
  unfold release_milestone_funds, get_escrow, get_milestone. intros H.
  tx_inv; do 2 eexists; repeat split; eauto; try lia;
    case_match; bool_hyps; (done || lia).
Qed.

Lemma refund_escrow_Ok e id s v s' :
  refund_escrow e id s = Ok (v, s') →
  ∃ esc,
    escrow_accounts s !! id = Some esc ∧
    tx_sender e = depositor esc ∧
    expiry esc ≤ stacks_block_time e ∧
    (status esc = STATUS_ACTIVE ∨ status esc = STATUS_PARTIALLY_RELEASED) ∧
    released_amount esc ≤ amount esc ∧
    v = amount esc - released_amount esc ∧
    escrow_nonce s' = escrow_nonce s ∧
    milestone_nonce s' = milestone_nonce s ∧
    escrow_releases s' = escrow_releases s ∧
    escrow_accounts s' =
      <[id := merge_status esc STATUS_REFUNDED]> (escrow_accounts s).
Proof.
  unfold refund_escrow, get_escrow. intros H.
  tx_inv; eexists; repeat split; eauto.
  all: match goal with Hs : _ ∨ _ |- _ => destruct Hs end; bool_hyps; auto.
Qed.

Lemma emergency_withdrawal_Ok e id s v s' :
  emergency_withdrawal e id s = Ok (v, s') →
  ∃ esc,
    escrow_accounts s !! id = Some esc ∧
    tx_sender e = depositor esc ∧
    status esc = STATUS_ACTIVE ∧
    escrow_nonce s' = escrow_nonce s ∧
    milestone_nonce s' = milestone_nonce s ∧
    escrow_releases s' = escrow_releases s ∧
    escrow_accounts s' =
      <[id := merge_released_status esc (amount esc) STATUS_REFUNDED]>
        (escrow_accounts s).
Proof.
  unfold emergency_withdrawal, calculate_emergency_fee, get_escrow. intros H.
  tx_inv; eexists; repeat split; eauto.
Qed.

Lemma extend_escrow_period_Ok e id t s v s' :
  extend_escrow_period e id t s = Ok (v, s') →
  ∃ esc,
    escrow_accounts s !! id = Some esc ∧
    tx_sender e = depositor esc ∧
    status esc = STATUS_ACTIVE ∧
    escrow_nonce s' = escrow_nonce s ∧
    milestone_nonce s' = milestone_nonce s ∧
    escrow_releases s' = escrow_releases s ∧
    escrow_accounts s' =
      <[id := merge_expiry esc (expiry esc + t)]> (escrow_accounts s).
Proof.
  unfold extend_escrow_period, get_escrow. intros H.
  tx_inv; eexists; repeat split; eauto.
Qed.

Lemma set_min_escrow_amount_Ok e n s v s' :
  set_min_escrow_amount contract_owner e n s = Ok (v, s') →
  escrow_nonce s' = escrow_nonce s ∧
  milestone_nonce s' = milestone_nonce s ∧
  escrow_releases s' = escrow_releases s ∧
  escrow_accounts s' = escrow_accounts s.
Proof. unfold set_min_escrow_amount. intros H. tx_inv; repeat split; auto. Qed.

Lemma set_emergency_fee_Ok e n s v s' :
  set_emergency_fee contract_owner e n s = Ok (v, s') →
  escrow_nonce s' = escrow_nonce s ∧
  milestone_nonce s' = milestone_nonce s ∧
  escrow_releases s' = escrow_releases s ∧
  escrow_accounts s' = escrow_accounts s.
Proof. unfold set_emergency_fee. intros H. tx_inv; repeat split; auto. Qed.

End Inversion.

(** ** Status and bound invariant *)

Lemma wf_frame s s' :
  wf s → escrow_accounts s' = escrow_accounts s → wf s'.
Proof. unfold wf. by intros ? ->. Qed.

Lemma wf_insert s s' id esc :
  wf s → escrow_accounts s' = <[id := esc]> (escrow_accounts s) →
  escrow_ok esc → wf s'.
Proof. unfold wf. intros ? -> ?. by apply map_Forall_insert_2. Qed.

Lemma escrow_ok_released esc new :
  released_amount esc + new ≤ amount esc →
  escrow_ok (merge_released_status esc (released_amount esc + new)
               (if released_amount esc + new =? amount esc
                then STATUS_RELEASED else STATUS_PARTIALLY_RELEASED)).
Proof.
  intros Hle. unfold escrow_ok; simpl.
  destruct (N.eqb_spec (released_amount esc + new) (amount esc)).
  - right; right; left. done.
  - right; left. split; [done | lia].
Qed.

Lemma wf_init : wf init.
Proof. apply map_Forall_empty. Qed.

Lemma step_wf owner s ec : wf s → wf (step owner s ec).
Proof.
  intros Hwf. destruct ec as [e c]. destruct c; unfold step, commit; cbn [fst snd].
  - destruct (create_escrow _ _ _ _ _ _ _) as [[v s']| |] eqn:H; auto.
    apply create_escrow_Ok in H as (_ & _ & _ & _ & _ & _ & _ & Hacc).
    eapply wf_insert; eauto. left. done.
  - destruct (add_milestone _ _ _ _ _ _ _) as [[v s']| |] eqn:H; auto.
    apply add_milestone_Ok in H as (_ & _ & _ & Hacc). eapply wf_frame; eauto.
  - destruct (complete_milestone _ _ _ _) as [[v s']| |] eqn:H; auto.
    apply complete_milestone_Ok in H as (_ & _ & _ & Hacc). eapply wf_frame; eauto.
  - destruct (release_funds _ _ _ _ _) as [[v s']| |] eqn:H; auto.
    apply release_funds_Ok in H as (esc & _ & _ & _ & Hle & _ & _ & _ & Hacc).
    eapply wf_insert; eauto using escrow_ok_released.
  - destruct (release_milestone_funds _ _ _ _) as [[v s']| |] eqn:H; auto.
    apply release_milestone_funds_Ok in H
      as (esc & ms & _ & _ & _ & _ & Hle & _ & _ & _ & Hacc).
    eapply wf_insert; eauto using escrow_ok_released.
  - destruct (refund_escrow _ _ _) as [[v s']| |] eqn:H; auto.
    apply refund_escrow_Ok in H as (esc & _ & _ & _ & _ & Hle & _ & _ & _ & _ & Hacc).
    eapply wf_insert; eauto. right; right; right. done.
  - destruct (emergency_withdrawal _ _ _) as [[v s']| |] eqn:H; auto.
    apply emergency_withdrawal_Ok in H as (esc & _ & _ & _ & _ & _ & _ & Hacc).
    eapply wf_insert; eauto. right; right; right. split; simpl; [done | lia].
  - destruct (extend_escrow_period _ _ _ _) as [[v s']| |] eqn:H; auto.
    apply extend_escrow_period_Ok in H as (esc & Hl & _ & _ & _ & _ & _ & Hacc).
    eapply wf_insert; eauto. exact (Hwf _ _ Hl).
  - destruct (set_min_escrow_amount _ _ _ _) as [[v s']| |] eqn:H; auto.
    apply set_min_escrow_amount_Ok in H as (_ & _ & _ & Hacc). eapply wf_frame; eauto.
  - destruct (set_emergency_fee _ _ _ _) as [[v s']| |] eqn:H; auto.
    apply set_emergency_fee_Ok in H as (_ & _ & _ & Hacc). eapply wf_frame; eauto.
Qed.

Lemma run_snoc owner l ec : run owner (l ++ [ec]) = step owner (run owner l) ec.
Proof. unfold run. by rewrite fold_left_app. Qed.

Lemma run_wf owner l : wf (run owner l).
Proof.
  induction l as [|ec l IH] using rev_ind.
  - apply wf_init.
  - rewrite run_snoc. by apply step_wf.
Qed.

(** ** Release ledger invariant *)

Lemma released_total_empty id : released_total id ∅ = 0.
Proof. unfold released_total. by rewrite map_fold_empty. Qed.

Lemma released_total_insert (id : N) (k : N * N) (r : release)
    (m : gmap (N * N) release) :
  m !! k = None →
  released_total id (<[k := r]> m) =
    (if bool_decide (k.1 = id) then rel_amount r else 0) + released_total id m.
Proof.
  intros Hk. unfold released_total.
  rewrite map_fold_insert_L; [|intros; repeat case_bool_decide; lia|done].
  case_bool_decide; lia.
Qed.

Lemma ledger_init P : ledger P init.
Proof.
  split; simpl; intros; done.
Qed.

Lemma ledger_frame P s s' :
  ledger P s →
  escrow_nonce s' = escrow_nonce s → milestone_nonce s' = milestone_nonce s →
  escrow_releases s' = escrow_releases s → escrow_accounts s' = escrow_accounts s →
  ledger P s'.
Proof.
  intros [H1 H2 H3 H4] E1 E2 E3 E4.
  split; rewrite ?E1, ?E2, ?E3, ?E4; auto.
Qed.

(** A write to an escrow that keeps its released amount (or, when [P]
    covers it, raises it) and leaves the audit trail alone. *)
Lemma ledger_update P s s' id esc esc' :
  ledger P s →
  escrow_accounts s !! id = Some esc →
  released_amount esc ≤ released_amount esc' →
  (¬ P id → released_amount esc' = released_amount esc) →
  escrow_nonce s' = escrow_nonce s → milestone_nonce s' = milestone_nonce s →
  escrow_releases s' = escrow_releases s →
  escrow_accounts s' = <[id := esc']> (escrow_accounts s) →
  ledger P s'.
Proof.
  intros [H1 H2 H3 H4] Hl Hle Heq E1 E2 E3 E4.
  split; rewrite ?E1, ?E2, ?E3, ?E4.
  - intros j Hj. destruct (decide (id = j)) as [->|Hne].
    + specialize (H1 _ Hj). congruence.
    + rewrite lookup_insert_ne by done. auto.
  - auto.
  - intros j. destruct (decide (id = j)) as [->|Hne].
    + rewrite lookup_insert_eq. done.
    + rewrite lookup_insert_ne by done. auto.
  - intros j escj. destruct (decide (id = j)) as [->|Hne].
    + rewrite lookup_insert_eq. intros [= <-].
      destruct (H4 _ _ Hl) as [Ha Hb]. split; [lia|].
      intros HP. rewrite (Hb HP), (Heq HP). done.
    + rewrite lookup_insert_ne by done. auto.
Qed.

(** A release: one fresh audit record and the same amount added to the
    escrow. *)
Lemma ledger_release P s s' id esc esc' r :
  ledger P s →
  escrow_accounts s !! id = Some esc →
  released_amount esc' = released_amount esc + rel_amount r →
  escrow_nonce s' = escrow_nonce s → milestone_nonce s' = milestone_nonce s + 1 →
  escrow_releases s' = <[(id, milestone_nonce s + 1) := r]> (escrow_releases s) →
  escrow_accounts s' = <[id := esc']> (escrow_accounts s) →
  ledger P s'.
Proof.
  intros [H1 H2 H3 H4] Hl Hrel E1 E2 E3 E4.
  assert (Hfresh : escrow_releases s !! (id, milestone_nonce s + 1) = None)
    by (apply H2; lia).
  split; rewrite ?E1, ?E2, ?E3, ?E4.
  - intros j Hj. destruct (decide (id = j)) as [->|Hne].
    + specialize (H1 _ Hj). congruence.
    + rewrite lookup_insert_ne by done. auto.
  - intros j rid Hrid. rewrite lookup_insert_ne.
    + apply H2. lia.
    + intros [= ? ?]. lia.
  - intros j. destruct (decide (id = j)) as [->|Hne].
    + rewrite lookup_insert_eq. done.
    + rewrite lookup_insert_ne by done. intros Hj.
      rewrite released_total_insert by done. simpl.
      rewrite bool_decide_eq_false_2 by done. rewrite (H3 _ Hj). done.
  - intros j escj. rewrite released_total_insert by done. simpl.
    destruct (decide (id = j)) as [->|Hne].
    + rewrite lookup_insert_eq. intros [= <-].
      rewrite bool_decide_eq_true_2 by done.
      destruct (H4 _ _ Hl) as [Ha Hb]. split; [lia|].
      intros HP. rewrite (Hb HP). lia.
    + rewrite lookup_insert_ne by done.
      rewrite bool_decide_eq_false_2 by done. apply H4.
Qed.

Lemma step_ledger owner P s ec :
  wf s → ledger P s →
  (∀ id, ec.2 = EmergencyWithdrawal id → P id) →
  ledger P (step owner s ec).
Proof.
  intros Hwf Hled HP. destruct ec as [e c]. destruct c; unfold step, commit; cbn [fst snd].
  - destruct (create_escrow _ _ _ _ _ _ _) as [[v s']| |] eqn:H; auto.
    apply create_escrow_Ok in H as (_ & _ & _ & _ & E1 & E2 & E3 & E4).
    destruct Hled as [H1 H2 H3 H4].
    assert (Hnone : escrow_accounts s !! (escrow_nonce s + 1) = None)
      by (apply H1; lia).
    split; rewrite ?E1, ?E2, ?E3, ?E4.
    + intros j Hj. rewrite lookup_insert_ne by lia. apply H1. lia.
    + auto.
    + intros j Hj. apply lookup_insert_None in Hj as [Hj _]. auto.
    + intros j escj. destruct (decide (escrow_nonce s + 1 = j)) as [<-|Hne].
      * rewrite lookup_insert_eq. intros [= <-]. simpl.
        rewrite (H3 _ Hnone). split; [lia | done].
      * rewrite lookup_insert_ne by done. apply H4.
  - destruct (add_milestone _ _ _ _ _ _ _) as [[v s']| |] eqn:H; auto.
    apply add_milestone_Ok in H as (? & ? & ? & ?). eapply ledger_frame; eauto.
  - destruct (complete_milestone _ _ _ _) as [[v s']| |] eqn:H; auto.
    apply complete_milestone_Ok in H as (? & ? & ? & ?). eapply ledger_frame; eauto.
  - destruct (release_funds _ _ _ _ _) as [[v s']| |] eqn:H; auto.
    apply release_funds_Ok in H as (esc & Hl & _ & _ & _ & E1 & E2 & E3 & E4).
    eapply ledger_release;
      [exact Hled|exact Hl| |exact E1|exact E2|exact E3|exact E4]; reflexivity.
  - destruct (release_milestone_funds _ _ _ _) as [[v s']| |] eqn:H; auto.
    apply release_milestone_funds_Ok in H
      as (esc & ms & Hl & _ & _ & _ & _ & E1 & E2 & E3 & E4).
    eapply ledger_release;
      [exact Hled|exact Hl| |exact E1|exact E2|exact E3|exact E4]; reflexivity.
  - destruct (refund_escrow _ _ _) as [[v s']| |] eqn:H; auto.
    apply refund_escrow_Ok in H as (esc & Hl & _ & _ & _ & _ & _ & E1 & E2 & E3 & E4).
    eapply ledger_update;
      [exact Hled|exact Hl| | |exact E1|exact E2|exact E3|exact E4];
      unfold merge_status; simpl; intros; (lia || done).
  - destruct (emergency_withdrawal _ _ _) as [[v s']| |] eqn:H; auto.
    apply emergency_withdrawal_Ok in H as (esc & Hl & _ & _ & E1 & E2 & E3 & E4).
    eapply ledger_update;
      [exact Hled|exact Hl| | |exact E1|exact E2|exact E3|exact E4]; simpl.
    + destruct (Hwf _ _ Hl) as [[_ ?]|[[_ ?]|[[_ ?]|[_ ?]]]]; lia.
    + intros HnP. destruct HnP. by apply HP.
  - destruct (extend_escrow_period _ _ _ _) as [[v s']| |] eqn:H; auto.
    apply extend_escrow_period_Ok in H as (esc & Hl & _ & _ & E1 & E2 & E3 & E4).
    eapply ledger_update;
      [exact Hled|exact Hl| | |exact E1|exact E2|exact E3|exact E4];
      unfold merge_status; simpl; intros; (lia || done).
  - destruct (set_min_escrow_amount _ _ _ _) as [[v s']| |] eqn:H; auto.
    apply set_min_escrow_amount_Ok in H as (? & ? & ? & ?). eapply ledger_frame; eauto.
  - destruct (set_emergency_fee _ _ _ _) as [[v s']| |] eqn:H; auto.
    apply set_emergency_fee_Ok in H as (? & ? & ? & ?). eapply ledger_frame; eauto.
Qed.

Lemma run_ledger owner P l :
  Forall (λ ec, ∀ id, ec.2 = EmergencyWithdrawal id → P id) l →
  ledger P (run owner l).
Proof.
  induction l as [|ec l IH] using rev_ind; intros HP.
  - apply ledger_init.
  - apply Forall_app in HP as [Hl Hec]. rewrite run_snoc.
    apply step_ledger; [apply run_wf | by apply IH | by inversion Hec].
Qed.

(** ** Committed emergency withdrawals *)

Lemma withdrawn_run own l : (fold_left (withdrawn_step own) l (init, [])).1 = run own l.
Proof.
  induction l as [|ec l IH] using rev_ind; [done|].
  rewrite fold_left_app, run_snoc. simpl. by rewrite IH.
Qed.

Lemma withdrawn_ids_snoc own l ec id :
  id ∈ withdrawn_ids own (l ++ [ec]) ↔
  id ∈ withdrawn_ids own l
  ∨ (ec.2 = EmergencyWithdrawal id
     ∧ committed (emergency_withdrawal ec.1 id (run own l)) = true).
Proof.
  unfold withdrawn_ids. rewrite fold_left_app. simpl. rewrite withdrawn_run.
  destruct ec as [e c]. simpl.
  destruct c; try (split; [by left | by intros [?|[? _]]]).
  destruct (committed (emergency_withdrawal e escrow_id (run own l))) eqn:Hc.
  - rewrite elem_of_cons. split.
    + intros [->|?]; [right | left]; done.
    + intros [?|[[= ->] _]]; [right | left]; done.
  - split; [by left|]. intros [?|[[= ->] ?]]; [done | congruence].
Qed.

Lemma step_ledger_committed own P s ec :
  wf s → ledger P s →
  (∀ id, ec.2 = EmergencyWithdrawal id →
         committed (emergency_withdrawal ec.1 id s) = true → P id) →
  ledger P (step own s ec).
Proof.
  intros Hwf Hled HP. destruct ec as [e c].
  destruct c; try (apply step_ledger; [done | done | by intros ? [=]]).
  destruct (emergency_withdrawal e escrow_id s) as [[v s']| |] eqn:H.
  - apply step_ledger; [done | done |]. intros id [= <-]. apply HP; [done|].
    simpl. by rewrite H.
  - unfold step, commit; simpl. by rewrite H.
  - unfold step, commit; simpl. by rewrite H.
Qed.

Lemma ledger_mono (P Q : N → Prop) s :
  (∀ id, P id → Q id) → ledger P s → ledger Q s.
Proof.
  intros HPQ [H1 H2 H3 H4]. split; auto.
  intros id esc Hl. destruct (H4 _ _ Hl) as [Ha Hb]. split; [done|].
  intros HQ. apply Hb. intros HP. apply HQ. by apply HPQ.
Qed.

Lemma run_ledger_committed own l :
  ledger (λ id, id ∈ withdrawn_ids own l) (run own l).
Proof.
  induction l as [|ec l IH] using rev_ind.
  - apply ledger_init.
  - rewrite run_snoc. apply step_ledger_committed; [apply run_wf | |].
    + eapply ledger_mono; [|exact IH]. intros id Hid. simpl.
      apply withdrawn_ids_snoc. by left.
    + intros id Hc Hok. apply withdrawn_ids_snoc. by right.
Qed.

Lemma released_total_other (id id0 rid : N) (r : release) (m : gmap (N * N) release) :
  m !! (id0, rid) = None → id0 ≠ id →
  released_total id (<[(id0, rid) := r]> m) = released_total id m.
Proof.
  intros Hk Hne. rewrite released_total_insert by done. simpl.
  by rewrite bool_decide_eq_false_2.
Qed.

(** A write to an escrow outside [P] that may add a release record for it. *)
Lemma drained_other (P : N → Prop) s s' id0 esc0 esc0' :
  drained P s →
  escrow_accounts s !! id0 = Some esc0 →
  (∀ esc, P id0 → escrow_accounts s !! id0 = Some esc →
          released_amount esc = amount esc → status esc ≠ STATUS_ACTIVE → False) →
  escrow_accounts s' = <[id0 := esc0']> (escrow_accounts s) →
  (escrow_releases s' = escrow_releases s
   ∨ ∃ rid r, escrow_releases s !! (id0, rid) = None
              ∧ escrow_releases s' = <[(id0, rid) := r]> (escrow_releases s)) →
  drained P s'.
Proof.
  intros Hdr Hl Hout E4 E3 id HP.
  destruct (Hdr _ HP) as (esc & Hesc & Hsum & Hrel & Hst).
  assert (Hne : id0 ≠ id).
  { intros ->. exact (Hout _ HP Hesc Hrel Hst). }
  exists esc. rewrite E4, lookup_insert_ne by done.
  split; [done|]. split; [|done].
  destruct E3 as [-> | (rid & r & Hfresh & ->)]; [done|].
  by rewrite released_total_other.
Qed.

Lemma drained_frame (P : N → Prop) s s' :
  drained P s →
  escrow_releases s' = escrow_releases s → escrow_accounts s' = escrow_accounts s →
  drained P s'.
Proof. intros Hdr E3 E4 id HP. rewrite E3, E4. by apply Hdr. Qed.

Ltac escrow_statuses :=
  unfold escrow_ok, STATUS_ACTIVE, STATUS_PARTIALLY_RELEASED, STATUS_RELEASED,
    STATUS_REFUNDED in *.

Lemma step_drained own (P P' : N → Prop) s ec :
  wf s → ledger (λ _, True) s → drained P s →
  (∀ id, P' id →
         P id ∨ (ec.2 = EmergencyWithdrawal id
                 ∧ committed (emergency_withdrawal ec.1 id s) = true)) →
  drained P' (step own s ec).
Proof.
  intros Hwf Hled Hdr Hgrow.
  assert (Hkeep : ∀ c', (∀ id, c' ≠ EmergencyWithdrawal id) → ec.2 = c' →
                        ∀ id, P' id → P id).
  { intros c' Hc' Hec id HP'. destruct (Hgrow _ HP') as [?|[Heq _]]; [done|].
    rewrite Hec in Heq. by destruct (Hc' id). }
  destruct ec as [e c]. destruct c; unfold step, commit; cbn [fst snd].
  - assert (HPP : ∀ id, P' id → P id) by (eapply Hkeep; [|done]; done).
    destruct (create_escrow _ _ _ _ _ _ _) as [[v s']| |] eqn:H;
      try (intros id HP'; apply Hdr; auto).
    apply create_escrow_Ok in H as (_ & _ & _ & _ & E1 & E2 & E3 & E4).
    intros id HP'. destruct (Hdr _ (HPP _ HP')) as (esc & Hesc & Hsum & Hrel & Hst).
    exists esc. rewrite E3, E4. rewrite lookup_insert_ne; [done|].
    intros <-. rewrite (led_fresh_escrow _ _ Hled) in Hesc by lia. done.
  - assert (HPP : ∀ id, P' id → P id) by (eapply Hkeep; [|done]; done).
    destruct (add_milestone _ _ _ _ _ _ _) as [[v s']| |] eqn:H;
      try (intros id HP'; apply Hdr; auto).
    apply add_milestone_Ok in H as (_ & _ & E3 & E4).
    intros id HP'. eapply drained_frame; eauto.
  - assert (HPP : ∀ id, P' id → P id) by (eapply Hkeep; [|done]; done).
    destruct (complete_milestone _ _ _ _) as [[v s']| |] eqn:H;
      try (intros id HP'; apply Hdr; auto).
    apply complete_milestone_Ok in H as (_ & _ & E3 & E4).
    intros id HP'. eapply drained_frame; eauto.
  - assert (HPP : ∀ id, P' id → P id) by (eapply Hkeep; [|done]; done).
    destruct (release_funds _ _ _ _ _) as [[v s']| |] eqn:H;
      try (intros id HP'; apply Hdr; auto).
    apply release_funds_Ok in H as (esc0 & Hl & _ & Hact & _ & _ & _ & E3 & E4).
    intros id HP'. eapply (drained_other P); eauto.
    + intros esc _ Hesc _ Hst. rewrite Hl in Hesc. injection Hesc as <-. done.
    + right. do 2 eexists. split; [|exact E3].
      apply (led_fresh_release _ _ Hled). lia.
  - assert (HPP : ∀ id, P' id → P id) by (eapply Hkeep; [|done]; done).
    destruct (release_milestone_funds _ _ _ _) as [[v s']| |] eqn:H;
      try (intros id HP'; apply Hdr; auto).
    apply release_milestone_funds_Ok in H
      as (esc0 & ms & Hl & _ & _ & _ & Hle & _ & _ & E3 & E4).
    assert (Hfresh : escrow_releases s !! (escrow_id, milestone_nonce s + 1) = None)
      by (apply (led_fresh_release _ _ Hled); lia).
    intros id HP'. pose proof (HPP _ HP') as HP.
    destruct (decide (escrow_id = id)) as [->|Hne].
    + destruct (Hdr _ HP) as (esc & Hesc & Hsum & Hrel & Hst).
      rewrite Hl in Hesc. injection Hesc as <-.
      assert (Hz : ms_amount ms = 0) by lia.
      eexists. rewrite E3, E4, lookup_insert_eq. split; [done|].
      rewrite released_total_insert by done. simpl.
      rewrite bool_decide_eq_true_2 by done. rewrite Hsum, Hz.
      split; [done|]. split; [lia|].
      replace (released_amount esc0 + 0 =? amount esc0) with true
        by (symmetry; apply N.eqb_eq; lia).
      done.
    + destruct (Hdr _ HP) as (esc & Hesc & Hsum & Hrel & Hst).
      exists esc. rewrite E3, E4, lookup_insert_ne by done.
      by rewrite released_total_other.
  - assert (HPP : ∀ id, P' id → P id) by (eapply Hkeep; [|done]; done).
    destruct (refund_escrow _ _ _) as [[v s']| |] eqn:H;
      try (intros id HP'; apply Hdr; auto).
    apply refund_escrow_Ok in H as (esc0 & Hl & _ & _ & Hst0 & _ & _ & _ & _ & E3 & E4).
    intros id HP'. eapply (drained_other P); eauto.
    intros esc _ Hesc Hrel Hst. rewrite Hl in Hesc. injection Hesc as <-.
    pose proof (Hwf _ _ Hl) as Hok. escrow_statuses.
    destruct Hst0 as [?|?]; [done|].
    destruct Hok as [[? ?]|[[? ?]|[[? ?]|[? ?]]]]; lia.
  - destruct (emergency_withdrawal _ _ _) as [[v s']| |] eqn:H.
    2,3: intros id HP'; apply Hdr; destruct (Hgrow _ HP') as [?|[[= <-] Hc]];
      [done | simpl in Hc; rewrite H in Hc; done].
    apply emergency_withdrawal_Ok in H as (esc0 & Hl & _ & Hact & _ & _ & E3 & E4).
    intros id HP'.
    destruct (decide (escrow_id = id)) as [<-|Hne].
    + eexists. rewrite E3, E4, lookup_insert_eq. split; [done|].
      pose proof (Hwf _ _ Hl) as Hok.
      destruct (led_sum _ _ Hled _ _ Hl) as [Hsum _].
      escrow_statuses. simpl.
      split; [|split; done].
      destruct Hok as [[? ?]|[[? ?]|[[? ?]|[? ?]]]]; lia.
    + destruct (Hgrow _ HP') as [HP|[[= ?] _]]; [|done].
      destruct (Hdr _ HP) as (esc & Hesc & Hsum & Hrel & Hst).
      exists esc. rewrite E3, E4, lookup_insert_ne by done. done.
  - assert (HPP : ∀ id, P' id → P id) by (eapply Hkeep; [|done]; done).
    destruct (extend_escrow_period _ _ _ _) as [[v s']| |] eqn:H;
      try (intros id HP'; apply Hdr; auto).
    apply extend_escrow_period_Ok in H as (esc0 & Hl & _ & Hact & _ & _ & E3 & E4).
    intros id HP'. eapply (drained_other P); eauto.
    intros esc _ Hesc _ Hst. rewrite Hl in Hesc. injection Hesc as <-. done.
  - assert (HPP : ∀ id, P' id → P id) by (eapply Hkeep; [|done]; done).
    destruct (set_min_escrow_amount _ _ _ _) as [[v s']| |] eqn:H;
      try (intros id HP'; apply Hdr; auto).
    apply set_min_escrow_amount_Ok in H as (_ & _ & E3 & E4).
    intros id HP'. eapply drained_frame; eauto.
  - assert (HPP : ∀ id, P' id → P id) by (eapply Hkeep; [|done]; done).
    destruct (set_emergency_fee _ _ _ _) as [[v s']| |] eqn:H;
      try (intros id HP'; apply Hdr; auto).
    apply set_emergency_fee_Ok in H as (_ & _ & E3 & E4).
    intros id HP'. eapply drained_frame; eauto.
Qed.

Lemma run_drained own l :
  drained (λ id, id ∈ withdrawn_ids own l) (run own l).
Proof.
  induction l as [|ec l IH] using rev_ind.
  - intros id Hid. unfold withdrawn_ids in Hid. simpl in Hid. by apply elem_of_nil in Hid.
  - rewrite run_snoc. eapply step_drained; [apply run_wf | | exact IH |].
    + apply run_ledger, Forall_forall. intros; exact I.
    + intros id Hid. by apply withdrawn_ids_snoc.
Qed.

(** ** The claims about the escrow ledger *)

(** C1, as stated, fails: after an emergency withdrawal the escrow's
    released amount is its whole amount while no release record exists. *)
Lemma emergency_withdrawal_breaks_ledger_match :
  ¬ ledger_matches (run owner withdrawn_trace).
Proof.
  intros H.
  assert (Hl : escrow_accounts (run owner withdrawn_trace) !! 1
               = Some {| campaign_id := 1; depositor := alice; beneficiary := bob;
                         amount := 1000000; released_amount := 1000000;
                         status := STATUS_REFUNDED; created_at := 10;
                         expiry := 1010; requires_milestones := false |})
    by (vm_compute; reflexivity).
  apply H in Hl. vm_compute in Hl. discriminate.
Qed.

(** C1, amended: for every escrow, after every sequence of calls, the
    amounts of its release records sum to at most its released amount;
    they sum to exactly its released amount unless an emergency withdrawal
    on that escrow has committed (calls that were rejected do not count),
    and after a committed emergency withdrawal they sum to 0 while the
    released amount is the whole amount. *)
Theorem release_ledger_sound own l id esc :
  escrow_accounts (run own l) !! id = Some esc →
  released_total id (escrow_releases (run own l)) ≤ released_amount esc
  ∧ (emergency_withdrawn own l id = false →
     released_total id (escrow_releases (run own l)) = released_amount esc)
  ∧ (emergency_withdrawn own l id = true →
     released_total id (escrow_releases (run own l)) = 0
     ∧ released_amount esc = amount esc).
Proof.
  intros Hl.
  destruct (led_sum _ _ (run_ledger_committed own l) _ _ Hl) as [Hle Heq].
  split; [done|]. split.
  - intros Hno. apply Heq. by apply bool_decide_eq_false_1 in Hno.
  - intros Hyes. apply bool_decide_eq_true_1 in Hyes.
    destruct (run_drained own l _ Hyes) as (esc' & Hesc & Hsum & Hrel & _).
    rewrite Hl in Hesc. injection Hesc as <-. done.
Qed.

Lemma release_ledger_sound_witness :
  escrow_accounts (run owner rejected_withdrawal_trace) !! 1 = Some milestone_escrow
  ∧ emergency_withdrawn owner rejected_withdrawal_trace 1 = false
  ∧ released_total 1 (escrow_releases (run owner rejected_withdrawal_trace)) = 600000.
Proof.
  split; [vm_compute; reflexivity|]. split; [vm_compute; reflexivity|].
  refine (proj1 (proj2 (release_ledger_sound owner rejected_withdrawal_trace 1
                          milestone_escrow _)) _);
    vm_compute; reflexivity.
Defined.

(** C2, as stated, fails: an emergency withdrawal leaves the escrow
    refunded with its released amount equal to its amount. *)
Lemma emergency_withdrawal_drained_not_released :
  ¬ released_iff_drained (run owner withdrawn_trace).
Proof.
  intros H.
  assert (Hl : escrow_accounts (run owner withdrawn_trace) !! 1
               = Some {| campaign_id := 1; depositor := alice; beneficiary := bob;
                         amount := 1000000; released_amount := 1000000;
                         status := STATUS_REFUNDED; created_at := 10;
                         expiry := 1010; requires_milestones := false |})
    by (vm_compute; reflexivity).
  apply H in Hl. simpl in Hl. destruct Hl as [_ Hl].
  specialize (Hl eq_refl). discriminate.
Qed.

(** C2, amended: for every escrow, after every sequence of calls, the
    status Released implies that the released amount equals the amount;
    conversely an escrow whose released amount equals its amount is
    Released, or Refunded, or an Active escrow of amount 0. *)
Theorem released_status_sound own l id esc :
  escrow_accounts (run own l) !! id = Some esc →
  (status esc = STATUS_RELEASED → released_amount esc = amount esc)
  ∧ (released_amount esc = amount esc →
     status esc = STATUS_RELEASED ∨ status esc = STATUS_REFUNDED
     ∨ (status esc = STATUS_ACTIVE ∧ amount esc = 0)).
Proof.
  intros Hl. pose proof (run_wf own l _ _ Hl) as Hok.
  unfold escrow_ok, STATUS_ACTIVE, STATUS_PARTIALLY_RELEASED, STATUS_RELEASED,
    STATUS_REFUNDED in *.
  split.
  - intros Hs. destruct Hok as [[? ?]|[[? ?]|[[? ?]|[? ?]]]]; (done || lia).
  - intros Heq. destruct Hok as [[? ?]|[[? ?]|[[? ?]|[? ?]]]].
    + right; right. split; [done | lia].
    + lia.
    + by left.
    + right; by left.
Qed.

Lemma released_status_sound_witness :
  escrow_accounts (run owner released_trace) !! 1 = Some released_escrow
  ∧ status released_escrow = STATUS_RELEASED
  ∧ released_amount released_escrow = amount released_escrow
  ∧ (status released_escrow = STATUS_RELEASED
     ∨ status released_escrow = STATUS_REFUNDED
     ∨ (status released_escrow = STATUS_ACTIVE ∧ amount released_escrow = 0)).
Proof.
  split; [vm_compute; reflexivity|]. split; [reflexivity|].
  destruct (released_status_sound owner released_trace 1 released_escrow)
    as [H1 H2]; [vm_compute; reflexivity|].
  split; [exact (H1 eq_refl) | exact (H2 (H1 eq_refl))].
Defined.

(** C3: the code breaks the claim.  [release-milestone-funds] checks no
    escrow status, so on a Refunded escrow with a completed milestone it
    succeeds and moves the status from Refunded to PartiallyReleased. *)
Theorem refunded_escrow_released_again :
  (status <$> escrow_accounts (run owner refunded_trace) !! 1) = Some STATUS_REFUNDED
  ∧ ∃ s', release_milestone_funds (Env alice 1011) 1 1 (run owner refunded_trace)
          = Ok (true, s')
          ∧ (status <$> escrow_accounts s' !! 1) = Some STATUS_PARTIALLY_RELEASED
          ∧ (released_amount <$> escrow_accounts s' !! 1) = Some 400000.
Proof.
  split; [vm_compute; reflexivity|].
  eexists. split; [vm_compute; reflexivity|].
  split; vm_compute; reflexivity.
Qed.

(** C5: for every escrow, after every sequence of calls, its released
    amount lies between 0 and its amount; and a call of
    [release-milestone-funds] by the depositor for a completed milestone
    whose amount exceeds the remaining balance fails with
    [err-insufficient-funds] (the release counter not being saturated). *)
Theorem released_within_amount own l id esc :
  escrow_accounts (run own l) !! id = Some esc →
  (0 ≤ released_amount esc ∧ released_amount esc ≤ amount esc)
  ∧ ∀ e mid ms,
      escrow_milestones (run own l) !! (id, mid) = Some ms →
      tx_sender e = depositor esc →
      ms_status ms = MILESTONE_COMPLETED →
      milestone_nonce (run own l) < uint_max →
      amount esc - released_amount esc < ms_amount ms →
      release_milestone_funds e id mid (run own l) = Err err_insufficient_funds.
Proof.
  intros Hl. pose proof (run_wf own l _ _ Hl) as Hok.
  assert (Hle : released_amount esc ≤ amount esc).
  { destruct Hok as [[_ ?]|[[_ ?]|[[_ ?]|[_ ?]]]]; lia. }
  split; [lia|].
  intros e mid ms Hm Hsender Hdone Hnonce Hgt.
  unfold release_milestone_funds, get_escrow, get_milestone. tx_unfold.
  rewrite Hl, Hm.
  rewrite (proj2 (N.leb_le _ _) Hle).
  rewrite (proj2 (N.leb_le (milestone_nonce (run own l) + 1) uint_max)) by lia.
  rewrite bool_decide_eq_true_2 by done.
  rewrite (proj2 (N.eqb_eq _ _) Hdone).
  rewrite (proj2 (N.leb_gt _ _) Hgt). done.
Qed.

Lemma released_within_amount_witness :
  escrow_accounts (run owner milestone_trace) !! 1 = Some milestone_escrow
  ∧ release_milestone_funds (Env alice 14) 1 1 (run owner milestone_trace)
    = Err err_insufficient_funds.
Proof.
  split; [vm_compute; reflexivity|].
  refine (proj2 (released_within_amount owner milestone_trace 1 milestone_escrow _)
            (Env alice 14) 1
            {| ms_description := "first delivery"; ms_amount := 600000;
               ms_status := MILESTONE_COMPLETED; ms_condition_hash := None;
               ms_deadline := 500; ms_completed_at := 12 |} _ _ _ _ _);
    vm_compute; reflexivity.
Defined.





(** C9, as stated, fails: a duration above the maximum is rejected with
    [err-invalid-status], the very error [release-funds] gives for an
    escrow that is not Active.  So under no reading of the error kinds
    that keeps different kinds apart and reports a call forbidden by the
    escrow's status as an invalid state does [create-escrow] report an
    invalid duration. *)
Lemma create_escrow_long_duration_error :
  create_escrow (Env alice 10) 1 bob 1000000 60000 false init
  = Err err_invalid_status
  ∧ release_funds (Env alice 12) 1 1 "late" (run owner withdrawn_trace)
    = Err err_invalid_status
  ∧ ¬ ∃ code_of : error_kind → N,
        reports_kinds code_of
        ∧ release_funds (Env alice 12) 1 1 "late" (run owner withdrawn_trace)
          = Err (code_of InvalidState)
        ∧ create_escrow (Env alice 10) 1 bob 1000000 60000 false init
          = Err (code_of InvalidDuration).
Proof.
  assert (H1 : release_funds (Env alice 12) 1 1 "late" (run owner withdrawn_trace)
               = Err err_invalid_status) by (vm_compute; reflexivity).
  assert (H2 : create_escrow (Env alice 10) 1 bob 1000000 60000 false init
               = Err err_invalid_status) by (vm_compute; reflexivity).
  split; [done|]. split; [done|].
  intros (code_of & Hinj & Hstate & Hdur).
  rewrite H1 in Hstate. rewrite H2 in Hdur.
  injection Hstate as Hstate. injection Hdur as Hdur.
  assert (Heq : InvalidState = InvalidDuration) by (apply Hinj; congruence).
  discriminate.
Qed.

(** C9, amended: [create-escrow] fails with [err-invalid-amount] when the
    amount is below the minimum; otherwise with [err-invalid-status] when
    the duration exceeds the maximum; otherwise with [err-unauthorized]
    when the beneficiary is the caller; otherwise it succeeds, returns
    [escrow-nonce + 1], which no escrow had before, and stores the new
    Active escrow there.  The [uint] additions of the call are assumed
    not to overflow. *)
Theorem create_escrow_spec own l e c b a d r :
  escrow_nonce (run own l) < uint_max →
  stacks_block_time e + d ≤ uint_max →
  (a < min_escrow_amount (run own l) →
   create_escrow e c b a d r (run own l) = Err err_invalid_amount)
  ∧ (min_escrow_amount (run own l) ≤ a → max_escrow_duration (run own l) < d →
     create_escrow e c b a d r (run own l) = Err err_invalid_status)
  ∧ (min_escrow_amount (run own l) ≤ a → d ≤ max_escrow_duration (run own l) →
     tx_sender e = b →
     create_escrow e c b a d r (run own l) = Err err_unauthorized)
  ∧ (min_escrow_amount (run own l) ≤ a → d ≤ max_escrow_duration (run own l) →
     tx_sender e ≠ b →
     total_locked (default {| total_locked := 0; total_escrowed_out := 0 |}
                           (pending_escrows (run own l) !! tx_sender e)) + a
       ≤ uint_max →
     total_escrowed (run own l) + a ≤ uint_max →
     ∃ s', create_escrow e c b a d r (run own l)
           = Ok (escrow_nonce (run own l) + 1, s')
           ∧ escrow_accounts (run own l) !! (escrow_nonce (run own l) + 1) = None
           ∧ escrow_accounts s' !! (escrow_nonce (run own l) + 1)
             = Some {| campaign_id := c; depositor := tx_sender e;
                       beneficiary := b; amount := a; released_amount := 0;
                       status := STATUS_ACTIVE;
                       created_at := stacks_block_time e;
                       expiry := stacks_block_time e + d;
                       requires_milestones := r |}).
Proof.
  intros Hnonce Htime.
  assert (Hn : (escrow_nonce (run own l) + 1 <=? uint_max) = true)
    by (apply N.leb_le; lia).
  assert (Ht : (stacks_block_time e + d <=? uint_max) = true)
    by (by apply N.leb_le).
  repeat split.
  - intros Hlow. unfold create_escrow. tx_unfold. rewrite Hn, Ht.
    by rewrite (proj2 (N.leb_gt _ _) Hlow).
  - intros Hmin Hlong. unfold create_escrow. tx_unfold. rewrite Hn, Ht.
    rewrite (proj2 (N.leb_le _ _) Hmin).
    by rewrite (proj2 (N.leb_gt _ _) Hlong).
  - intros Hmin Hdur Hself. unfold create_escrow. tx_unfold. rewrite Hn, Ht.
    rewrite (proj2 (N.leb_le _ _) Hmin), (proj2 (N.leb_le _ _) Hdur).
    by rewrite bool_decide_eq_true_2.
  - intros Hmin Hdur Hother Hlocked Htotal.
    assert (Hfresh : escrow_accounts (run own l) !! (escrow_nonce (run own l) + 1)
                     = None).
    { apply (led_fresh_escrow (λ _, True)); [|lia].
      apply run_ledger, Forall_forall. intros; exact I. }
    unfold create_escrow, update_user_pending. tx_unfold. rewrite Hn, Ht.
    rewrite (proj2 (N.leb_le _ _) Hmin), (proj2 (N.leb_le _ _) Hdur).
    rewrite bool_decide_eq_false_2 by done. simpl.
    destruct r; simpl.
    all: rewrite (proj2 (N.leb_le _ _) Hlocked); simpl.
    all: rewrite (proj2 (N.leb_le _ _) Htotal); simpl.
    all: eexists; split; [reflexivity|]; split;
      [ exact Hfresh | apply lookup_insert_eq ].
Qed.

Lemma create_escrow_spec_witness :
  create_escrow (Env alice 10) 1 bob 1000000 60000 false (run owner [])
  = Err err_invalid_status.
Proof.
  refine (proj1 (proj2 (create_escrow_spec owner [] (Env alice 10) 1 bob 1000000
                          60000 false _ _)) _ _);
    vm_compute; (reflexivity || discriminate).
Defined.

End EscrowTheory.

(** * Properties of the dispute registry *)

Module DisputeTheory.
Import Dispute.

(** Case analysis on a lookup that follows writes. *)
Ltac map_cases :=
  repeat match goal with
    | H : <[_ := _]> _ !! _ = Some _ |- _ =>
        apply lookup_insert_Some in H as [[<- <-]|[? H]]
    end.

(** ** Invariant *)

Lemma dispute_wf_init : wf init.
Proof. split; simpl; intros; by simplify_map_eq. Qed.

Ltac wf_close :=
  split; simpl; intros; map_cases; simpl in *; eauto; try congruence; try lia.

Section Preservation.
Variable contract_owner : principal.

Lemma open_dispute_wf e c p t a d f s v s' :
  wf s → open_dispute e c p t a d f s = Ok (v, s') → wf s'.
Proof.
  intros [H1 H2 H3 H4]. unfold open_dispute. intros H. tx_inv; wf_close.
Qed.

Lemma submit_evidence_wf e i t h d s v s' :
  wf s → submit_evidence e i t h d s = Ok (v, s') → wf s'.
Proof.
  intros [H1 H2 H3 H4]. unfold submit_evidence, get_dispute, get_evidence_count.
  intros H. tx_inv; wf_close.
Qed.

Lemma assign_arbitrator_wf e i a s v s' :
  wf s → assign_arbitrator contract_owner e i a s = Ok (v, s') → wf s'.
Proof.
  intros [H1 H2 H3 H4]. unfold assign_arbitrator, get_dispute.
  intros H. tx_inv; wf_close.
  - apply lookup_insert_is_Some'; eauto.
  - apply lookup_insert_is_Some'; eauto.
  - destruct (arbitrator_stats _ !! _) eqn:Hst; simpl; [eauto | lia].
Qed.

Lemma vote_on_dispute_wf e i o r s v s' :
  wf s → vote_on_dispute e i o r s = Ok (v, s') → wf s'.
Proof.
  intros [H1 H2 H3 H4].
  unfold vote_on_dispute, get_dispute, get_arbitrator_assignment.
  intros H. tx_inv; wf_close.
Qed.

Lemma appeal_decision_wf e i r s v s' :
  wf s → appeal_decision e i r s = Ok (v, s') → wf s'.
Proof.
  intros [H1 H2 H3 H4]. unfold appeal_decision, get_dispute, get_dispute_outcome.
  intros H. tx_inv; wf_close.
Qed.

Lemma auto_resolve_dispute_wf e i s v s' :
  wf s → auto_resolve_dispute contract_owner e i s = Ok (v, s') → wf s'.
Proof.
  intros [H1 H2 H3 H4]. unfold auto_resolve_dispute, get_dispute.
  intros H. tx_inv; wf_close.
  all: match goal with
       | H : arbitrator_stats _ !! _ = Some ?st |- cases_resolved ?st ≤ _ =>
           specialize (H4 _ _ H); lia
       end.
Qed.

Lemma close_dispute_wf e i s v s' :
  wf s → close_dispute e i s = Ok (v, s') → wf s'.
Proof.
  intros [H1 H2 H3 H4]. unfold close_dispute, get_dispute.
  intros H. tx_inv; wf_close.
Qed.

Lemma register_arbitrator_wf e a s v s' :
  wf s → register_arbitrator contract_owner e a s = Ok (v, s') → wf s'.
Proof.
  intros [H1 H2 H3 H4]. unfold register_arbitrator.
  intros H. tx_inv; wf_close.
  all: apply lookup_insert_is_Some'; eauto.
Qed.

Lemma deactivate_arbitrator_wf e a s v s' :
  wf s → deactivate_arbitrator contract_owner e a s = Ok (v, s') → wf s'.
Proof.
  intros [H1 H2 H3 H4]. unfold deactivate_arbitrator, get_arbitrator_stats.
  intros H. tx_inv; wf_close.
  all: apply lookup_insert_is_Some'; eauto.
Qed.

Lemma set_auto_resolve_threshold_wf e n s v s' :
  wf s → set_auto_resolve_threshold contract_owner e n s = Ok (v, s') → wf s'.
Proof.
  intros [H1 H2 H3 H4]. unfold set_auto_resolve_threshold.
  intros H. tx_inv; wf_close.
Qed.

Lemma set_appeal_window_wf e n s v s' :
  wf s → set_appeal_window contract_owner e n s = Ok (v, s') → wf s'.
Proof.
  intros [H1 H2 H3 H4]. unfold set_appeal_window.
  intros H. tx_inv; wf_close.
Qed.

Lemma update_party_reputation_Ok p won s v s' :
  update_party_reputation p won s = Ok (v, s') →
  total_disputes (party_record p s) < uint_max
  ∧ s' = set_dispute_history p (ruled_record won (party_record p s)) s.
Proof.
  unfold update_party_reputation, party_record, ruled_record. intros H.
  tx_inv; unfold uint_max in *.
  all: match goal with
       | |- context [default ?d ?o] => generalize dependent (default d o); intros h
       end.
  all: intros; (split; [lia|]); f_equal; f_equal; lia.
Qed.

Lemma update_party_reputation_fits p won s :
  total_disputes (party_record p s) < uint_max →
  reputation_score (party_record p s) ≤ 100 →
  disputes_won (party_record p s) ≤ total_disputes (party_record p s) →
  disputes_lost (party_record p s) ≤ total_disputes (party_record p s) →
  update_party_reputation p won s
  = Ok (true, set_dispute_history p (ruled_record won (party_record p s)) s).
Proof.
  intros Ht Hr Hw Hl.
  destruct (update_party_reputation p won s) as [[v s']| |] eqn:H.
  - pose proof H as H'. apply update_party_reputation_Ok in H' as [_ ->].
    revert H. unfold update_party_reputation. intros H. tx_inv.
  - revert H. unfold update_party_reputation. intros H. tx_inv.
  - revert H. unfold update_party_reputation, party_record in *. intros H.
    tx_inv.
    all: match goal with
         | H : context [default ?d ?o] |- _ =>
             generalize dependent (default d o); intros
         end; unfold uint_max in *; lia.
Qed.

Lemma party_record_ok p s : wf s → record_ok (party_record p s).
Proof.
  intros Hwf. unfold party_record.
  destruct (dispute_history s !! p) as [h|] eqn:Hh; simpl.
  - exact (wf_history _ Hwf _ _ Hh).
  - unfold record_ok; simpl; lia.
Qed.

Lemma ruled_record_ok won h : record_ok h → record_ok (ruled_record won h).
Proof. unfold record_ok. intros (? & ? & ?). destruct won; simpl; lia. Qed.

Lemma default_record_ok (m : gmap principal party_history) p :
  map_Forall (λ _ h, record_ok h) m →
  record_ok (default {| total_disputes := 0; disputes_won := 0;
                        disputes_lost := 0; reputation_score := 100 |}
                     (m !! p)).
Proof.
  intros Hm. destruct (m !! p) as [h|] eqn:Hh; simpl.
  - exact (Hm _ _ Hh).
  - unfold record_ok; simpl; lia.
Qed.

(** The store a successful [execute-ruling] commits. *)
Lemma execute_ruling_Ok e i s v s' :
  execute_ruling contract_owner e i s = Ok (v, s') →
  ∃ d a vt st,
    disputes s !! i = Some d ∧
    arbitrator_assignments s !! i = Some a ∧
    arbitrator_votes s !! (i, arbitrator a) = Some vt ∧
    arbitrator_stats s !! arbitrator a = Some st ∧
    tx_sender e = contract_owner ∧
    status d = STATUS_UNDER_REVIEW ∧
    v = true ∧
    let s1 :=
      set_dispute_outcome i
        {| outcome := vote_outcome vt;
           winner := if vote_outcome vt =? OUTCOME_ADVERTISER_WINS
                     then advertiser d
                     else if vote_outcome vt =? OUTCOME_PUBLISHER_WINS
                          then publisher d else contract_owner;
           amount_transferred := if vote_outcome vt =? OUTCOME_SPLIT
                                 then amount d / 2 else amount d;
           reasoning := vote_reasoning vt;
           resolved_at := stacks_block_time e;
           can_appeal := auto_resolve_threshold s * 5 <=? amount d |}
        (set_dispute i (merge_status d STATUS_RESOLVED (stacks_block_time e)) s) in
    let s2 :=
      set_dispute_history (advertiser d)
        (ruled_record (vote_outcome vt =? OUTCOME_ADVERTISER_WINS)
           (party_record (advertiser d) s1)) s1 in
    let s3 :=
      set_dispute_history (publisher d)
        (ruled_record (vote_outcome vt =? OUTCOME_PUBLISHER_WINS)
           (party_record (publisher d) s2)) s2 in
    s' = set_total_disputes_resolved (total_disputes_resolved s + 1)
           (set_arbitrator_stats (arbitrator a)
              {| total_cases := total_cases st;
                 cases_resolved := cases_resolved st + 1;
                 reputation := reputation st;
                 active := active st |} s3).
Proof.
  unfold execute_ruling. intros H. tx_steps H.
  match goal with
  | H : (if ?b then _ else _) _ = Ok _ |- _ =>
      destruct b eqn:Hsplit; tx_prim H
  end.
  all: match goal with
       | H : update_party_reputation (publisher _) _ _ = Ok _ |- _ =>
           apply update_party_reputation_Ok in H as [_ ->]
       end.
  all: match goal with
       | H : update_party_reputation (advertiser _) _ _ = Ok _ |- _ =>
           apply update_party_reputation_Ok in H as [_ ->]
       end.
  all: unfold get_dispute, get_arbitrator_assignment, get_arbitrator_vote,
         get_arbitrator_stats in *; simpl in *.
  all: repeat match goal with
         | H : bool_decide _ = true |- _ => apply bool_decide_eq_true_1 in H
         | H : (status _ =? _) = true |- _ => apply N.eqb_eq in H
         end.
  all: match goal with
       | Ha : arbitrator_assignments ?s0 !! ?k = Some ?a,
         Hb : arbitrator_assignments ?s0 !! ?k = Some ?b |- _ =>
           rewrite Ha in Hb; injection Hb as <-
       end.
  all: do 4 eexists.
  all: do 4 (split; [eassumption|]).
  all: do 2 (split; [assumption|]).
  all: split; [reflexivity|]; cbv zeta; rewrite Hsplit; reflexivity.
Qed.

Lemma execute_ruling_wf e i s v s' :
  wf s → execute_ruling contract_owner e i s = Ok (v, s') → wf s'.
Proof.
  intros Hwf H.
  apply execute_ruling_Ok in H
    as (d & a & vt & st & Hd & Ha & Hv & Hst & _ & _ & _ & ->).
  destruct Hwf as [H1 H2 H3 H4].
  split; simpl.
  - intros j dj Hj. apply lookup_insert_Some in Hj as [[<- <-]|[_ Hj]];
      simpl; eauto.
  - intros j aj Hj. apply lookup_insert_is_Some'. eauto.
  - apply map_Forall_insert_2; [|apply map_Forall_insert_2].
    + apply ruled_record_ok. unfold party_record. simpl.
      apply default_record_ok. apply map_Forall_insert_2; [|exact H3].
      apply ruled_record_ok. unfold party_record. simpl.
      by apply default_record_ok.
    + apply ruled_record_ok. unfold party_record. simpl.
      by apply default_record_ok.
    + exact H3.
  - intros b stb Hb. apply lookup_insert_Some in Hb as [[<- <-]|[_ Hb]]; simpl.
    + specialize (H4 _ _ Hst). lia.
    + specialize (H4 _ _ Hb). lia.
Qed.

Lemma dispute_step_wf s ec : wf s → wf (step contract_owner s ec).
Proof.
  intros Hwf. destruct ec as [e c]. destruct c; unfold step, commit; cbn [fst snd].
  - destruct (open_dispute _ _ _ _ _ _ _ _) as [[v s']| |] eqn:H;
      eauto using open_dispute_wf.
  - destruct (submit_evidence _ _ _ _ _ _) as [[v s']| |] eqn:H;
      eauto using submit_evidence_wf.
  - destruct (assign_arbitrator _ _ _ _ _) as [[v s']| |] eqn:H;
      eauto using assign_arbitrator_wf.
  - destruct (vote_on_dispute _ _ _ _ _) as [[v s']| |] eqn:H;
      eauto using vote_on_dispute_wf.
  - destruct (execute_ruling _ _ _ _) as [[v s']| |] eqn:H;
      eauto using execute_ruling_wf.
  - destruct (appeal_decision _ _ _ _) as [[v s']| |] eqn:H;
      eauto using appeal_decision_wf.
  - destruct (auto_resolve_dispute _ _ _ _) as [[v s']| |] eqn:H;
      eauto using auto_resolve_dispute_wf.
  - destruct (close_dispute _ _ _) as [[v s']| |] eqn:H;
      eauto using close_dispute_wf.
  - destruct (register_arbitrator _ _ _ _) as [[v s']| |] eqn:H;
      eauto using register_arbitrator_wf.
  - destruct (deactivate_arbitrator _ _ _ _) as [[v s']| |] eqn:H;
      eauto using deactivate_arbitrator_wf.
  - destruct (set_auto_resolve_threshold _ _ _ _) as [[v s']| |] eqn:H;
      eauto using set_auto_resolve_threshold_wf.
  - destruct (set_appeal_window _ _ _ _) as [[v s']| |] eqn:H;
      eauto using set_appeal_window_wf.
Qed.

Lemma dispute_run_snoc l ec :
  run contract_owner (l ++ [ec]) = step contract_owner (run contract_owner l) ec.
Proof. unfold run. by rewrite fold_left_app. Qed.

Lemma dispute_run_wf l : wf (run contract_owner l).
Proof.
  induction l as [|ec l IH] using rev_ind.
  - apply dispute_wf_init.
  - rewrite dispute_run_snoc. by apply dispute_step_wf.
Qed.

Local Arguments update_party_reputation : simpl never.

Lemma party_record_other p q r s :
  p ≠ q → party_record q (set_dispute_history p r s) = party_record q s.
Proof. intros Hne. unfold party_record. simpl. by rewrite lookup_insert_ne. Qed.

(** With its preconditions met and its counters within [uint],
    [execute-ruling] commits. *)
Lemma execute_ruling_fits e i s d a vt st :
  wf s →
  disputes s !! i = Some d →
  arbitrator_assignments s !! i = Some a →
  arbitrator_votes s !! (i, arbitrator a) = Some vt →
  arbitrator_stats s !! arbitrator a = Some st →
  tx_sender e = contract_owner →
  status d = STATUS_UNDER_REVIEW →
  auto_resolve_threshold s * 5 ≤ uint_max →
  total_disputes (party_record (advertiser d) s) < uint_max →
  total_disputes (party_record (publisher d) s) < uint_max →
  total_disputes_resolved s < uint_max →
  ∃ s', execute_ruling contract_owner e i s = Ok (true, s').
Proof.
  intros Hwf Hd Ha Hv Hst Hown Hstatus Hthr Hadv Hpub Htot.
  pose proof (wf_parties _ Hwf _ _ Hd) as Hne.
  pose proof (wf_resolved _ Hwf _ _ Hst) as Hres.
  unfold execute_ruling, get_dispute, get_arbitrator_assignment,
    get_arbitrator_vote, get_arbitrator_stats. tx_unfold.
  rewrite Hd, Ha, Hv.
  rewrite bool_decide_eq_true_2 by done.
  rewrite (proj2 (N.eqb_eq _ _) Hstatus).
  assert (Hfit : ∀ p won s0,
             party_record p s0 = party_record p s →
             total_disputes (party_record p s) < uint_max →
             update_party_reputation p won s0
             = Ok (true, set_dispute_history p
                           (ruled_record won (party_record p s0)) s0)).
  { intros p won s0 Heq Hlt.
    destruct (party_record_ok p s Hwf) as (? & ? & ?).
    apply update_party_reputation_fits; rewrite Heq; done. }
  destruct (vote_outcome vt =? OUTCOME_SPLIT); simpl.
  all: rewrite (proj2 (N.leb_le _ _) Hthr); simpl.
  all: rewrite Hfit by done.
  all: rewrite Hfit by (by rewrite ?party_record_other).
  all: simpl; rewrite Ha; simpl; rewrite Hst; simpl.
  all: rewrite (proj2 (N.leb_le (cases_resolved st + 1) uint_max)) by lia; simpl.
  all: rewrite (proj2 (N.leb_le (total_disputes_resolved s + 1) uint_max)) by lia.
  all: eauto.
Qed.
End Preservation.

(** ** The claims about the dispute registry *)

(** C4: the code breaks the claim.  [appeal-decision] checks no dispute
    status, so on a Closed dispute whose outcome can be appealed it
    succeeds within the appeal window and moves the status from Closed to
    Appealed. *)
Theorem closed_dispute_appealed :
  (status <$> disputes (run owner closed_trace) !! 1) = Some STATUS_CLOSED
  ∧ ∃ s', appeal_decision (Env advertiser_d 150) 1 "unfair" (run owner closed_trace)
          = Ok (true, s')
          ∧ (status <$> disputes s' !! 1) = Some STATUS_APPEALED.
Proof.
  split; [vm_compute; reflexivity|].
  eexists. split; vm_compute; reflexivity.
Qed.

(** C7, as stated, fails: once the owner has set the auto-resolve
    threshold above a fifth of the largest [uint], [execute-ruling] aborts
    on the multiplication by 5 and the dispute stays under review. *)
Lemma execute_ruling_overflow_aborts :
  disputes (run owner raised_threshold_trace) !! 1 = Some voted_dispute
  ∧ execute_ruling owner (Env owner 130) 1 (run owner raised_threshold_trace) = Abort
  ∧ ¬ ruling_recorded owner (run owner raised_threshold_trace).
Proof.
  assert (Hr : execute_ruling owner (Env owner 130) 1 (run owner raised_threshold_trace)
               = Abort) by (vm_compute; reflexivity).
  split; [vm_compute; reflexivity|]. split; [done|].
  intros H.
  destruct (H (Env owner 130) 1 voted_dispute voted_assignment voted_vote)
    as (s' & Hs' & _); try (vm_compute; reflexivity).
  rewrite Hr in Hs'. discriminate.
Qed.

(** C7, amended: [execute-ruling], called by the owner on a dispute under
    review whose assigned arbitrator has voted, aborts when 5 times the
    auto-resolve threshold leaves [uint].  Otherwise it commits; it
    records the outcome of the vote with the winner and the transferred
    amount the vote implies and
    [can-appeal = (amount >= 5 * auto-resolve-threshold)], raises the
    reputation of the party the vote names by 5 up to 100 and lowers the
    other party's by 5 down to 0, adds one to the arbitrator's resolved
    cases and marks the dispute Resolved at the current time, its other
    fields unchanged.  The counters incremented are assumed to stay within
    [uint]. *)
Theorem execute_ruling_spec own l e i d a vt :
  let s := run own l in
  tx_sender e = own →
  disputes s !! i = Some d →
  status d = STATUS_UNDER_REVIEW →
  arbitrator_assignments s !! i = Some a →
  arbitrator_votes s !! (i, arbitrator a) = Some vt →
  (uint_max < auto_resolve_threshold s * 5 → execute_ruling own e i s = Abort)
  ∧ (auto_resolve_threshold s * 5 ≤ uint_max →
     total_disputes (party_record (advertiser d) s) < uint_max →
     total_disputes (party_record (publisher d) s) < uint_max →
     total_disputes_resolved s < uint_max →
     ∃ s',
       execute_ruling own e i s = Ok (true, s')
       ∧ dispute_outcomes s' !! i
         = Some {| outcome := vote_outcome vt;
                   winner := if vote_outcome vt =? OUTCOME_ADVERTISER_WINS
                             then advertiser d
                             else if vote_outcome vt =? OUTCOME_PUBLISHER_WINS
                                  then publisher d else own;
                   amount_transferred := if vote_outcome vt =? OUTCOME_SPLIT
                                         then amount d / 2 else amount d;
                   reasoning := vote_reasoning vt;
                   resolved_at := stacks_block_time e;
                   can_appeal := auto_resolve_threshold s * 5 <=? amount d |}
       ∧ reputation_of (advertiser d) s'
         = (if vote_outcome vt =? OUTCOME_ADVERTISER_WINS
            then N.min 100 (reputation_of (advertiser d) s + 5)
            else reputation_of (advertiser d) s - 5)
       ∧ reputation_of (publisher d) s'
         = (if vote_outcome vt =? OUTCOME_PUBLISHER_WINS
            then N.min 100 (reputation_of (publisher d) s + 5)
            else reputation_of (publisher d) s - 5)
       ∧ (cases_resolved <$> arbitrator_stats s' !! arbitrator a)
         = ((λ st, cases_resolved st + 1) <$> arbitrator_stats s !! arbitrator a)
       ∧ is_Some (arbitrator_stats s' !! arbitrator a)
       ∧ disputes s' !! i
         = Some {| campaign_id := campaign_id d;
                   advertiser := advertiser d;
                   publisher := publisher d;
                   dispute_type := dispute_type d;
                   amount := amount d;
                   status := STATUS_RESOLVED;
                   description := description d;
                   created_at := created_at d;
                   updated_at := stacks_block_time e;
                   resolution_deadline := resolution_deadline d |}).
Proof.
  intros s Hown Hd Hstatus Ha Hv. split.
  - intros Hbig.
    unfold execute_ruling, get_dispute, get_arbitrator_assignment,
      get_arbitrator_vote. tx_unfold.
    rewrite Hd, Ha, Hv.
    rewrite bool_decide_eq_true_2 by done.
    rewrite (proj2 (N.eqb_eq _ _) Hstatus).
    destruct (vote_outcome vt =? OUTCOME_SPLIT); simpl.
    all: by rewrite (proj2 (N.leb_gt _ _) Hbig).
  - intros Hthr Hadv Hpub Htot.
    pose proof (dispute_run_wf own l) as Hwf. fold s in Hwf.
    destruct (wf_assigned _ Hwf _ _ Ha) as [st Hst].
    pose proof (wf_parties _ Hwf _ _ Hd) as Hne.
    destruct (execute_ruling_fits own e i s d a vt st) as [s' Hs']; try done.
    exists s'. split; [done|].
    apply execute_ruling_Ok in Hs'
      as (d' & a' & vt' & st' & Hd' & Ha' & Hv' & Hst' & _ & _ & _ & ->).
    rewrite Hd in Hd'. injection Hd' as <-.
    rewrite Ha in Ha'. injection Ha' as <-.
    rewrite Hv in Hv'. injection Hv' as <-.
    rewrite Hst in Hst'. injection Hst' as <-.
    cbv zeta. unfold reputation_of, party_record. simpl.
    rewrite !lookup_insert_eq, Hst. simpl.
    rewrite lookup_insert_ne by done. rewrite lookup_insert_eq.
    rewrite (lookup_insert_ne _ (advertiser d) (publisher d)) by done.
    repeat split; eauto.
Qed.

Lemma execute_ruling_spec_witness :
  ∃ s',
    execute_ruling owner (Env owner 130) 1 (run owner voted_trace) = Ok (true, s')
    ∧ dispute_outcomes s' !! 1 = Some resolved_outcome
    ∧ reputation_of advertiser_d s' = 95
    ∧ reputation_of publisher_p s' = 100
    ∧ (status <$> disputes s' !! 1) = Some STATUS_RESOLVED.
Proof.
  destruct (execute_ruling_spec owner voted_trace (Env owner 130) 1
              voted_dispute voted_assignment voted_vote)
    as [_ H]; try (vm_compute; reflexivity).
  destruct H as (s' & H1 & H2 & H3 & H4 & _ & _ & H7);
    try (vm_compute; (reflexivity || discriminate)).
  exists s'. split; [exact H1|]. split; [exact H2|]. split; [exact H3|].
  split; [exact H4|]. exact (f_equal (fmap status) H7).
Defined.

(** C8: [appeal-decision] succeeds only when the recorded outcome can be
    appealed and the time elapsed since the resolution is strictly below
    the appeal window; called by a party on an appealable outcome when
    the elapsed time equals the window, it fails with
    [err-appeal-expired]; one time unit earlier it succeeds. *)
Theorem appeal_decision_window e i reason s d res :
  disputes s !! i = Some d →
  dispute_outcomes s !! i = Some res →
  (∀ v s', appeal_decision e i reason s = Ok (v, s') →
           can_appeal res = true
           ∧ resolved_at res ≤ stacks_block_time e
           ∧ stacks_block_time e - resolved_at res < appeal_window s)
  ∧ (tx_sender e = advertiser d ∨ tx_sender e = publisher d →
     can_appeal res = true →
     resolved_at res ≤ stacks_block_time e →
     stacks_block_time e - resolved_at res = appeal_window s →
     appeal_decision e i reason s = Err err_appeal_expired)
  ∧ (tx_sender e = advertiser d ∨ tx_sender e = publisher d →
     can_appeal res = true →
     resolved_at res ≤ stacks_block_time e →
     stacks_block_time e - resolved_at res < appeal_window s →
     appeal_decision e i reason s
     = Ok (true, set_dispute i
                   (merge_status d STATUS_APPEALED (stacks_block_time e)) s)).
Proof.
  intros Hd Hres.
  assert (Hparty : tx_sender e = advertiser d ∨ tx_sender e = publisher d →
                   bool_decide (tx_sender e = advertiser d)
                   || bool_decide (tx_sender e = publisher d) = true).
  { intros [Hp|Hp]; apply orb_true_iff; [left|right];
      by apply bool_decide_eq_true_2. }
  split; [|split].
  - intros v s' H. unfold appeal_decision in H. tx_steps H.
    unfold get_dispute, get_dispute_outcome in *. simplify_eq.
    bool_hyps. done.
  - intros Hp Hcan Hle Heq.
    unfold appeal_decision, get_dispute, get_dispute_outcome. tx_unfold.
    rewrite Hd, Hres, (Hparty Hp), Hcan.
    rewrite (proj2 (N.leb_le _ _) Hle).
    by rewrite (proj2 (N.ltb_ge _ _)) by lia.
  - intros Hp Hcan Hle Hlt.
    unfold appeal_decision, get_dispute, get_dispute_outcome. tx_unfold.
    rewrite Hd, Hres, (Hparty Hp), Hcan.
    rewrite (proj2 (N.leb_le _ _) Hle).
    by rewrite (proj2 (N.ltb_lt _ _) Hlt).
Qed.

Lemma appeal_decision_window_witness :
  appeal_decision (Env advertiser_d 1570) 1 "unfair" (run owner resolved_trace)
  = Err err_appeal_expired.
Proof.
  refine (proj1 (proj2 (appeal_decision_window (Env advertiser_d 1570) 1 "unfair"
                          (run owner resolved_trace) resolved_dispute
                          resolved_outcome _ _)) _ _ _ _);
    try (vm_compute; (reflexivity || discriminate)).
  left. reflexivity.
Defined.

(** C10: [close-dispute] checks no caller: whoever sends it, on a
    Resolved dispute it succeeds and marks the dispute Closed at the
    current time, its other fields unchanged. *)
Theorem close_dispute_any_caller e i s d :
  disputes s !! i = Some d →
  status d = STATUS_RESOLVED →
  ∃ s', close_dispute e i s = Ok (true, s')
        ∧ s' = set_dispute i (merge_status d STATUS_CLOSED (stacks_block_time e)) s
        ∧ disputes s' !! i
          = Some {| campaign_id := campaign_id d;
                    advertiser := advertiser d;
                    publisher := publisher d;
                    dispute_type := dispute_type d;
                    amount := amount d;
                    status := STATUS_CLOSED;
                    description := description d;
                    created_at := created_at d;
                    updated_at := stacks_block_time e;
                    resolution_deadline := resolution_deadline d |}.
Proof.
  intros Hd Hst. unfold close_dispute, get_dispute. tx_unfold.
  rewrite Hd. rewrite (proj2 (N.eqb_eq _ _) Hst).
  eexists. split; [reflexivity|]. split; [reflexivity|].
  simpl. apply lookup_insert_eq.
Qed.

Lemma close_dispute_any_caller_witness :
  ∃ s', close_dispute (Env arbitrator_a 140) 1 (run owner resolved_trace)
        = Ok (true, s')
        ∧ s' = set_dispute 1 (merge_status resolved_dispute STATUS_CLOSED 140)
                 (run owner resolved_trace)
        ∧ (status <$> disputes s' !! 1) = Some STATUS_CLOSED.
Proof.
  destruct (close_dispute_any_caller (Env arbitrator_a 140) 1
              (run owner resolved_trace) resolved_dispute)
    as (s' & H1 & H2 & H3); try (vm_compute; reflexivity).
  exists s'. split; [exact H1|]. split; [exact H2|].
  exact (f_equal (fmap status) H3).
Defined.

End DisputeTheory.

(** * Further properties of the escrow ledger *)

Module EscrowExtra.
Import Escrow EscrowViews EscrowTheory.

(** ** What a call leaves alone *)

Lemma escrow_extends_refl a : escrow_extends a a.
Proof. unfold escrow_extends. repeat split; (lia || done). Qed.

Lemma escrow_extends_trans a b c :
  escrow_extends a b → escrow_extends b c → escrow_extends a c.
Proof.
  unfold escrow_extends.
  intros (? & ? & ? & ? & ? & ? & ? & ? & ?) (? & ? & ? & ? & ? & ? & ? & ? & ?).
  repeat split; try (congruence || lia); auto.
Qed.

Lemma lookup_extends_frame (m m' : gmap N escrow) id esc :
  m !! id = Some esc → m' = m →
  ∃ esc', m' !! id = Some esc' ∧ escrow_extends esc esc'.
Proof. intros Hl ->. eauto using escrow_extends_refl. Qed.

Lemma lookup_extends_insert (m m' : gmap N escrow) id esc k old new :
  m !! id = Some esc → m !! k = Some old → escrow_extends old new →
  m' = <[k := new]> m →
  ∃ esc', m' !! id = Some esc' ∧ escrow_extends esc esc'.
Proof.
  intros Hl Hk Hext ->. destruct (decide (k = id)) as [->|Hne].
  - rewrite lookup_insert_eq. rewrite Hl in Hk. injection Hk as <-. eauto.
  - rewrite lookup_insert_ne by done. eauto using escrow_extends_refl.
Qed.

(** The status written is not Active, or the old status was Active. *)
Ltac ext_status :=
  intros; try case_match; unfold STATUS_ACTIVE, STATUS_RELEASED,
    STATUS_PARTIALLY_RELEASED, STATUS_REFUNDED in *; (congruence || lia).

Lemma step_extends own l ec id esc :
  escrow_accounts (run own l) !! id = Some esc →
  ∃ esc', escrow_accounts (step own (run own l) ec) !! id = Some esc'
          ∧ escrow_extends esc esc'.
Proof.
  intros Hl. pose proof (run_wf own l) as Hwf.
  assert (Hled : ledger (λ _, True) (run own l)).
  { apply run_ledger, Forall_forall. intros; exact I. }
  set (s := run own l) in *.
  destruct ec as [e c]. destruct c; unfold step, commit; cbn [fst snd].
  - destruct (create_escrow _ _ _ _ _ _ _) as [[v s']| |] eqn:H;
      eauto using escrow_extends_refl.
    apply create_escrow_Ok in H as (_ & _ & _ & _ & _ & _ & _ & Hacc).
    rewrite Hacc. rewrite lookup_insert_ne; eauto using escrow_extends_refl.
    intros <-. rewrite (led_fresh_escrow _ _ Hled) in Hl by lia. done.
  - destruct (add_milestone _ _ _ _ _ _ _) as [[v s']| |] eqn:H;
      eauto using escrow_extends_refl.
    apply add_milestone_Ok in H as (_ & _ & _ & Hacc).
    eauto using lookup_extends_frame.
  - destruct (complete_milestone _ _ _ _) as [[v s']| |] eqn:H;
      eauto using escrow_extends_refl.
    apply complete_milestone_Ok in H as (_ & _ & _ & Hacc).
    eauto using lookup_extends_frame.
  - destruct (release_funds _ _ _ _ _) as [[v s']| |] eqn:H;
      eauto using escrow_extends_refl.
    apply release_funds_Ok in H as (old & Hold & _ & _ & _ & _ & _ & _ & Hacc).
    eapply lookup_extends_insert; eauto.
    unfold escrow_extends; simpl. repeat split; try lia; ext_status.
  - destruct (release_milestone_funds _ _ _ _) as [[v s']| |] eqn:H;
      eauto using escrow_extends_refl.
    apply release_milestone_funds_Ok in H
      as (old & ms & Hold & _ & _ & _ & _ & _ & _ & _ & Hacc).
    eapply lookup_extends_insert; eauto.
    unfold escrow_extends; simpl. repeat split; try lia; ext_status.
  - destruct (refund_escrow _ _ _) as [[v s']| |] eqn:H;
      eauto using escrow_extends_refl.
    apply refund_escrow_Ok in H as (old & Hold & _ & _ & _ & _ & _ & _ & _ & _ & Hacc).
    eapply lookup_extends_insert; eauto.
    unfold escrow_extends; simpl. repeat split; try lia; ext_status.
  - destruct (emergency_withdrawal _ _ _) as [[v s']| |] eqn:H;
      eauto using escrow_extends_refl.
    apply emergency_withdrawal_Ok in H as (old & Hold & _ & _ & _ & _ & _ & Hacc).
    eapply lookup_extends_insert; eauto.
    unfold escrow_extends; simpl. repeat split; try lia; try ext_status.
    destruct (Hwf _ _ Hold) as [[_ ?]|[[_ ?]|[[_ ?]|[_ ?]]]]; lia.
  - destruct (extend_escrow_period _ _ _ _) as [[v s']| |] eqn:H;
      eauto using escrow_extends_refl.
    apply extend_escrow_period_Ok in H as (old & Hold & _ & _ & _ & _ & _ & Hacc).
    eapply lookup_extends_insert; eauto.
    unfold escrow_extends; simpl. repeat split; try lia; ext_status.
  - destruct (set_min_escrow_amount _ _ _ _) as [[v s']| |] eqn:H;
      eauto using escrow_extends_refl.
    apply set_min_escrow_amount_Ok in H as (_ & _ & _ & Hacc).
    eauto using lookup_extends_frame.
  - destruct (set_emergency_fee _ _ _ _) as [[v s']| |] eqn:H;
      eauto using escrow_extends_refl.
    apply set_emergency_fee_Ok in H as (_ & _ & _ & Hacc).
    eauto using lookup_extends_frame.
Qed.

Lemma run_extends own l l' id esc :
  escrow_accounts (run own l) !! id = Some esc →
  ∃ esc', escrow_accounts (run own (l ++ l')) !! id = Some esc'
          ∧ escrow_extends esc esc'.
Proof.
  intros Hl. induction l' as [|ec l' IH] using rev_ind.
  - rewrite app_nil_r. eauto using escrow_extends_refl.
  - destruct IH as (mid & Hmid & Hext).
    rewrite app_assoc, run_snoc.
    destruct (step_extends own (l ++ l') ec id mid Hmid) as (esc' & Hl' & Hext').
    eauto using escrow_extends_trans.
Qed.

(** X1: once an escrow exists, no later sequence of calls (by anyone, at
    any time) removes it or changes its campaign, depositor, beneficiary,
    amount, creation time or milestone flag; its released amount and
    expiry never decrease and, once it has left the Active status, it
    never returns to it. *)
Theorem escrow_never_rewritten own l l' id esc :
  escrow_accounts (run own l) !! id = Some esc →
  ∃ esc', escrow_accounts (run own (l ++ l')) !! id = Some esc'
          ∧ escrow_extends esc esc'.
Proof. apply run_extends. Qed.

Lemma escrow_never_rewritten_witness :
  escrow_accounts (run owner (take 2 two_escrows_trace)) !! 1 = Some first_escrow
  ∧ ∃ esc', escrow_accounts (run owner two_escrows_trace) !! 1 = Some esc'
            ∧ escrow_extends first_escrow esc'.
Proof.
  split; [vm_compute; reflexivity|].
  apply (escrow_never_rewritten owner (take 2 two_escrows_trace)
           (drop 2 two_escrows_trace) 1 first_escrow).
  vm_compute; reflexivity.
Defined.

(** ** Aggregates *)

Lemma amount_sum_insert_fresh f (m : gmap N escrow) (k : N) (e : escrow) :
  m !! k = None →
  amount_sum f (<[k := e]> m) = (if f e then amount e else 0) + amount_sum f m.
Proof.
  intros Hk. unfold amount_sum.
  rewrite map_fold_insert_L; [|intros; repeat case_match; lia|done].
  case_match; lia.
Qed.

Lemma amount_sum_insert_same f (m : gmap N escrow) (k : N) (e e' : escrow) :
  m !! k = Some e → f e' = f e → amount e' = amount e →
  amount_sum f (<[k := e']> m) = amount_sum f m.
Proof.
  intros Hk Hf Ha.
  rewrite <- (insert_delete_id m k e Hk) at 2.
  rewrite <- (insert_delete_eq m k e').
  rewrite !amount_sum_insert_fresh by apply lookup_delete_eq.
  by rewrite Hf, Ha.
Qed.

Lemma amount_sum_extends f (m : gmap N escrow) (k : N) (e e' : escrow) :
  m !! k = Some e → escrow_extends e e' → f e' = f e →
  amount_sum f (<[k := e']> m) = amount_sum f m.
Proof.
  intros Hk (_ & _ & _ & Ha & _) Hf. by eapply amount_sum_insert_same.
Qed.

Section Aggregates.
Variable contract_owner : principal.

(** What [create-escrow] does to the aggregates. *)
Lemma create_escrow_aggregates e c b a d r s v s' :
  create_escrow e c b a d r s = Ok (v, s') →
  total_escrowed s' = total_escrowed s + a
  ∧ emergency_withdrawal_fee s' = emergency_withdrawal_fee s
  ∧ pending_escrows s'
    = <[tx_sender e := {| total_locked := total_locked (pending_record (tx_sender e) s) + a;
                          total_escrowed_out :=
                            total_escrowed_out (pending_record (tx_sender e) s) |}]>
        (pending_escrows s).
Proof.
  unfold create_escrow, update_user_pending, pending_record. intros H.
  tx_inv; repeat split; auto.
Qed.

Lemma add_milestone_aggregates e i d a dl h s v s' :
  add_milestone e i d a dl h s = Ok (v, s') →
  keeps_aggregates s s' ∧ emergency_withdrawal_fee s' = emergency_withdrawal_fee s.
Proof.
  unfold add_milestone, get_escrow, get_milestone_count, keeps_aggregates.
  intros H. tx_inv; repeat split; auto.
Qed.

Lemma complete_milestone_aggregates e i m s v s' :
  complete_milestone e i m s = Ok (v, s') →
  keeps_aggregates s s' ∧ emergency_withdrawal_fee s' = emergency_withdrawal_fee s.
Proof.
  unfold complete_milestone, get_escrow, get_milestone, get_milestone_count,
    keeps_aggregates.
  intros H. tx_inv; repeat split; auto.
Qed.

Lemma release_funds_aggregates e i a r s v s' :
  release_funds e i a r s = Ok (v, s') →
  keeps_aggregates s s' ∧ emergency_withdrawal_fee s' = emergency_withdrawal_fee s.
Proof.
  unfold release_funds, get_escrow, keeps_aggregates.
  intros H. tx_inv; repeat split; auto.
Qed.

Lemma release_milestone_funds_aggregates e i m s v s' :
  release_milestone_funds e i m s = Ok (v, s') →
  keeps_aggregates s s' ∧ emergency_withdrawal_fee s' = emergency_withdrawal_fee s.
Proof.
  unfold release_milestone_funds, get_escrow, get_milestone, keeps_aggregates.
  intros H. tx_inv; repeat split; auto.
Qed.

Lemma refund_escrow_aggregates e i s v s' :
  refund_escrow e i s = Ok (v, s') →
  keeps_aggregates s s' ∧ emergency_withdrawal_fee s' = emergency_withdrawal_fee s.
Proof.
  unfold refund_escrow, get_escrow, keeps_aggregates.
  intros H. tx_inv; repeat split; auto.
Qed.

Lemma emergency_withdrawal_aggregates e i s v s' :
  emergency_withdrawal e i s = Ok (v, s') →
  keeps_aggregates s s' ∧ emergency_withdrawal_fee s' = emergency_withdrawal_fee s.
Proof.
  unfold emergency_withdrawal, calculate_emergency_fee, get_escrow, keeps_aggregates.
  intros H. tx_inv; repeat split; auto.
Qed.

Lemma extend_escrow_period_aggregates e i t s v s' :
  extend_escrow_period e i t s = Ok (v, s') →
  keeps_aggregates s s' ∧ emergency_withdrawal_fee s' = emergency_withdrawal_fee s.
Proof.
  unfold extend_escrow_period, get_escrow, keeps_aggregates.
  intros H. tx_inv; repeat split; auto.
Qed.

Lemma set_min_escrow_amount_aggregates e n s v s' :
  set_min_escrow_amount contract_owner e n s = Ok (v, s') →
  keeps_aggregates s s' ∧ emergency_withdrawal_fee s' = emergency_withdrawal_fee s.
Proof.
  unfold set_min_escrow_amount, keeps_aggregates.
  intros H. tx_inv; repeat split; auto.
Qed.

Lemma set_emergency_fee_aggregates e n s v s' :
  set_emergency_fee contract_owner e n s = Ok (v, s') →
  keeps_aggregates s s' ∧ emergency_withdrawal_fee s' = n ∧ n ≤ 50
  ∧ tx_sender e = contract_owner.
Proof.
  unfold set_emergency_fee, keeps_aggregates.
  intros H. tx_inv; repeat split; auto.
Qed.

Lemma aggregates_init : aggregates init.
Proof.
  split; simpl.
  - intros id. rewrite lookup_empty. split; [intros [? ?]; done | lia].
  - reflexivity.
  - intros user. reflexivity.
  - lia.
Qed.

(** A write to an existing escrow that keeps what [escrow_extends] keeps. *)
Lemma aggregates_update s s' id old new :
  aggregates s →
  escrow_accounts s !! id = Some old → escrow_extends old new →
  escrow_nonce s' = escrow_nonce s →
  escrow_accounts s' = <[id := new]> (escrow_accounts s) →
  keeps_aggregates s s' ∧ emergency_withdrawal_fee s' = emergency_withdrawal_fee s →
  aggregates s'.
Proof.
  intros [H1 H2 H3 H4] Hold Hext En Ea [[Et Ep] Ef].
  split; rewrite ?En, ?Ea, ?Et, ?Ef; auto.
  - intros j. rewrite lookup_insert_is_Some', <- H1.
    split; [intros [<-|?]; eauto | auto].
  - rewrite H2. symmetry. by eapply amount_sum_extends.
  - intros user. unfold pending_record in *. rewrite Ep, H3. symmetry.
    eapply amount_sum_extends; eauto.
    unfold deposited_by. destruct Hext as (_ & -> & _). done.
Qed.

Lemma aggregates_frame s s' :
  aggregates s →
  escrow_nonce s' = escrow_nonce s →
  escrow_accounts s' = escrow_accounts s →
  keeps_aggregates s s' →
  emergency_withdrawal_fee s' ≤ 50 →
  aggregates s'.
Proof.
  intros [H1 H2 H3 H4] En Ea [Et Ep] Ef.
  split; rewrite ?En, ?Ea, ?Et; auto.
  intros user. unfold pending_record in *. rewrite Ep. apply H3.
Qed.

Lemma step_aggregates l ec :
  aggregates (run contract_owner l) →
  aggregates (step contract_owner (run contract_owner l) ec).
Proof.
  intros Hagg. pose proof (run_wf contract_owner l) as Hwf.
  set (s := run contract_owner l) in *.
  destruct ec as [e c]. destruct c; unfold step, commit; cbn [fst snd].
  - destruct (create_escrow _ _ _ _ _ _ _) as [[v s']| |] eqn:H; auto.
    pose proof (create_escrow_aggregates _ _ _ _ _ _ _ _ _ H) as (Et & Ef & Ep).
    apply create_escrow_Ok in H as (_ & _ & _ & _ & En & _ & _ & Ea).
    destruct Hagg as [H1 H2 H3 H4].
    assert (Hnone : escrow_accounts s !! (escrow_nonce s + 1) = None).
    { apply eq_None_not_Some. rewrite H1. lia. }
    split; rewrite ?En, ?Ea, ?Et, ?Ef; auto.
    + intros j. rewrite lookup_insert_is_Some', H1. lia.
    + rewrite amount_sum_insert_fresh by done. simpl. rewrite H2. lia.
    + intros user. rewrite amount_sum_insert_fresh by done. simpl.
      unfold pending_record at 1. rewrite Ep.
      specialize (H3 user). unfold deposited_by in *. simpl.
      case_bool_decide as Hu.
      * subst user. rewrite lookup_insert_eq. simpl. lia.
      * rewrite lookup_insert_ne by done. apply H3.
  - destruct (add_milestone _ _ _ _ _ _ _) as [[v s']| |] eqn:H; auto.
    pose proof (add_milestone_aggregates _ _ _ _ _ _ _ _ _ H) as [Hk Ef].
    apply add_milestone_Ok in H as (En & _ & _ & Ea).
    eapply aggregates_frame; eauto. rewrite Ef. apply Hagg.
  - destruct (complete_milestone _ _ _ _) as [[v s']| |] eqn:H; auto.
    pose proof (complete_milestone_aggregates _ _ _ _ _ _ H) as [Hk Ef].
    apply complete_milestone_Ok in H as (En & _ & _ & Ea).
    eapply aggregates_frame; eauto. rewrite Ef. apply Hagg.
  - destruct (release_funds _ _ _ _ _) as [[v s']| |] eqn:H; auto.
    pose proof (release_funds_aggregates _ _ _ _ _ _ _ H) as Hk.
    apply release_funds_Ok in H as (old & Hold & _ & _ & _ & En & _ & _ & Ea).
    eapply aggregates_update; eauto.
    unfold escrow_extends; simpl. repeat split; try lia; ext_status.
  - destruct (release_milestone_funds _ _ _ _) as [[v s']| |] eqn:H; auto.
    pose proof (release_milestone_funds_aggregates _ _ _ _ _ _ H) as Hk.
    apply release_milestone_funds_Ok in H
      as (old & ms & Hold & _ & _ & _ & _ & En & _ & _ & Ea).
    eapply aggregates_update; eauto.
    unfold escrow_extends; simpl. repeat split; try lia; ext_status.
  - destruct (refund_escrow _ _ _) as [[v s']| |] eqn:H; auto.
    pose proof (refund_escrow_aggregates _ _ _ _ _ H) as Hk.
    apply refund_escrow_Ok in H as (old & Hold & _ & _ & _ & _ & _ & En & _ & _ & Ea).
    eapply aggregates_update; eauto.
    unfold escrow_extends; simpl. repeat split; try lia; ext_status.
  - destruct (emergency_withdrawal _ _ _) as [[v s']| |] eqn:H; auto.
    pose proof (emergency_withdrawal_aggregates _ _ _ _ _ H) as Hk.
    apply emergency_withdrawal_Ok in H as (old & Hold & _ & _ & En & _ & _ & Ea).
    eapply aggregates_update; eauto.
    unfold escrow_extends; simpl. repeat split; try lia; try ext_status.
    destruct (Hwf _ _ Hold) as [[_ ?]|[[_ ?]|[[_ ?]|[_ ?]]]]; lia.
  - destruct (extend_escrow_period _ _ _ _) as [[v s']| |] eqn:H; auto.
    pose proof (extend_escrow_period_aggregates _ _ _ _ _ _ H) as Hk.
    apply extend_escrow_period_Ok in H as (old & Hold & _ & _ & En & _ & _ & Ea).
    eapply aggregates_update; eauto.
    unfold escrow_extends; simpl. repeat split; try lia; ext_status.
  - destruct (set_min_escrow_amount _ _ _ _) as [[v s']| |] eqn:H; auto.
    pose proof (set_min_escrow_amount_aggregates _ _ _ _ _ H) as [Hk Ef].
    apply set_min_escrow_amount_Ok in H as (En & _ & _ & Ea).
    eapply aggregates_frame; eauto. rewrite Ef. apply Hagg.
  - destruct (set_emergency_fee _ _ _ _) as [[v s']| |] eqn:H; auto.
    pose proof (set_emergency_fee_aggregates _ _ _ _ _ H) as (Hk & Ef & Hle & _).
    apply set_emergency_fee_Ok in H as (En & _ & _ & Ea).
    eapply aggregates_frame; eauto. by rewrite Ef.
Qed.

Lemma run_aggregates l : aggregates (run contract_owner l).
Proof.
  induction l as [|ec l IH] using rev_ind.
  - apply aggregates_init.
  - rewrite run_snoc. by apply step_aggregates.
Qed.

End Aggregates.

(** X2: escrow identifiers are allocated in sequence from 1: after any
    sequence of calls the escrows that exist are exactly those numbered
    1 to [escrow-nonce]. *)
Theorem escrow_ids_sequential own l id :
  is_Some (escrow_accounts (run own l) !! id)
  ↔ 1 ≤ id ∧ id ≤ escrow_nonce (run own l).
Proof. apply (agg_ids _ (run_aggregates own l)). Qed.

(** X3: after any sequence of calls, [total-escrowed] is the sum of the
    amounts of all escrows ever created and each user's [total-locked] is
    the sum of the amounts of the escrows that user deposited: releases,
    refunds and emergency withdrawals never lower them. *)
Theorem escrow_totals_reconcile own l :
  total_escrowed (run own l) = amount_sum (λ _, true) (escrow_accounts (run own l))
  ∧ ∀ user, total_locked (pending_record user (run own l))
            = amount_sum (deposited_by user) (escrow_accounts (run own l)).
Proof.
  split; [apply (agg_total _ (run_aggregates own l))
         | apply (agg_locked _ (run_aggregates own l))].
Qed.

(** X4: the emergency fee never exceeds 50 percent: it is 10 at deployment
    and [set-emergency-fee] rejects a caller other than the owner with
    [err-owner-only] and a fee above 50 with [err-invalid-amount];
    otherwise the fee becomes the given one. *)
Theorem emergency_fee_bounded own l :
  emergency_withdrawal_fee (run own l) ≤ 50
  ∧ (∀ e n s, tx_sender e ≠ own → set_emergency_fee own e n s = Err err_owner_only)
  ∧ (∀ e n s, tx_sender e = own → 50 < n →
              set_emergency_fee own e n s = Err err_invalid_amount)
  ∧ (∀ e n s, tx_sender e = own → n ≤ 50 →
              set_emergency_fee own e n s
              = Ok (true, set_emergency_withdrawal_fee n s)
              ∧ emergency_withdrawal_fee (set_emergency_withdrawal_fee n s) = n).
Proof.
  split; [apply (agg_fee _ (run_aggregates own l))|].
  split; [|split]; intros e n s Hs; unfold set_emergency_fee; tx_unfold.
  - by rewrite bool_decide_eq_false_2.
  - intros Hn. rewrite bool_decide_eq_true_2 by done.
    by rewrite (proj2 (N.leb_gt _ _) Hn).
  - intros Hn. rewrite bool_decide_eq_true_2 by done.
    by rewrite (proj2 (N.leb_le _ _) Hn).
Qed.

Lemma half_after_fee a fee :
  fee ≤ 50 → a * fee / 100 ≤ a ∧ a / 2 ≤ a - a * fee / 100.
Proof.
  intros Hfee.
  assert (Hhalf : a * fee / 100 ≤ a / 2).
  { transitivity (a * 50 / 100).
    - apply N.Div0.div_le_mono. nia.
    - replace 100 with (2 * 50) by done. rewrite N.Div0.div_mul_cancel_r by done.
      done. }
  pose proof (N.Div0.mul_div_le a 2) as H2.
  split; lia.
Qed.

(** X5: on a store reached by calls, [emergency-withdrawal] by the depositor
    of an Active escrow returns the amount less the fee
    [floor(amount * fee / 100)], which is at least half the amount, and
    leaves the escrow Refunded with its released amount equal to its
    amount. *)
Theorem emergency_withdrawal_spec own l e id esc :
  escrow_accounts (run own l) !! id = Some esc →
  tx_sender e = depositor esc →
  status esc = STATUS_ACTIVE →
  amount esc * 50 ≤ uint_max →
  ∃ s', emergency_withdrawal e id (run own l)
        = Ok (amount esc - amount esc * emergency_withdrawal_fee (run own l) / 100, s')
        ∧ escrow_accounts s' !! id
          = Some (merge_released_status esc (amount esc) STATUS_REFUNDED)
        ∧ amount esc / 2
          ≤ amount esc - amount esc * emergency_withdrawal_fee (run own l) / 100
        ∧ (status <$> escrow_accounts s' !! id) = Some STATUS_REFUNDED
        ∧ (released_amount <$> escrow_accounts s' !! id) = Some (amount esc).
Proof.
  intros Hl Hsender Hactive Hfit.
  pose proof (agg_fee _ (run_aggregates own l)) as Hfee.
  pose proof (run_wf own l _ _ Hl) as Hok.
  assert (Hrel : released_amount esc = 0).
  { unfold escrow_ok, STATUS_ACTIVE, STATUS_PARTIALLY_RELEASED, STATUS_RELEASED,
      STATUS_REFUNDED in *.
    destruct Hok as [[_ ?]|[[? _]|[[? _]|[? _]]]]; lia. }
  destruct (half_after_fee (amount esc) _ Hfee) as [Hle Hhalf].
  unfold emergency_withdrawal, calculate_emergency_fee, get_escrow. tx_unfold.
  rewrite Hl, Hrel. simpl. rewrite N.sub_0_r.
  rewrite (proj2 (N.leb_le 0 (amount esc))) by lia. simpl.
  rewrite (proj2 (N.leb_le (amount esc * _) uint_max)) by nia.
  simpl. rewrite (proj2 (N.leb_le _ _) Hle).
  rewrite bool_decide_eq_true_2 by done.
  rewrite (proj2 (N.eqb_eq _ _) Hactive).
  eexists. split; [reflexivity|]. simpl. rewrite lookup_insert_eq. done.
Qed.

Lemma emergency_withdrawal_spec_witness :
  escrow_accounts (run owner (take 1 withdrawn_trace)) !! 1 = Some first_escrow
  ∧ ∃ s', emergency_withdrawal (Env alice 11) 1 (run owner (take 1 withdrawn_trace))
          = Ok (900000, s')
          ∧ escrow_accounts s' !! 1
            = Some (merge_released_status first_escrow 1000000 STATUS_REFUNDED)
          ∧ 500000 ≤ 900000
          ∧ (status <$> escrow_accounts s' !! 1) = Some STATUS_REFUNDED
          ∧ (released_amount <$> escrow_accounts s' !! 1) = Some 1000000.
Proof.
  split; [vm_compute; reflexivity|].
  apply (emergency_withdrawal_spec owner (take 1 withdrawn_trace) (Env alice 11) 1
           first_escrow); vm_compute; (reflexivity || discriminate).
Defined.

(** X6: [release-funds] by the depositor of an Active escrow for more than
    the unreleased balance fails with [err-insufficient-funds]. *)
Theorem release_funds_over_balance e id amt reason s esc :
  escrow_accounts s !! id = Some esc →
  tx_sender e = depositor esc →
  status esc = STATUS_ACTIVE →
  released_amount esc ≤ amount esc →
  milestone_nonce s < uint_max →
  amount esc - released_amount esc < amt →
  release_funds e id amt reason s = Err err_insufficient_funds.
Proof.
  intros Hl Hsender Hactive Hle Hnonce Hover.
  unfold release_funds, get_escrow. tx_unfold. rewrite Hl.
  rewrite (proj2 (N.leb_le _ _) Hle).
  rewrite (proj2 (N.leb_le (milestone_nonce s + 1) uint_max)) by lia.
  rewrite bool_decide_eq_true_2 by done.
  rewrite (proj2 (N.eqb_eq _ _) Hactive).
  by rewrite (proj2 (N.leb_gt _ _) Hover).
Qed.

Lemma release_funds_over_balance_witness :
  release_funds (Env alice 12) 1 1000001 "too much" (run owner (take 1 withdrawn_trace))
  = Err err_insufficient_funds.
Proof.
  apply (release_funds_over_balance (Env alice 12) 1 1000001 "too much"
           (run owner (take 1 withdrawn_trace)) first_escrow);
    vm_compute; (reflexivity || discriminate).
Defined.

(** X7: [release-funds], [emergency-withdrawal], [extend-escrow-period] and
    [add-milestone] work on Active escrows only, and an escrow that has
    left Active stays out: once the status of an escrow is not Active, each
    of these calls on it fails in every later store, whoever calls. *)
Theorem left_active_calls_fail own l l' id esc e :
  escrow_accounts (run own l) !! id = Some esc →
  status esc ≠ STATUS_ACTIVE →
  (∀ amt reason, failed (release_funds e id amt reason (run own (l ++ l'))))
  ∧ failed (emergency_withdrawal e id (run own (l ++ l')))
  ∧ (∀ t, failed (extend_escrow_period e id t (run own (l ++ l'))))
  ∧ (∀ d a dl h, failed (add_milestone e id d a dl h (run own (l ++ l')))).
Proof.
  intros Hl Hst.
  destruct (run_extends own l l' id esc Hl) as (esc' & Hl' & Hext).
  assert (Hst' : status esc' ≠ STATUS_ACTIVE) by (apply Hext; done).
  repeat split; intros.
  - destruct (release_funds _ _ _ _ _) as [[v s']| |] eqn:H; simpl; auto.
    apply release_funds_Ok in H as (x & Hx & _ & Hact & _). congruence.
  - destruct (emergency_withdrawal _ _ _) as [[v s']| |] eqn:H; simpl; auto.
    apply emergency_withdrawal_Ok in H as (x & Hx & _ & Hact & _). congruence.
  - destruct (extend_escrow_period _ _ _ _) as [[v s']| |] eqn:H; simpl; auto.
    apply extend_escrow_period_Ok in H as (x & Hx & _ & Hact & _). congruence.
  - destruct (add_milestone _ _ _ _ _ _ _) as [[v s']| |] eqn:H; simpl; auto.
    unfold add_milestone, get_escrow in H. tx_inv. congruence.
Qed.

Lemma left_active_calls_fail_witness :
  failed (emergency_withdrawal (Env alice 40) 1 (run owner two_escrows_trace)).
Proof.
  refine (proj1 (proj2 (left_active_calls_fail owner two_escrows_trace [] 1
                          first_escrow_released (Env alice 40) _ _)));
    vm_compute; (reflexivity || discriminate).
Defined.

(** ** Milestones *)


Section Milestones.
Variable contract_owner : principal.

Lemma create_escrow_milestones e c b a d r s v s' :
  create_escrow e c b a d r s = Ok (v, s') →
  escrow_milestones s' = escrow_milestones s
  ∧ milestone_count s'
    = (if r then <[escrow_nonce s + 1 := {| total := 0; completed := 0 |}]>
                   (milestone_count s)
       else milestone_count s).
Proof.
  unfold create_escrow, update_user_pending. intros H. tx_inv; split; auto.
Qed.

Lemma add_milestone_milestones e i d a dl h s v s' :
  add_milestone e i d a dl h s = Ok (v, s') →
  v = total (get_milestone_count i s) + 1
  ∧ is_Some (escrow_accounts s !! i)
  ∧ escrow_milestones s'
    = <[(i, v) := {| ms_description := d; ms_amount := a;
                     ms_status := MILESTONE_PENDING; ms_condition_hash := h;
                     ms_deadline := dl; ms_completed_at := 0 |}]>
        (escrow_milestones s)
  ∧ milestone_count s'
    = <[i := {| total := v; completed := completed (get_milestone_count i s) |}]>
        (milestone_count s).
Proof.
  unfold add_milestone, get_escrow. intros H. tx_inv; repeat split; eauto.
Qed.

Lemma complete_milestone_milestones e i m s v s' :
  complete_milestone e i m s = Ok (v, s') →
  ∃ esc ms,
    escrow_accounts s !! i = Some esc
    ∧ escrow_milestones s !! (i, m) = Some ms
    ∧ tx_sender e = beneficiary esc
    ∧ ms_status ms = MILESTONE_PENDING
    ∧ escrow_milestones s'
      = <[(i, m) := completed_milestone ms (stacks_block_time e)]> (escrow_milestones s)
    ∧ milestone_count s'
      = <[i := {| total := total (get_milestone_count i s);
                  completed := completed (get_milestone_count i s) + 1 |}]>
          (milestone_count s).
Proof.
  unfold complete_milestone, get_escrow, get_milestone. intros H.
  tx_inv; do 2 eexists; repeat split; eauto.
Qed.

Lemma release_funds_milestones e i a r s v s' :
  release_funds e i a r s = Ok (v, s') →
  escrow_milestones s' = escrow_milestones s ∧ milestone_count s' = milestone_count s.
Proof. unfold release_funds, get_escrow. intros H. tx_inv; split; auto. Qed.

Lemma release_milestone_funds_milestones e i m s v s' :
  release_milestone_funds e i m s = Ok (v, s') →
  escrow_milestones s' = escrow_milestones s ∧ milestone_count s' = milestone_count s.
Proof.
  unfold release_milestone_funds, get_escrow, get_milestone. intros H.
  tx_inv; split; auto.
Qed.

Lemma refund_escrow_milestones e i s v s' :
  refund_escrow e i s = Ok (v, s') →
  escrow_milestones s' = escrow_milestones s ∧ milestone_count s' = milestone_count s.
Proof. unfold refund_escrow, get_escrow. intros H. tx_inv; split; auto. Qed.

Lemma emergency_withdrawal_milestones e i s v s' :
  emergency_withdrawal e i s = Ok (v, s') →
  escrow_milestones s' = escrow_milestones s ∧ milestone_count s' = milestone_count s.
Proof.
  unfold emergency_withdrawal, calculate_emergency_fee, get_escrow. intros H.
  tx_inv; split; auto.
Qed.

Lemma extend_escrow_period_milestones e i t s v s' :
  extend_escrow_period e i t s = Ok (v, s') →
  escrow_milestones s' = escrow_milestones s ∧ milestone_count s' = milestone_count s.
Proof. unfold extend_escrow_period, get_escrow. intros H. tx_inv; split; auto. Qed.

Lemma set_min_escrow_amount_milestones e n s v s' :
  set_min_escrow_amount contract_owner e n s = Ok (v, s') →
  escrow_milestones s' = escrow_milestones s ∧ milestone_count s' = milestone_count s.
Proof. unfold set_min_escrow_amount. intros H. tx_inv; split; auto. Qed.

Lemma set_emergency_fee_milestones e n s v s' :
  set_emergency_fee contract_owner e n s = Ok (v, s') →
  escrow_milestones s' = escrow_milestones s ∧ milestone_count s' = milestone_count s.
Proof. unfold set_emergency_fee. intros H. tx_inv; split; auto. Qed.

Lemma milestones_wf_init : milestones_wf init.
Proof.
  split; simpl.
  - intros id mid. unfold get_milestone_count. simpl. rewrite !lookup_empty. simpl.
    split; [intros [? ?]; done | lia].
  - intros id. rewrite lookup_empty. intros [? ?]; done.
Qed.

Lemma milestones_wf_frame s s' :
  milestones_wf s →
  escrow_nonce s' = escrow_nonce s →
  escrow_milestones s' = escrow_milestones s ∧ milestone_count s' = milestone_count s →
  milestones_wf s'.
Proof.
  intros [H1 H2] En [Em Ec]. split.
  - intros id mid. unfold get_milestone_count in *. rewrite Em, Ec. apply H1.
  - intros id. rewrite Ec, En. apply H2.
Qed.

Lemma step_milestones_wf l ec :
  milestones_wf (run contract_owner l) →
  milestones_wf (step contract_owner (run contract_owner l) ec).
Proof.
  intros Hm. pose proof (run_aggregates contract_owner l) as Hagg.
  set (s := run contract_owner l) in *.
  destruct ec as [e c]. destruct c; unfold step, commit; cbn [fst snd].
  - destruct (create_escrow _ _ _ _ _ _ _) as [[v s']| |] eqn:H; auto.
    pose proof (create_escrow_milestones _ _ _ _ _ _ _ _ _ H) as [Em Ec].
    apply create_escrow_Ok in H as (_ & _ & _ & _ & En & _ & _ & _).
    destruct Hm as [H1 H2].
    assert (Hnone : milestone_count s !! (escrow_nonce s + 1) = None).
    { apply eq_None_not_Some. intros Hs. apply H2 in Hs. lia. }
    split.
    + intros id mid. rewrite Em, H1.
      assert (Hc : get_milestone_count id s' = get_milestone_count id s).
      { unfold get_milestone_count. rewrite Ec. destruct req; [|done].
        destruct (decide (id = escrow_nonce s + 1)) as [->|Hne].
        - rewrite lookup_insert_eq, Hnone. done.
        - by rewrite lookup_insert_ne. }
      by rewrite Hc.
    + intros id. rewrite Ec, En. destruct req.
      * rewrite lookup_insert_is_Some'. intros [<-|Hs]; [lia|]. apply H2 in Hs. lia.
      * intros Hs. apply H2 in Hs. lia.
  - destruct (add_milestone _ _ _ _ _ _ _) as [[v s']| |] eqn:H; auto.
    pose proof (add_milestone_milestones _ _ _ _ _ _ _ _ _ H) as (-> & Hex & Em & Ec).
    apply add_milestone_Ok in H as (En & _ & _ & _).
    destruct Hm as [H1 H2]. split.
    + intros id mid. rewrite Em, lookup_insert_is_Some', H1.
      destruct (decide (id = escrow_id)) as [->|Hne].
      * assert (Hc : total (get_milestone_count escrow_id s')
                     = total (get_milestone_count escrow_id s) + 1).
        { unfold get_milestone_count at 1. by rewrite Ec, lookup_insert_eq. }
        rewrite Hc. split; [intros [[= <-]|?]; lia|].
        intros [? ?].
        destruct (decide (mid = total (get_milestone_count escrow_id s) + 1))
          as [->|?]; [by left | right; lia].
      * assert (Hc : get_milestone_count id s' = get_milestone_count id s).
        { unfold get_milestone_count. by rewrite Ec, lookup_insert_ne. }
        rewrite Hc.
        split; [intros [[= ? ?]|?]; [congruence | done] | by right].
    + intros id. rewrite Ec, En, lookup_insert_is_Some'.
      intros [<-|Hs]; [|by apply H2].
      apply (agg_ids _ Hagg) in Hex. lia.
  - destruct (complete_milestone _ _ _ _) as [[v s']| |] eqn:H; auto.
    pose proof (complete_milestone_milestones _ _ _ _ _ _ H)
      as (esc & ms & Hesc & Hms & _ & _ & Em & Ec).
    apply complete_milestone_Ok in H as (En & _ & _ & _).
    destruct Hm as [H1 H2]. split.
    + intros id mid. rewrite Em, lookup_insert_is_Some', H1.
      assert (Hc : total (get_milestone_count id s') = total (get_milestone_count id s)).
      { unfold get_milestone_count at 1. rewrite Ec.
        destruct (decide (id = escrow_id)) as [->|Hne].
        - by rewrite lookup_insert_eq.
        - by rewrite lookup_insert_ne. }
      rewrite Hc.
      split; [intros [[= <- <-]|?]; [apply H1; eauto | done] | by right].
    + intros id. rewrite Ec, En, lookup_insert_is_Some'.
      intros [<-|Hs]; [|by apply H2].
      assert (Hex : is_Some (escrow_accounts s !! escrow_id)) by eauto.
      apply (agg_ids _ Hagg) in Hex. lia.
  - destruct (release_funds _ _ _ _ _) as [[v s']| |] eqn:H; auto.
    pose proof (release_funds_milestones _ _ _ _ _ _ _ H) as Hk.
    apply release_funds_Ok in H as (_ & _ & _ & _ & _ & En & _).
    eapply milestones_wf_frame; eauto.
  - destruct (release_milestone_funds _ _ _ _) as [[v s']| |] eqn:H; auto.
    pose proof (release_milestone_funds_milestones _ _ _ _ _ _ H) as Hk.
    apply release_milestone_funds_Ok in H as (_ & _ & _ & _ & _ & _ & _ & En & _).
    eapply milestones_wf_frame; eauto.
  - destruct (refund_escrow _ _ _) as [[v s']| |] eqn:H; auto.
    pose proof (refund_escrow_milestones _ _ _ _ _ H) as Hk.
    apply refund_escrow_Ok in H as (_ & _ & _ & _ & _ & _ & _ & En & _).
    eapply milestones_wf_frame; eauto.
  - destruct (emergency_withdrawal _ _ _) as [[v s']| |] eqn:H; auto.
    pose proof (emergency_withdrawal_milestones _ _ _ _ _ H) as Hk.
    apply emergency_withdrawal_Ok in H as (_ & _ & _ & _ & En & _).
    eapply milestones_wf_frame; eauto.
  - destruct (extend_escrow_period _ _ _ _) as [[v s']| |] eqn:H; auto.
    pose proof (extend_escrow_period_milestones _ _ _ _ _ _ H) as Hk.
    apply extend_escrow_period_Ok in H as (_ & _ & _ & _ & En & _).
    eapply milestones_wf_frame; eauto.
  - destruct (set_min_escrow_amount _ _ _ _) as [[v s']| |] eqn:H; auto.
    pose proof (set_min_escrow_amount_milestones _ _ _ _ _ H) as Hk.
    apply set_min_escrow_amount_Ok in H as (En & _).
    eapply milestones_wf_frame; eauto.
  - destruct (set_emergency_fee _ _ _ _) as [[v s']| |] eqn:H; auto.
    pose proof (set_emergency_fee_milestones _ _ _ _ _ H) as Hk.
    apply set_emergency_fee_Ok in H as (En & _).
    eapply milestones_wf_frame; eauto.
Qed.

Lemma run_milestones_wf l : milestones_wf (run contract_owner l).
Proof.
  induction l as [|ec l IH] using rev_ind.
  - apply milestones_wf_init.
  - rewrite run_snoc. by apply step_milestones_wf.
Qed.

Lemma milestone_extends_refl a : milestone_extends a a.
Proof. unfold milestone_extends. repeat split; done. Qed.

Lemma milestone_extends_trans a b c :
  milestone_extends a b → milestone_extends b c → milestone_extends a c.
Proof.
  unfold milestone_extends.
  intros (? & ? & ? & ? & Hab) (? & ? & ? & ? & Hbc).
  repeat split; try congruence.
  intros Ha. specialize (Hab Ha). subst b. auto.
Qed.

Lemma step_milestone_extends l ec k ms :
  escrow_milestones (run contract_owner l) !! k = Some ms →
  ∃ ms', escrow_milestones (step contract_owner (run contract_owner l) ec) !! k
         = Some ms'
         ∧ milestone_extends ms ms'.
Proof.
  intros Hk. pose proof (run_milestones_wf l) as Hm.
  set (s := run contract_owner l) in *.
  assert (Hframe : ∀ s', escrow_milestones s' = escrow_milestones s ∧
                         milestone_count s' = milestone_count s →
                         ∃ ms', escrow_milestones s' !! k = Some ms'
                                ∧ milestone_extends ms ms').
  { intros s' [-> _]. eauto using milestone_extends_refl. }
  destruct ec as [e c]. destruct c; unfold step, commit; cbn [fst snd].
  - destruct (create_escrow _ _ _ _ _ _ _) as [[v s']| |] eqn:H;
      eauto using milestone_extends_refl.
    apply create_escrow_milestones in H as [-> _].
    eauto using milestone_extends_refl.
  - destruct (add_milestone _ _ _ _ _ _ _) as [[v s']| |] eqn:H;
      eauto using milestone_extends_refl.
    apply add_milestone_milestones in H as (-> & _ & -> & _).
    rewrite lookup_insert_ne; eauto using milestone_extends_refl.
    intros <-. assert (Hs : is_Some (escrow_milestones s !! (escrow_id,
                             total (get_milestone_count escrow_id s) + 1))) by eauto.
    apply (mwf_ids _ Hm) in Hs. lia.
  - destruct (complete_milestone _ _ _ _) as [[v s']| |] eqn:H;
      eauto using milestone_extends_refl.
    apply complete_milestone_milestones in H
      as (esc & old & _ & Hold & _ & Hpending & -> & _).
    destruct (decide ((escrow_id, milestone_id) = k)) as [<-|Hne].
    + rewrite lookup_insert_eq. rewrite Hold in Hk. injection Hk as <-.
      eexists. split; [done|]. unfold milestone_extends; simpl.
      repeat split. rewrite Hpending. discriminate.
    + rewrite lookup_insert_ne by done. eauto using milestone_extends_refl.
  - destruct (release_funds _ _ _ _ _) as [[v s']| |] eqn:H;
      eauto using milestone_extends_refl, release_funds_milestones.
  - destruct (release_milestone_funds _ _ _ _) as [[v s']| |] eqn:H;
      eauto using milestone_extends_refl, release_milestone_funds_milestones.
  - destruct (refund_escrow _ _ _) as [[v s']| |] eqn:H;
      eauto using milestone_extends_refl, refund_escrow_milestones.
  - destruct (emergency_withdrawal _ _ _) as [[v s']| |] eqn:H;
      eauto using milestone_extends_refl, emergency_withdrawal_milestones.
  - destruct (extend_escrow_period _ _ _ _) as [[v s']| |] eqn:H;
      eauto using milestone_extends_refl, extend_escrow_period_milestones.
  - destruct (set_min_escrow_amount _ _ _ _) as [[v s']| |] eqn:H;
      eauto using milestone_extends_refl, set_min_escrow_amount_milestones.
  - destruct (set_emergency_fee _ _ _ _) as [[v s']| |] eqn:H;
      eauto using milestone_extends_refl, set_emergency_fee_milestones.
Qed.

Lemma run_milestone_extends l l' k ms :
  escrow_milestones (run contract_owner l) !! k = Some ms →
  ∃ ms', escrow_milestones (run contract_owner (l ++ l')) !! k = Some ms'
         ∧ milestone_extends ms ms'.
Proof.
  intros Hk. induction l' as [|ec l' IH] using rev_ind.
  - rewrite app_nil_r. eauto using milestone_extends_refl.
  - destruct IH as (mid & Hmid & Hext).
    rewrite app_assoc, run_snoc.
    destruct (step_milestone_extends (l ++ l') ec k mid Hmid) as (ms' & Hk' & Hext').
    eauto using milestone_extends_trans.
Qed.

End Milestones.

(** X8: the milestones of an escrow are numbered in sequence from 1: after
    any sequence of calls the milestones that exist for an escrow are
    exactly those numbered 1 to the total of its [milestone-count]. *)
Theorem milestone_ids_sequential own l id mid :
  is_Some (get_milestone id mid (run own l))
  ↔ 1 ≤ mid ∧ mid ≤ total (get_milestone_count id (run own l)).
Proof. apply (mwf_ids _ (run_milestones_wf own l)). Qed.

(** X9: no later sequence of calls removes a milestone or changes its
    description, amount, condition hash or deadline, and a completed
    milestone is never changed at all. *)
Theorem milestone_never_rewritten own l l' id mid ms :
  get_milestone id mid (run own l) = Some ms →
  ∃ ms', get_milestone id mid (run own (l ++ l')) = Some ms'
         ∧ milestone_extends ms ms'.
Proof. apply run_milestone_extends. Qed.

Lemma milestone_never_rewritten_witness :
  get_milestone 1 1 (run owner (take 3 milestone_trace)) = Some first_milestone
  ∧ ∃ ms', get_milestone 1 1 (run owner milestone_trace) = Some ms'
           ∧ milestone_extends first_milestone ms'.
Proof.
  split; [vm_compute; reflexivity|].
  apply (milestone_never_rewritten owner (take 3 milestone_trace)
           (drop 3 milestone_trace) 1 1 first_milestone).
  vm_compute; reflexivity.
Defined.

(** X10: [add-milestone] by the depositor of an Active escrow that requires
    milestones returns the next number of that escrow and stores a Pending
    milestone under it, whatever its amount (the amount is not compared
    with the escrow's); the other milestones are untouched. *)
Theorem add_milestone_spec e id descr amt dl h s esc :
  escrow_accounts s !! id = Some esc →
  tx_sender e = depositor esc →
  requires_milestones esc = true →
  status esc = STATUS_ACTIVE →
  total (get_milestone_count id s) < uint_max →
  ∃ s', add_milestone e id descr amt dl h s
        = Ok (total (get_milestone_count id s) + 1, s')
        ∧ get_milestone id (total (get_milestone_count id s) + 1) s'
          = Some {| ms_description := descr; ms_amount := amt;
                    ms_status := MILESTONE_PENDING; ms_condition_hash := h;
                    ms_deadline := dl; ms_completed_at := 0 |}
        ∧ get_milestone_count id s'
          = {| total := total (get_milestone_count id s) + 1;
               completed := completed (get_milestone_count id s) |}
        ∧ ∀ k, k ≠ (id, total (get_milestone_count id s) + 1) →
               escrow_milestones s' !! k = escrow_milestones s !! k.
Proof.
  intros Hl Hsender Hreq Hactive Hfit.
  unfold add_milestone, get_escrow. tx_unfold. rewrite Hl.
  rewrite (proj2 (N.leb_le (total (get_milestone_count id s) + 1) uint_max)) by lia.
  rewrite bool_decide_eq_true_2 by done.
  rewrite Hreq, (proj2 (N.eqb_eq _ _) Hactive).
  eexists. split; [reflexivity|].
  unfold get_milestone, get_milestone_count. simpl.
  rewrite !lookup_insert_eq. repeat split.
  intros k Hk. by rewrite lookup_insert_ne.
Qed.

Lemma add_milestone_spec_witness :
  ∃ s', add_milestone (Env alice 11) 1 "everything and more" 5000000 500 None
          (run owner (take 1 milestone_trace))
        = Ok (1, s')
        ∧ (ms_amount <$> get_milestone 1 1 s') = Some 5000000.
Proof.
  destruct (add_milestone_spec (Env alice 11) 1 "everything and more" 5000000 500
              None (run owner (take 1 milestone_trace))
              {| campaign_id := 1; depositor := alice; beneficiary := bob;
                 amount := 1000000; released_amount := 0; status := STATUS_ACTIVE;
                 created_at := 10; expiry := 1010; requires_milestones := true |})
    as (s' & H1 & H2 & _); try (vm_compute; (reflexivity || discriminate)).
  exists s'. split; [exact H1|]. exact (f_equal (fmap ms_amount) H2).
Defined.

(** X11: [complete-milestone] succeeds only for the beneficiary on a
    Pending milestone; it marks the milestone Completed at the current
    time, and completing the same milestone again then fails, whoever
    calls. *)
Theorem complete_milestone_once e id mid s v s' :
  complete_milestone e id mid s = Ok (v, s') →
  ∃ esc ms,
    escrow_accounts s !! id = Some esc
    ∧ get_milestone id mid s = Some ms
    ∧ tx_sender e = beneficiary esc
    ∧ ms_status ms = MILESTONE_PENDING
    ∧ get_milestone id mid s' = Some (completed_milestone ms (stacks_block_time e))
    ∧ ∀ e', failed (complete_milestone e' id mid s').
Proof.
  intros H.
  destruct (complete_milestone_milestones e id mid s v s' H)
    as (esc & ms & Hesc & Hms & Hsender & Hpending & Em & Ec).
  exists esc, ms. unfold get_milestone. rewrite Em, lookup_insert_eq.
  repeat split; auto.
  intros e'.
  destruct (complete_milestone e' id mid s') as [[v' s'']| |] eqn:H'; simpl; auto.
  apply complete_milestone_milestones in H'
    as (esc' & ms' & _ & Hms' & _ & Hpending' & _).
  rewrite Em, lookup_insert_eq in Hms'. injection Hms' as <-.
  simpl in Hpending'. discriminate.
Qed.

Lemma complete_milestone_once_witness :
  ∃ esc ms,
    escrow_accounts (run owner (take 2 milestone_trace)) !! 1 = Some esc
    ∧ get_milestone 1 1 (run owner (take 2 milestone_trace)) = Some ms
    ∧ tx_sender (Env bob 12) = beneficiary esc
    ∧ ms_status ms = MILESTONE_PENDING
    ∧ get_milestone 1 1 (run owner (take 3 milestone_trace))
      = Some (completed_milestone ms 12)
    ∧ ∀ e', failed (complete_milestone e' 1 1 (run owner (take 3 milestone_trace))).
Proof.
  apply (complete_milestone_once (Env bob 12) 1 1
           (run owner (take 2 milestone_trace)) true
           (run owner (take 3 milestone_trace))).
  vm_compute; reflexivity.
Defined.

(** X12: [release-milestone-funds] does not mark the milestone as paid:
    after it has succeeded, the same call succeeds again whenever the
    escrow still holds the milestone amount, and releases it a second
    time. *)
Theorem milestone_released_twice e e' id mid s v s' esc ms :
  release_milestone_funds e id mid s = Ok (v, s') →
  escrow_accounts s !! id = Some esc →
  get_milestone id mid s = Some ms →
  tx_sender e' = depositor esc →
  released_amount esc + 2 * ms_amount ms ≤ amount esc →
  amount esc ≤ uint_max →
  milestone_nonce s' < uint_max →
  ∃ s'', release_milestone_funds e' id mid s' = Ok (true, s'')
         ∧ (released_amount <$> escrow_accounts s'' !! id)
           = Some (released_amount esc + 2 * ms_amount ms).
Proof.
  intros H Hesc Hms Hsender Hroom Hamount Hnonce.
  destruct (release_milestone_funds_milestones e id mid s v s' H) as [Em _].
  apply release_milestone_funds_Ok in H
    as (esc0 & ms0 & Hesc0 & Hms0 & _ & Hdone & Hle & _ & _ & _ & Ea).
  unfold get_milestone in Hms. rewrite Hesc in Hesc0. injection Hesc0 as <-.
  rewrite Hms in Hms0. injection Hms0 as <-.
  unfold release_milestone_funds, get_escrow, get_milestone. tx_unfold.
  rewrite Ea, lookup_insert_eq. simpl. rewrite Em, Hms. simpl.
  rewrite (proj2 (N.leb_le (released_amount esc + ms_amount ms) (amount esc))) by lia.
  rewrite (proj2 (N.leb_le (milestone_nonce s' + 1) uint_max)) by lia.
  rewrite bool_decide_eq_true_2 by done.
  rewrite (proj2 (N.eqb_eq _ _) Hdone).
  rewrite (proj2 (N.leb_le (ms_amount ms) _)) by lia.
  rewrite (proj2 (N.leb_le (released_amount esc + ms_amount ms + ms_amount ms)
                    uint_max)) by lia.
  eexists. split; [reflexivity|]. simpl. rewrite lookup_insert_eq. simpl.
  f_equal. lia.
Qed.

Lemma milestone_released_twice_witness :
  ∃ s'', release_milestone_funds (Env alice 14) 1 1 (run owner paid_once_trace)
         = Ok (true, s'')
         ∧ (released_amount <$> escrow_accounts s'' !! 1) = Some 800000.
Proof.
  apply (milestone_released_twice (Env alice 13) (Env alice 14) 1 1
           (run owner (take 3 paid_once_trace)) true (run owner paid_once_trace)
           {| campaign_id := 1; depositor := alice; beneficiary := bob;
              amount := 1000000; released_amount := 0; status := STATUS_ACTIVE;
              created_at := 10; expiry := 1010; requires_milestones := true |}
           {| ms_description := "first delivery"; ms_amount := 400000;
              ms_status := MILESTONE_COMPLETED; ms_condition_hash := None;
              ms_deadline := 500; ms_completed_at := 12 |});
    vm_compute; (reflexivity || discriminate).
Defined.

End EscrowExtra.

(** * Further properties of the dispute registry *)

Module DisputeExtra.
Import Dispute DisputeViews DisputeTheory.

(** ** The store each successful call commits *)

Section Committed.
Variable contract_owner : principal.

Lemma open_dispute_Ok e c p t a d f s v s' :
  open_dispute e c p t a d f s = Ok (v, s') →
  is_valid_dispute_type t = true
  ∧ min_dispute_amount s ≤ a
  ∧ tx_sender e ≠ p
  ∧ v = dispute_nonce s + 1
  ∧ s' = set_dispute_nonce (dispute_nonce s + 1)
           (set_evidence_count (dispute_nonce s + 1) {| total_evidence := 0 |}
              (set_dispute (dispute_nonce s + 1)
                 {| campaign_id := c;
                    advertiser := if f then tx_sender e else p;
                    publisher := if f then p else tx_sender e;
                    dispute_type := t; amount := a; status := STATUS_OPEN;
                    description := d; created_at := stacks_block_time e;
                    updated_at := stacks_block_time e;
                    resolution_deadline := stacks_block_time e + 1440 |} s)).
Proof.
  unfold open_dispute. intros H. tx_steps H. simpl in *. bool_hyps.
  repeat split; auto.
Qed.

Lemma submit_evidence_Ok e i t h d s v s' :
  submit_evidence e i t h d s = Ok (v, s') →
  ∃ dp,
    disputes s !! i = Some dp
    ∧ (tx_sender e = advertiser dp ∨ tx_sender e = publisher dp)
    ∧ total_evidence (get_evidence_count i s) < max_evidence_per_dispute s
    ∧ (status dp = STATUS_OPEN ∨ status dp = STATUS_UNDER_REVIEW)
    ∧ v = total_evidence (get_evidence_count i s) + 1
    ∧ s' = set_evidence_count i {| total_evidence := v |}
             (set_evidence_submission (i, v)
                {| submitter := tx_sender e; evidence_type := t; evidence_hash := h;
                   ev_description := d; submitted_at := stacks_block_time e |} s).
Proof.
  unfold submit_evidence. intros H. tx_steps H. unfold get_dispute in *. simpl in *.
  bool_hyps. eexists. split; [eassumption|].
  repeat split; auto.
  - destruct H2 as [?|?]; bool_hyps; auto.
  - destruct H4 as [?|?]; bool_hyps; auto.
Qed.

Lemma assign_arbitrator_Ok e i a s v s' :
  assign_arbitrator contract_owner e i a s = Ok (v, s') →
  ∃ d,
    disputes s !! i = Some d
    ∧ tx_sender e = contract_owner
    ∧ status d = STATUS_OPEN
    ∧ let st := default {| total_cases := 0; cases_resolved := 0;
                           reputation := 100; active := true |}
                        (arbitrator_stats s !! a) in
      s' = set_arbitrator_stats a
             {| total_cases := total_cases st + 1;
                cases_resolved := cases_resolved st;
                reputation := reputation st; active := active st |}
             (set_dispute i (merge_status d STATUS_UNDER_REVIEW (stacks_block_time e))
                (set_arbitrator_assignment i
                   {| arbitrator := a; assigned_at := stacks_block_time e;
                      decision_deadline := stacks_block_time e + 720 |} s)).
Proof.
  unfold assign_arbitrator. intros H. tx_steps H. unfold get_dispute in *.
  simpl in *. bool_hyps. eexists. repeat split; eauto.
Qed.

Lemma vote_on_dispute_Ok e i o r s v s' :
  vote_on_dispute e i o r s = Ok (v, s') →
  ∃ d a,
    disputes s !! i = Some d
    ∧ arbitrator_assignments s !! i = Some a
    ∧ tx_sender e = arbitrator a
    ∧ status d = STATUS_UNDER_REVIEW
    ∧ is_valid_outcome o = true
    ∧ s' = set_arbitrator_vote (i, tx_sender e)
             {| vote_outcome := o; vote_reasoning := r;
                voted_at := stacks_block_time e |} s.
Proof.
  unfold vote_on_dispute. intros H. tx_steps H.
  unfold get_dispute, get_arbitrator_assignment in *. simpl in *. bool_hyps.
  do 2 eexists. repeat split; eauto.
Qed.

Lemma appeal_decision_Ok e i r s v s' :
  appeal_decision e i r s = Ok (v, s') →
  ∃ d res,
    disputes s !! i = Some d
    ∧ dispute_outcomes s !! i = Some res
    ∧ can_appeal res = true
    ∧ s' = set_dispute i (merge_status d STATUS_APPEALED (stacks_block_time e)) s.
Proof.
  unfold appeal_decision. intros H. tx_steps H.
  unfold get_dispute, get_dispute_outcome in *. simpl in *.
  do 2 eexists. repeat split; eauto.
Qed.

Lemma auto_resolve_dispute_Ok e i s v s' :
  auto_resolve_dispute contract_owner e i s = Ok (v, s') →
  ∃ d,
    disputes s !! i = Some d
    ∧ amount d ≤ auto_resolve_threshold s
    ∧ status d = STATUS_OPEN
    ∧ s' = set_total_disputes_resolved (total_disputes_resolved s + 1)
             (set_dispute_outcome i
                {| outcome := OUTCOME_SPLIT; winner := contract_owner;
                   amount_transferred := amount d / 2;
                   reasoning := "Auto-resolved: small claim split 50/50";
                   resolved_at := stacks_block_time e; can_appeal := false |}
                (set_dispute i (merge_status d STATUS_RESOLVED (stacks_block_time e))
                   s)).
Proof.
  unfold auto_resolve_dispute. intros H. tx_steps H. unfold get_dispute in *.
  simpl in *. bool_hyps. eexists. repeat split; eauto.
Qed.

Lemma close_dispute_Ok e i s v s' :
  close_dispute e i s = Ok (v, s') →
  ∃ d,
    disputes s !! i = Some d
    ∧ status d = STATUS_RESOLVED
    ∧ s' = set_dispute i (merge_status d STATUS_CLOSED (stacks_block_time e)) s.
Proof.
  unfold close_dispute. intros H. tx_steps H. unfold get_dispute in *.
  simpl in *. bool_hyps. eexists. repeat split; eauto.
Qed.

Lemma register_arbitrator_Ok e a s v s' :
  register_arbitrator contract_owner e a s = Ok (v, s') →
  tx_sender e = contract_owner
  ∧ s' = set_arbitrator_stats a
           {| total_cases := 0; cases_resolved := 0; reputation := 100;
              active := true |} s.
Proof.
  unfold register_arbitrator. intros H. tx_steps H. bool_hyps. auto.
Qed.

Lemma deactivate_arbitrator_Ok e a s v s' :
  deactivate_arbitrator contract_owner e a s = Ok (v, s') →
  ∃ st,
    arbitrator_stats s !! a = Some st
    ∧ tx_sender e = contract_owner
    ∧ s' = set_arbitrator_stats a
             {| total_cases := total_cases st; cases_resolved := cases_resolved st;
                reputation := reputation st; active := false |} s.
Proof.
  unfold deactivate_arbitrator. intros H. tx_steps H.
  unfold get_arbitrator_stats in *. bool_hyps. eauto.
Qed.

Lemma set_auto_resolve_threshold_Ok e n s v s' :
  set_auto_resolve_threshold contract_owner e n s = Ok (v, s') →
  tx_sender e = contract_owner ∧ s' = set_auto_resolve_threshold_var n s.
Proof.
  unfold set_auto_resolve_threshold. intros H. tx_steps H. bool_hyps. auto.
Qed.

Lemma set_appeal_window_Ok e n s v s' :
  set_appeal_window contract_owner e n s = Ok (v, s') →
  tx_sender e = contract_owner ∧ s' = set_appeal_window_var n s.
Proof.
  unfold set_appeal_window. intros H. tx_steps H. bool_hyps. auto.
Qed.

(** ** Lifecycle invariant *)

Ltac status_consts :=
  unfold STATUS_OPEN, STATUS_UNDER_REVIEW, STATUS_RESOLVED, STATUS_APPEALED,
    STATUS_CLOSED in *.

Lemma lifecycle_init : lifecycle init.
Proof.
  split; simpl; intros *; rewrite ?lookup_empty; try done.
  all: try (intros [? ?]; done).
  split; [intros [? ?]; done | lia].
Qed.

Lemma lifecycle_frame s s' :
  lifecycle s →
  dispute_nonce s' = dispute_nonce s →
  disputes s' = disputes s →
  dispute_outcomes s' = dispute_outcomes s →
  arbitrator_assignments s' = arbitrator_assignments s →
  lifecycle s'.
Proof.
  intros [H1 H2 H3 H4 H5] En Ed Eo Ea.
  split; rewrite ?En, ?Ed, ?Eo, ?Ea; auto.
Qed.

(** A write to an existing dispute. *)
Lemma lifecycle_write s s' i d d' :
  lifecycle s →
  disputes s !! i = Some d →
  dispute_nonce s' = dispute_nonce s →
  disputes s' = <[i := d']> (disputes s) →
  STATUS_OPEN ≤ status d' ∧ status d' ≤ STATUS_CLOSED →
  (dispute_outcomes s' = dispute_outcomes s
   ∧ (STATUS_RESOLVED ≤ status d ↔ STATUS_RESOLVED ≤ status d'))
  ∨ (∃ r, dispute_outcomes s' = <[i := r]> (dispute_outcomes s)
          ∧ STATUS_RESOLVED ≤ status d') →
  (∀ j, is_Some (arbitrator_assignments s !! j) →
        is_Some (arbitrator_assignments s' !! j)) →
  (status d' = STATUS_UNDER_REVIEW → is_Some (arbitrator_assignments s' !! i)) →
  lifecycle s'.
Proof.
  intros [H1 H2 H3 H4 H5] Hd En Ed Hst Ho Ha Hrev.
  split; rewrite ?En, ?Ed.
  - intros j. rewrite lookup_insert_is_Some', <- H1.
    split; [intros [<-|?]; eauto | auto].
  - intros j dj Hj. apply lookup_insert_Some in Hj as [[<- <-]|[_ Hj]]; eauto.
  - intros j dj Hj. apply lookup_insert_Some in Hj as [[<- <-]|[Hne Hj]].
    + destruct Ho as [[-> Hiff]|(r & -> & Hres)].
      * rewrite (H3 _ _ Hd). done.
      * rewrite lookup_insert_eq. split; eauto.
    + destruct Ho as [[-> Hiff]|(r & -> & Hres)].
      * by apply H3.
      * rewrite lookup_insert_ne by done. by apply H3.
  - intros j. rewrite lookup_insert_is_Some'.
    destruct Ho as [[-> Hiff]|(r & -> & Hres)].
    + intros Hs. right. by apply H4.
    + rewrite lookup_insert_is_Some'. intros [?|Hs]; [by left | right; by apply H4].
  - intros j dj Hj Hs. apply lookup_insert_Some in Hj as [[<- <-]|[Hne Hj]]; eauto.
Qed.

Lemma step_lifecycle s ec :
  lifecycle s → lifecycle (step contract_owner s ec).
Proof.
  intros Hlc. destruct ec as [e c]. destruct c; unfold step, commit; cbn [fst snd].
  - destruct (open_dispute _ _ _ _ _ _ _ _) as [[v s']| |] eqn:H; auto.
    apply open_dispute_Ok in H as (_ & _ & _ & _ & ->).
    destruct Hlc as [H1 H2 H3 H4 H5].
    assert (Hnone : disputes s !! (dispute_nonce s + 1) = None).
    { apply eq_None_not_Some. rewrite H1. lia. }
    assert (Hno : dispute_outcomes s !! (dispute_nonce s + 1) = None).
    { apply eq_None_not_Some. intros Hs. apply H4 in Hs.
      rewrite Hnone in Hs. by destruct Hs. }
    split; simpl.
    + intros j. rewrite lookup_insert_is_Some', H1. lia.
    + intros j dj Hj. apply lookup_insert_Some in Hj as [[<- <-]|[_ Hj]]; eauto.
      simpl. status_consts. lia.
    + intros j dj Hj. apply lookup_insert_Some in Hj as [[<- <-]|[_ Hj]]; eauto.
      simpl. rewrite Hno. status_consts.
      split; [intros [? ?]; done | lia].
    + intros j Hs. apply lookup_insert_is_Some'. right. by apply H4.
    + intros j dj Hj Hs. apply lookup_insert_Some in Hj as [[<- <-]|[_ Hj]]; eauto.
      simpl in Hs. status_consts. lia.
  - destruct (submit_evidence _ _ _ _ _ _) as [[v s']| |] eqn:H; auto.
    apply submit_evidence_Ok in H as (dp & _ & _ & _ & _ & _ & ->).
    by eapply lifecycle_frame.
  - destruct (assign_arbitrator _ _ _ _ _) as [[v s']| |] eqn:H; auto.
    apply assign_arbitrator_Ok in H as (d & Hd & _ & Hopen & ->).
    eapply lifecycle_write;
      [exact Hlc | exact Hd | reflexivity | reflexivity | | | | ]; simpl.
    + status_consts. lia.
    + left. split; [done|]. rewrite Hopen. status_consts. lia.
    + intros j Hs. apply lookup_insert_is_Some'. by right.
    + intros _. apply lookup_insert_is_Some'. by left.
  - destruct (vote_on_dispute _ _ _ _ _) as [[v s']| |] eqn:H; auto.
    apply vote_on_dispute_Ok in H as (d & a & _ & _ & _ & _ & _ & ->).
    by eapply lifecycle_frame.
  - destruct (execute_ruling _ _ _ _) as [[v s']| |] eqn:H; auto.
    apply execute_ruling_Ok in H
      as (d & a & vt & st & Hd & Ha & _ & _ & _ & Hrev & _ & ->).
    eapply lifecycle_write;
      [exact Hlc | exact Hd | reflexivity | reflexivity | | | | ]; simpl.
    + status_consts. lia.
    + right. eexists. split; [reflexivity|]. simpl. status_consts. lia.
    + auto.
    + status_consts. discriminate.
  - destruct (appeal_decision _ _ _ _) as [[v s']| |] eqn:H; auto.
    apply appeal_decision_Ok in H as (d & res & Hd & Hres & _ & ->).
    eapply lifecycle_write;
      [exact Hlc | exact Hd | reflexivity | reflexivity | | | | ]; simpl.
    + status_consts. lia.
    + left. split; [done|].
      assert (Hs : STATUS_RESOLVED ≤ status d)
        by (apply (lc_outcome _ Hlc _ _ Hd); eauto).
      status_consts. lia.
    + auto.
    + status_consts. discriminate.
  - destruct (auto_resolve_dispute _ _ _ _) as [[v s']| |] eqn:H; auto.
    apply auto_resolve_dispute_Ok in H as (d & Hd & _ & Hopen & ->).
    eapply lifecycle_write;
      [exact Hlc | exact Hd | reflexivity | reflexivity | | | | ]; simpl.
    + status_consts. lia.
    + right. eexists. split; [reflexivity|]. simpl. status_consts. lia.
    + auto.
    + status_consts. discriminate.
  - destruct (close_dispute _ _ _) as [[v s']| |] eqn:H; auto.
    apply close_dispute_Ok in H as (d & Hd & Hres & ->).
    eapply lifecycle_write;
      [exact Hlc | exact Hd | reflexivity | reflexivity | | | | ]; simpl.
    + status_consts. lia.
    + left. split; [done|]. rewrite Hres. status_consts. lia.
    + auto.
    + status_consts. discriminate.
  - destruct (register_arbitrator _ _ _ _) as [[v s']| |] eqn:H; auto.
    apply register_arbitrator_Ok in H as (_ & ->). by eapply lifecycle_frame.
  - destruct (deactivate_arbitrator _ _ _ _) as [[v s']| |] eqn:H; auto.
    apply deactivate_arbitrator_Ok in H as (st & _ & _ & ->).
    by eapply lifecycle_frame.
  - destruct (set_auto_resolve_threshold _ _ _ _) as [[v s']| |] eqn:H; auto.
    apply set_auto_resolve_threshold_Ok in H as (_ & ->). by eapply lifecycle_frame.
  - destruct (set_appeal_window _ _ _ _) as [[v s']| |] eqn:H; auto.
    apply set_appeal_window_Ok in H as (_ & ->). by eapply lifecycle_frame.
Qed.

Lemma run_lifecycle l : lifecycle (run contract_owner l).
Proof.
  induction l as [|ec l IH] using rev_ind.
  - apply lifecycle_init.
  - rewrite dispute_run_snoc. by apply step_lifecycle.
Qed.

(** ** What later calls keep *)

Lemma dispute_extends_refl a : dispute_extends a a.
Proof. unfold dispute_extends. repeat split; done. Qed.

Lemma dispute_extends_trans a b c :
  dispute_extends a b → dispute_extends b c → dispute_extends a c.
Proof.
  unfold dispute_extends.
  intros (? & ? & ? & ? & ? & ? & ? & ? & ?) (? & ? & ? & ? & ? & ? & ? & ? & ?).
  repeat split; try congruence. auto.
Qed.

Lemma merge_status_extends d st t :
  (STATUS_RESOLVED ≤ status d → STATUS_RESOLVED ≤ st) →
  dispute_extends d (merge_status d st t).
Proof. intros H. unfold dispute_extends. simpl. repeat split; done. Qed.

(** A dispute and its recorded outcome, if any, across one call. *)
Lemma step_dispute_extends l ec id d :
  disputes (run contract_owner l) !! id = Some d →
  ∃ d', disputes (step contract_owner (run contract_owner l) ec) !! id = Some d'
        ∧ dispute_extends d d'
        ∧ ∀ r, dispute_outcomes (run contract_owner l) !! id = Some r →
               dispute_outcomes (step contract_owner (run contract_owner l) ec) !! id
               = Some r.
Proof.
  intros Hd. pose proof (run_lifecycle l) as Hlc.
  set (s := run contract_owner l) in *.
  assert (Hsame : ∃ d', disputes s !! id = Some d' ∧ dispute_extends d d'
                        ∧ ∀ r, dispute_outcomes s !! id = Some r →
                               dispute_outcomes s !! id = Some r)
    by eauto using dispute_extends_refl.
  assert (Hwrite : ∀ i old st t (o : gmap N resolution),
             disputes s !! i = Some old →
             (STATUS_RESOLVED ≤ status old → STATUS_RESOLVED ≤ st) →
             (∀ r, dispute_outcomes s !! id = Some r → o !! id = Some r) →
             ∃ d', <[i := merge_status old st t]> (disputes s) !! id = Some d'
                   ∧ dispute_extends d d'
                   ∧ ∀ r, dispute_outcomes s !! id = Some r → o !! id = Some r).
  { intros i old st t o Hold Hst Ho. destruct (decide (i = id)) as [->|Hne].
    - rewrite lookup_insert_eq. rewrite Hd in Hold. injection Hold as <-.
      eauto using merge_status_extends.
    - rewrite lookup_insert_ne by done. eauto using dispute_extends_refl. }
  assert (Hfresh : ∀ i old r r', disputes s !! i = Some old →
             status old < STATUS_RESOLVED →
             dispute_outcomes s !! id = Some r →
             <[i := r']> (dispute_outcomes s) !! id = Some r).
  { intros i old r r' Hold Hlow Hr. rewrite lookup_insert_ne; [done|].
    intros ->. rewrite Hd in Hold. injection Hold as <-.
    assert (STATUS_RESOLVED ≤ status d) by (apply (lc_outcome _ Hlc _ _ Hd); eauto).
    lia. }
  destruct ec as [e c]. destruct c; unfold step, commit; cbn [fst snd].
  - destruct (open_dispute _ _ _ _ _ _ _ _) as [[v s']| |] eqn:H; auto.
    apply open_dispute_Ok in H as (_ & _ & _ & _ & ->). simpl.
    rewrite lookup_insert_ne; [eauto using dispute_extends_refl|].
    intros <-. assert (Hs : is_Some (disputes s !! (dispute_nonce s + 1))) by eauto.
    apply (lc_ids _ Hlc) in Hs. lia.
  - destruct (submit_evidence _ _ _ _ _ _) as [[v s']| |] eqn:H; auto.
    by apply submit_evidence_Ok in H as (dp & _ & _ & _ & _ & _ & ->).
  - destruct (assign_arbitrator _ _ _ _ _) as [[v s']| |] eqn:H; auto.
    apply assign_arbitrator_Ok in H as (old & Hold & _ & Hopen & ->). simpl.
    apply Hwrite; auto; try (rewrite Hopen; status_consts; lia).
  - destruct (vote_on_dispute _ _ _ _ _) as [[v s']| |] eqn:H; auto.
    by apply vote_on_dispute_Ok in H as (dp & a & _ & _ & _ & _ & _ & ->).
  - destruct (execute_ruling _ _ _ _) as [[v s']| |] eqn:H; auto.
    apply execute_ruling_Ok in H
      as (old & a & vt & st & Hold & _ & _ & _ & _ & Hrev & _ & ->). simpl.
    apply Hwrite; auto; try (status_consts; lia).
    intros r Hr. eapply Hfresh; eauto. rewrite Hrev. status_consts. lia.
  - destruct (appeal_decision _ _ _ _) as [[v s']| |] eqn:H; auto.
    apply appeal_decision_Ok in H as (old & res & Hold & _ & _ & ->). simpl.
    apply Hwrite; auto; try (status_consts; lia).
  - destruct (auto_resolve_dispute _ _ _ _) as [[v s']| |] eqn:H; auto.
    apply auto_resolve_dispute_Ok in H as (old & Hold & _ & Hopen & ->). simpl.
    apply Hwrite; auto; try (status_consts; lia).
    intros r Hr. eapply Hfresh; eauto. rewrite Hopen. status_consts. lia.
  - destruct (close_dispute _ _ _) as [[v s']| |] eqn:H; auto.
    apply close_dispute_Ok in H as (old & Hold & _ & ->). simpl.
    apply Hwrite; auto; try (status_consts; lia).
  - destruct (register_arbitrator _ _ _ _) as [[v s']| |] eqn:H; auto.
    by apply register_arbitrator_Ok in H as (_ & ->).
  - destruct (deactivate_arbitrator _ _ _ _) as [[v s']| |] eqn:H; auto.
    by apply deactivate_arbitrator_Ok in H as (st & _ & _ & ->).
  - destruct (set_auto_resolve_threshold _ _ _ _) as [[v s']| |] eqn:H; auto.
    by apply set_auto_resolve_threshold_Ok in H as (_ & ->).
  - destruct (set_appeal_window _ _ _ _) as [[v s']| |] eqn:H; auto.
    by apply set_appeal_window_Ok in H as (_ & ->).
Qed.

Lemma run_dispute_extends l l' id d :
  disputes (run contract_owner l) !! id = Some d →
  ∃ d', disputes (run contract_owner (l ++ l')) !! id = Some d'
        ∧ dispute_extends d d'
        ∧ ∀ r, dispute_outcomes (run contract_owner l) !! id = Some r →
               dispute_outcomes (run contract_owner (l ++ l')) !! id = Some r.
Proof.
  intros Hd. induction l' as [|ec l' IH] using rev_ind.
  - rewrite app_nil_r. eauto using dispute_extends_refl.
  - destruct IH as (mid & Hmid & Hext & Ho).
    rewrite app_assoc, dispute_run_snoc.
    destruct (step_dispute_extends (l ++ l') ec id mid Hmid) as (d' & Hd' & Hext' & Ho').
    exists d'. split; [done|]. split; [by eapply dispute_extends_trans|]. auto.
Qed.

(** ** Evidence *)

Lemma evidence_wf_init : evidence_wf init.
Proof.
  split; simpl; try done.
  all: intros; unfold get_evidence_count in *; simpl in *.
  all: rewrite ?lookup_empty in *; simpl in *.
  - split; [intros [? ?]; done | lia].
  - match goal with H : is_Some None |- _ => by destruct H end.
Qed.

Lemma evidence_wf_frame s s' :
  evidence_wf s →
  max_evidence_per_dispute s' = max_evidence_per_dispute s →
  evidence_submissions s' = evidence_submissions s →
  evidence_count s' = evidence_count s →
  dispute_nonce s' = dispute_nonce s →
  evidence_wf s'.
Proof.
  intros [H1 H2 H3 H4] Em Es Ec En.
  split; unfold get_evidence_count in *; rewrite ?Em, ?Es, ?Ec, ?En; auto.
Qed.

Lemma step_evidence_wf l ec :
  evidence_wf (run contract_owner l) →
  evidence_wf (step contract_owner (run contract_owner l) ec).
Proof.
  intros Hev. pose proof (run_lifecycle l) as Hlc.
  set (s := run contract_owner l) in *.
  destruct ec as [e c]. destruct c; unfold step, commit; cbn [fst snd].
  - destruct (open_dispute _ _ _ _ _ _ _ _) as [[v s']| |] eqn:H; auto.
    apply open_dispute_Ok in H as (_ & _ & _ & _ & ->).
    destruct Hev as [H1 H2 H3 H4].
    assert (Hnone : evidence_count s !! (dispute_nonce s + 1) = None).
    { apply eq_None_not_Some. intros Hs. apply H4 in Hs. lia. }
    assert (Hc : ∀ id, total_evidence
                         (default {| total_evidence := 0 |}
                            (<[dispute_nonce s + 1 := {| total_evidence := 0 |}]>
                               (evidence_count s) !! id))
                       = total_evidence (get_evidence_count id s)).
    { intros id. unfold get_evidence_count.
      destruct (decide (id = dispute_nonce s + 1)) as [->|Hne].
      - by rewrite lookup_insert_eq, Hnone.
      - by rewrite lookup_insert_ne. }
    split; unfold get_evidence_count; simpl; auto.
    + intros id k. rewrite Hc. apply H2.
    + intros id. rewrite Hc. apply H3.
    + intros id. rewrite lookup_insert_is_Some'.
      intros [<-|Hs]; [lia|]. apply H4 in Hs. lia.
  - destruct (submit_evidence _ _ _ _ _ _) as [[v s']| |] eqn:H; auto.
    apply submit_evidence_Ok in H as (dp & Hdp & _ & Hcap & _ & -> & ->).
    destruct Hev as [H1 H2 H3 H4]. rewrite H1 in Hcap.
    split; unfold get_evidence_count in *; simpl; auto.
    + intros id k. rewrite lookup_insert_is_Some', H2.
      destruct (decide (id = dispute_id)) as [->|Hne].
      * rewrite lookup_insert_eq. simpl.
        split; [intros [[= <-]|?]; lia|]. intros [? ?].
        match goal with
        | |- (_, ?n) = _ ∨ _ => destruct (decide (k = n)) as [->|?]
        end; [by left | right; lia].
      * rewrite lookup_insert_ne by done.
        split; [intros [[= ? ?]|?]; [congruence | done] | by right].
    + intros id. destruct (decide (id = dispute_id)) as [->|Hne].
      * rewrite lookup_insert_eq. simpl. lia.
      * rewrite lookup_insert_ne by done. apply H3.
    + intros id. rewrite lookup_insert_is_Some'.
      intros [<-|Hs]; [|by apply H4].
      assert (Hex : is_Some (disputes s !! dispute_id)) by eauto.
      apply (lc_ids _ Hlc) in Hex. lia.
  - destruct (assign_arbitrator _ _ _ _ _) as [[v s']| |] eqn:H; auto.
    apply assign_arbitrator_Ok in H as (d & _ & _ & _ & ->).
    by eapply evidence_wf_frame.
  - destruct (vote_on_dispute _ _ _ _ _) as [[v s']| |] eqn:H; auto.
    apply vote_on_dispute_Ok in H as (d & a & _ & _ & _ & _ & _ & ->).
    by eapply evidence_wf_frame.
  - destruct (execute_ruling _ _ _ _) as [[v s']| |] eqn:H; auto.
    apply execute_ruling_Ok in H as (d & a & vt & st & _ & _ & _ & _ & _ & _ & _ & ->).
    by eapply evidence_wf_frame.
  - destruct (appeal_decision _ _ _ _) as [[v s']| |] eqn:H; auto.
    apply appeal_decision_Ok in H as (d & res & _ & _ & _ & ->).
    by eapply evidence_wf_frame.
  - destruct (auto_resolve_dispute _ _ _ _) as [[v s']| |] eqn:H; auto.
    apply auto_resolve_dispute_Ok in H as (d & _ & _ & _ & ->).
    by eapply evidence_wf_frame.
  - destruct (close_dispute _ _ _) as [[v s']| |] eqn:H; auto.
    apply close_dispute_Ok in H as (d & _ & _ & ->).
    by eapply evidence_wf_frame.
  - destruct (register_arbitrator _ _ _ _) as [[v s']| |] eqn:H; auto.
    apply register_arbitrator_Ok in H as (_ & ->). by eapply evidence_wf_frame.
  - destruct (deactivate_arbitrator _ _ _ _) as [[v s']| |] eqn:H; auto.
    apply deactivate_arbitrator_Ok in H as (st & _ & _ & ->).
    by eapply evidence_wf_frame.
  - destruct (set_auto_resolve_threshold _ _ _ _) as [[v s']| |] eqn:H; auto.
    apply set_auto_resolve_threshold_Ok in H as (_ & ->). by eapply evidence_wf_frame.
  - destruct (set_appeal_window _ _ _ _) as [[v s']| |] eqn:H; auto.
    apply set_appeal_window_Ok in H as (_ & ->). by eapply evidence_wf_frame.
Qed.

Lemma run_evidence_wf l : evidence_wf (run contract_owner l).
Proof.
  induction l as [|ec l IH] using rev_ind.
  - apply evidence_wf_init.
  - rewrite dispute_run_snoc. by apply step_evidence_wf.
Qed.

End Committed.

(** X13: dispute identifiers are allocated in sequence from 1: after any
    sequence of calls the disputes that exist are exactly those numbered 1
    to [dispute-nonce]. *)
Theorem dispute_ids_sequential own l id :
  is_Some (get_dispute id (run own l)) ↔ 1 ≤ id ∧ id ≤ dispute_nonce (run own l).
Proof. apply (lc_ids _ (run_lifecycle own l)). Qed.

(** X14: after any sequence of calls every dispute has one of the five
    statuses, has a recorded outcome exactly when it is Resolved, Appealed
    or Closed, and has an assigned arbitrator when it is UnderReview. *)
Theorem dispute_status_tracks_records own l id d :
  get_dispute id (run own l) = Some d →
  (STATUS_OPEN ≤ status d ∧ status d ≤ STATUS_CLOSED)
  ∧ (is_Some (get_dispute_outcome id (run own l)) ↔ STATUS_RESOLVED ≤ status d)
  ∧ (status d = STATUS_UNDER_REVIEW →
     is_Some (get_arbitrator_assignment id (run own l))).
Proof.
  intros Hd. pose proof (run_lifecycle own l) as Hlc.
  split; [exact (lc_status _ Hlc _ _ Hd)|].
  split; [exact (lc_outcome _ Hlc _ _ Hd) | exact (lc_assigned _ Hlc _ _ Hd)].
Qed.

Lemma dispute_status_tracks_records_witness :
  get_dispute 1 (run owner resolved_trace) = Some resolved_dispute
  ∧ is_Some (get_dispute_outcome 1 (run owner resolved_trace)).
Proof.
  split; [vm_compute; reflexivity|].
  refine (proj2 (proj1 (proj2 (dispute_status_tracks_records owner resolved_trace 1
                                 resolved_dispute _))) _);
    vm_compute; (reflexivity || discriminate).
Defined.

(** X15: no later sequence of calls removes a dispute or changes its
    campaign, parties, type, amount, description, creation time or
    resolution deadline; a dispute that is Resolved, Appealed or Closed
    never becomes Open or UnderReview again, and an outcome once recorded
    is never replaced. *)
Theorem dispute_never_rewritten own l l' id d :
  get_dispute id (run own l) = Some d →
  ∃ d', get_dispute id (run own (l ++ l')) = Some d'
        ∧ dispute_extends d d'
        ∧ ∀ r, get_dispute_outcome id (run own l) = Some r →
               get_dispute_outcome id (run own (l ++ l')) = Some r.
Proof. apply run_dispute_extends. Qed.

Lemma dispute_never_rewritten_witness :
  get_dispute 1 (run owner resolved_trace) = Some resolved_dispute
  ∧ ∃ d', get_dispute 1 (run owner closed_trace) = Some d'
          ∧ dispute_extends resolved_dispute d'
          ∧ ∀ r, get_dispute_outcome 1 (run owner resolved_trace) = Some r →
                 get_dispute_outcome 1 (run owner closed_trace) = Some r.
Proof.
  split; [vm_compute; reflexivity|].
  apply (dispute_never_rewritten owner resolved_trace
           [(Env publisher_p 140, CloseDispute 1)] 1 resolved_dispute).
  vm_compute; reflexivity.
Defined.

(** X16: the reputation score of every party stays within 0..100 after any
    sequence of calls, and a party's won and lost counts never exceed its
    total. *)
Theorem reputation_bounded own l party :
  reputation_of party (run own l) ≤ 100
  ∧ disputes_won (party_record party (run own l))
    ≤ total_disputes (party_record party (run own l))
  ∧ disputes_lost (party_record party (run own l))
    ≤ total_disputes (party_record party (run own l)).
Proof. apply (party_record_ok party _ (dispute_run_wf own l)). Qed.

(** X17: the evidence of a dispute is numbered in sequence from 1 and
    capped: after any sequence of calls a dispute holds at most 10 pieces
    of evidence, numbered 1 to its [evidence-count], and [submit-evidence]
    by a party on a dispute that already holds 10 fails with
    [err-evidence-limit]. *)
Theorem evidence_capped own l id :
  total_evidence (get_evidence_count id (run own l)) ≤ 10
  ∧ (∀ k, is_Some (evidence_submissions (run own l) !! (id, k))
          ↔ 1 ≤ k ∧ k ≤ total_evidence (get_evidence_count id (run own l)))
  ∧ (∀ e t h descr d,
       get_dispute id (run own l) = Some d →
       tx_sender e = advertiser d ∨ tx_sender e = publisher d →
       total_evidence (get_evidence_count id (run own l)) = 10 →
       submit_evidence e id t h descr (run own l) = Err err_evidence_limit).
Proof.
  pose proof (run_evidence_wf own l) as [H1 H2 H3 H4].
  split; [apply H3|]. split; [apply H2|].
  intros e t h descr d Hd Hparty Hfull.
  assert (Hp : bool_decide (tx_sender e = advertiser d)
               || bool_decide (tx_sender e = publisher d) = true).
  { apply orb_true_iff. destruct Hparty; [left|right]; by apply bool_decide_eq_true_2. }
  unfold submit_evidence. tx_unfold. rewrite Hd. simpl. rewrite Hfull. simpl.
  rewrite Hp. simpl. by rewrite H1.
Qed.

(** X18: [auto-resolve-dispute], whoever calls it, on an Open dispute whose
    amount is at most the auto-resolve threshold records a Split outcome of
    half the amount (integer division) that cannot be appealed, names the
    contract owner as winner and marks the dispute Resolved; neither
    party's reputation changes. *)
Theorem auto_resolve_dispute_spec own e id s d :
  get_dispute id s = Some d →
  amount d ≤ auto_resolve_threshold s →
  status d = STATUS_OPEN →
  total_disputes_resolved s < uint_max →
  ∃ s', auto_resolve_dispute own e id s = Ok (true, s')
        ∧ get_dispute_outcome id s'
          = Some {| outcome := OUTCOME_SPLIT; winner := own;
                    amount_transferred := amount d / 2;
                    reasoning := "Auto-resolved: small claim split 50/50";
                    resolved_at := stacks_block_time e; can_appeal := false |}
        ∧ get_dispute id s' = Some (merge_status d STATUS_RESOLVED (stacks_block_time e))
        ∧ dispute_history s' = dispute_history s
        ∧ (status <$> get_dispute id s') = Some STATUS_RESOLVED.
Proof.
  intros Hd Hsmall Hopen Hfit.
  unfold auto_resolve_dispute. tx_unfold. rewrite Hd.
  rewrite (proj2 (N.leb_le _ _) Hsmall), (proj2 (N.eqb_eq _ _) Hopen). simpl.
  rewrite (proj2 (N.leb_le (total_disputes_resolved s + 1) uint_max)) by lia.
  eexists. split; [reflexivity|].
  unfold get_dispute_outcome, get_dispute. simpl. rewrite !lookup_insert_eq. done.
Qed.

Lemma auto_resolve_dispute_spec_witness :
  ∃ s', auto_resolve_dispute owner (Env arbitrator_a 200) 1 (run owner small_claim_trace)
        = Ok (true, s')
        ∧ (amount_transferred <$> get_dispute_outcome 1 s') = Some 500000
        ∧ (status <$> get_dispute 1 s') = Some STATUS_RESOLVED.
Proof.
  destruct (auto_resolve_dispute_spec owner (Env arbitrator_a 200) 1
              (run owner small_claim_trace) small_claim)
    as (s' & H1 & H2 & H3 & _); try (vm_compute; (reflexivity || discriminate)).
  exists s'. split; [exact H1|]. rewrite H2, H3. split; reflexivity.
Defined.

(** X19: an outcome recorded as not appealable stays so: once a dispute has
    an outcome with [can-appeal] false (every auto-resolved dispute has),
    [appeal-decision] on it fails in every later store, whoever calls and
    whenever. *)
Theorem unappealable_forever own l l' id r e reason :
  get_dispute_outcome id (run own l) = Some r →
  can_appeal r = false →
  failed (appeal_decision e id reason (run own (l ++ l'))).
Proof.
  intros Hr Hno.
  assert (Hex : is_Some (disputes (run own l) !! id)).
  { apply (lc_outcome_dom _ (run_lifecycle own l)). unfold get_dispute_outcome in Hr.
    eauto. }
  destruct Hex as [d Hd].
  destruct (run_dispute_extends own l l' id d Hd) as (d' & _ & _ & Ho).
  specialize (Ho r Hr).
  destruct (appeal_decision _ _ _ _) as [[v s']| |] eqn:H; simpl; auto.
  apply appeal_decision_Ok in H as (d0 & res & _ & Hres & Hcan & _).
  rewrite Ho in Hres. injection Hres as <-. congruence.
Qed.

Lemma unappealable_forever_witness :
  failed (appeal_decision (Env advertiser_d 300) 1 "again"
            (run owner (small_claim_trace ++ [(Env owner 200, AutoResolveDispute 1)]
                        ++ [(Env owner 250, SetAppealWindow 100000)]))).
Proof.
  apply (unappealable_forever owner
           (small_claim_trace ++ [(Env owner 200, AutoResolveDispute 1)])
           [(Env owner 250, SetAppealWindow 100000)] 1
           {| outcome := OUTCOME_SPLIT; winner := owner; amount_transferred := 500000;
              reasoning := "Auto-resolved: small claim split 50/50";
              resolved_at := 200; can_appeal := false |});
    vm_compute; reflexivity.
Defined.

(** X20: [open-dispute] fails with [err-invalid-status] for an unknown
    dispute type, else with [err-insufficient-amount] for an amount below
    the minimum, else with [err-invalid-party] when the other party is the
    caller; otherwise it returns [dispute-nonce + 1] and stores there an
    Open dispute in which the caller is the advertiser when the flag is set
    and the publisher otherwise, with a resolution deadline 1440 after the
    current time and no evidence. *)
Theorem open_dispute_spec e c p t a d f s :
  dispute_nonce s < uint_max →
  stacks_block_time e + 1440 ≤ uint_max →
  (is_valid_dispute_type t = false →
   open_dispute e c p t a d f s = Err err_invalid_status)
  ∧ (is_valid_dispute_type t = true → a < min_dispute_amount s →
     open_dispute e c p t a d f s = Err err_insufficient_amount)
  ∧ (is_valid_dispute_type t = true → min_dispute_amount s ≤ a → tx_sender e = p →
     open_dispute e c p t a d f s = Err err_invalid_party)
  ∧ (is_valid_dispute_type t = true → min_dispute_amount s ≤ a → tx_sender e ≠ p →
     ∃ s', open_dispute e c p t a d f s = Ok (dispute_nonce s + 1, s')
           ∧ get_dispute (dispute_nonce s + 1) s'
             = Some {| campaign_id := c;
                       advertiser := if f then tx_sender e else p;
                       publisher := if f then p else tx_sender e;
                       dispute_type := t; amount := a; status := STATUS_OPEN;
                       description := d; created_at := stacks_block_time e;
                       updated_at := stacks_block_time e;
                       resolution_deadline := stacks_block_time e + 1440 |}
           ∧ get_evidence_count (dispute_nonce s + 1) s' = {| total_evidence := 0 |}
           ∧ dispute_nonce s' = dispute_nonce s + 1).
Proof.
  intros Hnonce Htime.
  assert (Hn : (dispute_nonce s + 1 <=? uint_max) = true) by (apply N.leb_le; lia).
  assert (Ht : (stacks_block_time e + 1440 <=? uint_max) = true)
    by (by apply N.leb_le).
  repeat split.
  - intros Hty. unfold open_dispute. tx_unfold. by rewrite Hn, Ht, Hty.
  - intros Hty Hlow. unfold open_dispute. tx_unfold. rewrite Hn, Ht, Hty.
    by rewrite (proj2 (N.leb_gt _ _) Hlow).
  - intros Hty Hmin Hself. unfold open_dispute. tx_unfold. rewrite Hn, Ht, Hty.
    rewrite (proj2 (N.leb_le _ _) Hmin). by rewrite bool_decide_eq_true_2.
  - intros Hty Hmin Hother. unfold open_dispute. tx_unfold. rewrite Hn, Ht, Hty.
    rewrite (proj2 (N.leb_le _ _) Hmin). rewrite bool_decide_eq_false_2 by done.
    eexists. split; [reflexivity|].
    unfold get_dispute, get_evidence_count. simpl. rewrite !lookup_insert_eq. done.
Qed.

Lemma open_dispute_spec_witness :
  ∃ s', open_dispute (Env publisher_p 100) 7 advertiser_d TYPE_QUALITY 1000000
          "late creative" false init
        = Ok (1, s')
        ∧ get_dispute 1 s' = Some small_claim.
Proof.
  destruct (open_dispute_spec (Env publisher_p 100) 7 advertiser_d TYPE_QUALITY
              1000000 "late creative" false init) as (_ & _ & _ & H);
    try (vm_compute; (reflexivity || discriminate)).
  destruct H as (s' & H1 & H2 & _); try (vm_compute; (reflexivity || discriminate)).
  exists s'. split; [exact H1 | exact H2].
Defined.

(** X21: [assign-arbitrator] asks only that the caller is the owner and the
    dispute Open: it accepts any principal as arbitrator, registered or
    not, active or deactivated.  It records the assignment with a decision
    deadline 720 after the current time, moves the dispute to UnderReview
    and adds one to the arbitrator's total cases, keeping the other
    statistics (the active flag included). *)
Theorem assign_arbitrator_spec own e id arb s d :
  get_dispute id s = Some d →
  tx_sender e = own →
  status d = STATUS_OPEN →
  stacks_block_time e + 720 ≤ uint_max →
  total_cases (stats_record arb s) < uint_max →
  ∃ s', assign_arbitrator own e id arb s = Ok (true, s')
        ∧ get_arbitrator_assignment id s'
          = Some {| arbitrator := arb; assigned_at := stacks_block_time e;
                    decision_deadline := stacks_block_time e + 720 |}
        ∧ get_dispute id s'
          = Some (merge_status d STATUS_UNDER_REVIEW (stacks_block_time e))
        ∧ get_arbitrator_stats arb s'
          = Some {| total_cases := total_cases (stats_record arb s) + 1;
                    cases_resolved := cases_resolved (stats_record arb s);
                    reputation := reputation (stats_record arb s);
                    active := active (stats_record arb s) |}
        ∧ (status <$> get_dispute id s') = Some STATUS_UNDER_REVIEW.
Proof.
  intros Hd Hown Hopen Htime Hfit.
  unfold assign_arbitrator. tx_unfold. rewrite Hd.
  rewrite (proj2 (N.leb_le _ _) Htime).
  rewrite bool_decide_eq_true_2 by done.
  rewrite (proj2 (N.eqb_eq _ _) Hopen). simpl.
  unfold stats_record in *.
  rewrite (proj2 (N.leb_le (_ + 1) uint_max)) by lia.
  eexists. split; [reflexivity|].
  unfold get_arbitrator_assignment, get_dispute, get_arbitrator_stats. simpl.
  rewrite !lookup_insert_eq. done.
Qed.

Lemma assign_arbitrator_spec_witness :
  ∃ s', assign_arbitrator owner (Env owner 110) 1 arbitrator_a
          (run owner (deactivated_trace))
        = Ok (true, s')
        ∧ (active <$> get_arbitrator_stats arbitrator_a s') = Some false
        ∧ (status <$> get_dispute 1 s') = Some STATUS_UNDER_REVIEW.
Proof.
  destruct (assign_arbitrator_spec owner (Env owner 110) 1 arbitrator_a
              (run owner deactivated_trace) small_claim)
    as (s' & H1 & _ & H3 & H4 & _); try (vm_compute; (reflexivity || discriminate)).
  exists s'. split; [exact H1|]. rewrite H3, H4. split; reflexivity.
Defined.

(** X22: [vote-on-dispute] by the assigned arbitrator on a dispute under
    review stores the vote in place of any vote it cast before and changes
    nothing else: every data variable and every other map of the contract
    is as before, and so is every other entry of [arbitrator-votes].  With
    an outcome outside the four defined ones it fails with
    [err-invalid-status]. *)
Theorem vote_on_dispute_spec e id out reason s d a :
  get_dispute id s = Some d →
  get_arbitrator_assignment id s = Some a →
  tx_sender e = arbitrator a →
  status d = STATUS_UNDER_REVIEW →
  (is_valid_outcome out = false →
   vote_on_dispute e id out reason s = Err err_invalid_status)
  ∧ (is_valid_outcome out = true →
     ∃ s', vote_on_dispute e id out reason s = Ok (true, s')
           ∧ arbitrator_votes s'
             = <[(id, arbitrator a) :=
                   {| vote_outcome := out; vote_reasoning := reason;
                      voted_at := stacks_block_time e |}]> (arbitrator_votes s)
           ∧ get_arbitrator_vote id (arbitrator a) s'
             = Some {| vote_outcome := out; vote_reasoning := reason;
                       voted_at := stacks_block_time e |}
           ∧ (∀ k, k ≠ (id, arbitrator a) →
                   arbitrator_votes s' !! k = arbitrator_votes s !! k)
           ∧ dispute_nonce s' = dispute_nonce s
           ∧ min_dispute_amount s' = min_dispute_amount s
           ∧ max_evidence_per_dispute s' = max_evidence_per_dispute s
           ∧ arbitration_fee_percentage s' = arbitration_fee_percentage s
           ∧ appeal_window s' = appeal_window s
           ∧ auto_resolve_threshold s' = auto_resolve_threshold s
           ∧ total_disputes_resolved s' = total_disputes_resolved s
           ∧ disputes s' = disputes s
           ∧ evidence_submissions s' = evidence_submissions s
           ∧ arbitrator_assignments s' = arbitrator_assignments s
           ∧ dispute_outcomes s' = dispute_outcomes s
           ∧ evidence_count s' = evidence_count s
           ∧ dispute_history s' = dispute_history s
           ∧ arbitrator_stats s' = arbitrator_stats s).
Proof.
  intros Hd Ha Hsender Hrev.
  split; intros Hout; unfold vote_on_dispute; tx_unfold; rewrite Hd, Ha;
    rewrite bool_decide_eq_true_2 by done;
    rewrite (proj2 (N.eqb_eq _ _) Hrev), Hout; [done|].
  eexists. split; [reflexivity|].
  unfold get_arbitrator_vote. simpl. rewrite Hsender.
  split; [reflexivity|]. split; [apply lookup_insert_eq|].
  split; [intros k Hk; by rewrite lookup_insert_ne|].
  repeat split.
Qed.

Lemma vote_on_dispute_spec_witness :
  ∃ s', vote_on_dispute (Env arbitrator_a 125) 1 OUTCOME_SPLIT "on reflection"
          (run owner voted_trace)
        = Ok (true, s')
        ∧ (vote_outcome <$> get_arbitrator_vote 1 arbitrator_a s') = Some OUTCOME_SPLIT
        ∧ disputes s' = disputes (run owner voted_trace).
Proof.
  destruct (vote_on_dispute_spec (Env arbitrator_a 125) 1 OUTCOME_SPLIT
              "on reflection" (run owner voted_trace) voted_dispute voted_assignment)
    as [_ H]; try (vm_compute; (reflexivity || discriminate)).
  destruct H as (s' & H1 & _ & H2 & _ & _ & _ & _ & _ & _ & _ & _ & H3 & _);
    [reflexivity|].
  exists s'. split; [exact H1|]. split; [exact (f_equal (fmap vote_outcome) H2)|].
  exact H3.
Defined.

(** X23: the read-only [can-appeal] agrees with [appeal-decision]: for a
    party of an existing dispute, [appeal-decision] succeeds exactly when
    [can-appeal] answers true at that time. *)
Theorem can_appeal_agrees e id reason s d :
  get_dispute id s = Some d →
  tx_sender e = advertiser d ∨ tx_sender e = publisher d →
  (∃ s', appeal_decision e id reason s = Ok (true, s'))
  ↔ can_appeal_read e id s = Ok (true, s).
Proof.
  intros Hd Hparty.
  assert (Hp : bool_decide (tx_sender e = advertiser d)
               || bool_decide (tx_sender e = publisher d) = true).
  { apply orb_true_iff. destruct Hparty; [left|right]; by apply bool_decide_eq_true_2. }
  unfold can_appeal_read, appeal_decision. tx_unfold. rewrite Hd.
  destruct (get_dispute_outcome id s) as [res|]; simpl.
  - rewrite Hp. simpl. destruct (can_appeal res); simpl.
    + destruct (resolved_at res <=? stacks_block_time e); simpl.
      * destruct (_ <? _); simpl; split; eauto; (intros [? ?] || intros ?); done.
      * split; [intros [? ?]|]; done.
    + split; [intros [? ?]|]; done.
  - split; [intros [? ?]|]; done.
Qed.

Lemma can_appeal_agrees_witness :
  can_appeal_read (Env advertiser_d 150) 1 (run owner resolved_trace)
  = Ok (true, run owner resolved_trace).
Proof.
  apply (can_appeal_agrees (Env advertiser_d 150) 1 "unfair"
           (run owner resolved_trace) resolved_dispute);
    [vm_compute; reflexivity | left; reflexivity |].
  eexists. vm_compute. reflexivity.
Defined.

End DisputeExtra.
